(** * opendlv-video-h264-recorder: the recording pipeline of [main]

    A model of [src/opendlv-video-h264-recorder.cpp].  The body of [main]
    is written as a program over the calls it makes to its collaborators
    (the shared memory area, the clock, the recording file, the file mutex,
    the OD4 session); a small-step semantics runs that program together
    with the delegate invocations of the OD4 session and with the
    environment (frame producer, clock, termination signal).

    The file has the data, the program and the machine first, then the
    protocols and relations the invariants are stated with and the example
    runs, then the proofs: the invariants of the machine, the runs of the
    main thread alone through [snapshot] and [save_frame], and the
    statements C1 to C10.  Further properties of the code, X1 to X16,
    come last: the time stamp and the name of the recording file, the
    command line, the envelopes of the session, what is open when, and
    the rounds of the loop. *)

From Stdlib Require Import ZArith List String Ascii Bool Lia.
From Stdlib Require Import Init.Byte.
From stdpp Require Import gmap strings pretty.

Local Open Scope string_scope.
Local Open Scope Z_scope.
Local Open Scope list_scope.

(** ** Data *)

(** [cluon::data::TimeStamp] *)
Record TimeStamp := mkTimeStamp { seconds : Z; microseconds : Z }.

(** [cluon::data::Envelope]; a default-constructed envelope is [Envelope.empty]
    and the setters are the fluent setters of the generated class. *)
Module Envelope.
Record t := mk {
  dataType : Z;
  serializedData : list byte;
  sent : TimeStamp;
  received : TimeStamp;
  sampleTimeStamp : TimeStamp;
  senderStamp : Z
}.
Definition empty : t := mk 0 [] (mkTimeStamp 0 0) (mkTimeStamp 0 0) (mkTimeStamp 0 0) 0.
Definition set_dataType (v : Z) (e : t) : t :=
  mk v (serializedData e) (sent e) (received e) (sampleTimeStamp e) (senderStamp e).
Definition set_serializedData (v : list byte) (e : t) : t :=
  mk (dataType e) v (sent e) (received e) (sampleTimeStamp e) (senderStamp e).
Definition set_sent (v : TimeStamp) (e : t) : t :=
  mk (dataType e) (serializedData e) v (received e) (sampleTimeStamp e) (senderStamp e).
Definition set_sampleTimeStamp (v : TimeStamp) (e : t) : t :=
  mk (dataType e) (serializedData e) (sent e) (received e) v (senderStamp e).
Definition set_senderStamp (v : Z) (e : t) : t :=
  mk (dataType e) (serializedData e) (sent e) (received e) (sampleTimeStamp e) v.
End Envelope.

(** [opendlv::proxy::ImageReading] *)
Module ImageReading.
Record t := mk {
  fourcc : string;
  width : Z;
  height : Z;
  data : list byte
}.
Definition empty : t := mk "" 0 0 [].
Definition set_fourcc (v : string) (m : t) : t := mk v (width m) (height m) (data m).
Definition set_width (v : Z) (m : t) : t := mk (fourcc m) v (height m) (data m).
Definition set_height (v : Z) (m : t) : t := mk (fourcc m) (width m) v (data m).
Definition set_data (v : list byte) (m : t) : t := mk (fourcc m) (width m) (height m) v.
(** [ImageReading::ID()].  The class is declared in
    [opendlv-standard-message-set.hpp], which is not among the sources; the
    value is the identifier of [opendlv.proxy.ImageReading] in the OpenDLV
    standard message set.  No statement below depends on it. *)
Definition ID : Z := 1055.
End ImageReading.

(** [struct tm], as far as [getYYYYMMDD_HHMMSS] reads it. *)
Record tm := mk_tm {
  tm_year : Z; tm_mon : Z; tm_mday : Z; tm_hour : Z; tm_min : Z; tm_sec : Z
}.

(** [static_cast<uint32_t>] *)
Definition uint32 (z : Z) : Z := z mod 2 ^ 32.

(** ** [std::stoi]

    Leading white space is skipped, an optional sign is read, then decimal
    digits; no digit at all is [std::invalid_argument], a value outside
    [int] is [std::out_of_range].  Both are [None] here. *)

Definition isspace (c : ascii) : bool :=
  let n := N_of_ascii c in ((n =? 32) || ((9 <=? n) && (n <=? 13)))%N.

Definition isdigit (c : ascii) : bool :=
  let n := N_of_ascii c in ((48 <=? n) && (n <=? 57))%N.

Fixpoint skip_space (s : string) : string :=
  match s with
  | String c r => if isspace c then skip_space r else s
  | EmptyString => s
  end.

Fixpoint read_digits (acc : option Z) (s : string) : option Z :=
  match s with
  | String c r =>
      if isdigit c
      then read_digits (Some (10 * default 0 acc + (Z.of_N (N_of_ascii c) - 48))) r
      else acc
  | EmptyString => acc
  end.

Definition stoi (s : string) : option Z :=
  let s := skip_space s in
  let '(neg, s) :=
    match s with
    | String "-" r => (true, r)
    | String "+" r => (false, r)
    | _ => (false, s)
    end in
  match read_digits None s with
  | None => None
  | Some n =>
      let v := if neg then - n else n in
      if (- 2 ^ 31 <=? v) && (v <=? 2 ^ 31 - 1) then Some v else None
  end.

(** ** Programs

    The calls [main] makes to the outside.  [Event X] is a call that
    returns an [X]. *)

Inductive Event : Type -> Type :=
(* diagnostics *)
| cerr (line : string) : Event unit
| clog (line : string) : Event unit
(* cluon::time::now(), localtime(3) *)
| now : Event TimeStamp
| localtime (secs : Z) : Event tm
(* cluon::SharedMemory *)
| SharedMemory_new (name : string) : Event unit
| SharedMemory_valid : Event bool
| SharedMemory_name : Event string
| SharedMemory_size : Event nat
| SharedMemory_wait : Event unit
| SharedMemory_lock : Event unit
| SharedMemory_unlock : Event unit
| SharedMemory_getTimeStamp : Event (bool * TimeStamp)
| SharedMemory_data (n : nat) : Event (list byte)   (* std::string{data(), n} *)
| SharedMemory_delete : Event unit
(* cluon::TerminateHandler::instance().isTerminated.load() *)
| isTerminated : Event bool
(* std::fstream recFile *)
| fstream_open (path : string) : Event unit
| fstream_good : Event bool
| fstream_write (d : list byte) : Event unit
| fstream_flush : Event unit
| fstream_close : Event unit
(* std::mutex recFileMutex, through std::lock_guard *)
| lock_guard : Event unit
| lock_guard_release : Event unit
(* cluon::OD4Session *)
| OD4Session_new (cid : Z) : Event unit
| OD4Session_delete : Event unit
(* cluon::ToProtoVisitor over an ImageReading, cluon::serializeEnvelope *)
| ToProtoVisitor (ir : ImageReading.t) : Event (list byte)
| serializeEnvelope (e : Envelope.t) : Event (list byte).

(** A program returning an [A]: a value, an uncaught exception, a call
    followed by the rest, or a [while] loop followed by the rest. *)
Inductive Prog (A : Type) : Type :=
| Ret (a : A)
| Throw
| Vis {X : Type} (e : Event X) (k : X -> Prog A)
| While (c : Prog bool) (b : Prog unit) (k : Prog A).

Arguments Ret {A} a.
Arguments Throw {A}.
Arguments Vis {A X} e k.
Arguments While {A} c b k.

Fixpoint bind {A B : Type} (p : Prog A) (f : A -> Prog B) : Prog B :=
  match p with
  | Ret a => f a
  | Throw => Throw
  | Vis e k => Vis e (fun x => bind (k x) f)
  | While c b k => While c b (bind k f)
  end.

Definition call {X : Type} (e : Event X) : Prog X := Vis e Ret.

Notation "x <- p ;; q" := (bind p (fun x => q))
  (at level 100, p at next level, q at level 200, right associativity).
Notation "p ;; q" := (bind p (fun _ => q))
  (at level 100, q at level 200, right associativity).

(** ** The program *)

(** The map returned by [cluon::getCommandlineArguments]: [count] and
    [operator[]] of [std::map<std::string, std::string>].  [operator[]]
    also inserts the empty string under a missing key; the only later
    [count] is on ["verbose"], which [operator[]] is never applied to, so
    the map is read here without that update. *)
Definition count (m : gmap string string) (k : string) : Z :=
  match m !! k with Some _ => 1 | None => 0 end.

Definition at_key (m : gmap string string) (k : string) : string :=
  default "" (m !! k).

Definition size (s : string) : Z := Z.of_nat (String.length s).

(** [std::stoi] inside a program: an exception nobody catches. *)
Definition std_stoi (s : string) : Prog Z :=
  match stoi s with
  | Some v => Ret v
  | None => Throw
  end.

(** Lines 52-73, the lambda [getYYYYMMDD_HHMMSS]. *)
Definition getYYYYMMDD_HHMMSS : Prog string :=
  now_ <- call now;;
  let _seconds := seconds now_ in
  tm <- call (localtime _seconds);;
  let year := uint32 (1900 + tm_year tm) in
  let month := uint32 (1 + tm_mon tm) in
  let dayOfMonth := uint32 (tm_mday tm) in
  let hours := uint32 (tm_hour tm) in
  let minutes := uint32 (tm_min tm) in
  let seconds := uint32 (tm_sec tm) in
  let retVal :=
    pretty year +:+ "-" +:+ (if month <? 10 then "0" else "") +:+ pretty month
      +:+ "-" +:+ (if dayOfMonth <? 10 then "0" else "") +:+ pretty dayOfMonth
      +:+ "_" +:+ (if hours <? 10 then "0" else "") +:+ pretty hours
      +:+ (if minutes <? 10 then "0" else "") +:+ pretty minutes
      +:+ (if seconds <? 10 then "0" else "") +:+ pretty seconds in
  Ret retVal.

(** Lines 97-102, the delegate handed to the OD4 session. *)
Definition od4_delegate (envelope : Envelope.t) : Prog unit :=
  call lock_guard;;
  data <- call (serializeEnvelope envelope);;
  call (fstream_write data);;
  call fstream_flush;;
  call lock_guard_release.

(** Lines 122-153, the statements guarded by [if (0 < totalSize)]. *)
Definition save_frame (WIDTH HEIGHT ID : Z) (VERBOSE : bool)
    (sampleTimeStamp : TimeStamp) (data : list byte) : Prog unit :=
  let ir := ImageReading.empty in
  let ir := ImageReading.set_fourcc "xyz" ir in
  let ir := ImageReading.set_width WIDTH ir in
  let ir := ImageReading.set_height HEIGHT ir in
  let ir := ImageReading.set_data data ir in
  let envelope := Envelope.empty in
  let envelope := Envelope.set_dataType ImageReading.ID envelope in
  encodedData <- call (ToProtoVisitor ir);;
  let envelope := Envelope.set_serializedData encodedData envelope in
  sent <- call now;;
  let envelope := Envelope.set_sent sent envelope in
  let envelope := Envelope.set_sampleTimeStamp sampleTimeStamp envelope in
  let envelope := Envelope.set_senderStamp ID envelope in
  call lock_guard;;
  serializedData <- call (serializeEnvelope envelope);;
  call (fstream_write serializedData);;
  call fstream_flush;;
  (if VERBOSE then (afterWriting <- call now;; Ret tt) else Ret tt);;
  call lock_guard_release;;
  (if VERBOSE then call (clog "[opendlv-video-xyz-recorder]: XYZ frame saved.")
   else Ret tt).

(** Line 105, the condition of the [while]. *)
Definition loop_condition : Prog bool :=
  v <- call SharedMemory_valid;;
  if v then (t <- call isTerminated;; Ret (negb t)) else Ret false.

(** Lines 107-119: wait for a frame, take the time, and read the
    notification time stamp and the bytes of the area under its lock.
    Returns the local variables [sampleTimeStamp] and [data]. *)
Definition snapshot : Prog (TimeStamp * list byte) :=
  call SharedMemory_wait;;
  sampleTimeStamp <- call now;;
  call SharedMemory_lock;;
  r <- call SharedMemory_getTimeStamp;;
  let sampleTimeStamp := if r.1 then r.2 else sampleTimeStamp in
  n <- call SharedMemory_size;;
  data <- call (SharedMemory_data n);;
  call SharedMemory_unlock;;
  Ret (sampleTimeStamp, data).

(** Lines 106-154, the body of the [while].  [totalSize] is declared at
    line 111, between the calls of [snapshot], and is only read at line 121. *)
Definition loop_body (WIDTH HEIGHT ID : Z) (VERBOSE : bool) : Prog unit :=
  let totalSize := 0 in
  frame <- snapshot;;
  let sampleTimeStamp := frame.1 in
  let data := frame.2 in
  if 0 <? totalSize
  then save_frame WIDTH HEIGHT ID VERBOSE sampleTimeStamp data
  else Ret tt.

(** Lines 36-50, the usage text. *)
Definition usage (argv0 : string) : Prog unit :=
  call (cerr (argv0 +:+ " attaches to an XYZ-formatted image point cloud residing in a shared memory area to store (uncompressed) to a file."));;
  call (cerr ("Usage:   " +:+ argv0 +:+ " --name=<name of shared memory area> --width=<width> --height=<height> [--verbose] [--id=<identifier in case of multiple instances] [--cid=<OpenDaVINCI session to include Envelopes from the specified CID in the recording>] [--rec=MyFile.rec] [--recsuffix=Suffix]"));;
  call (cerr "         --cid:             CID of the OD4Session to receive Envelopes to include in the recording file");;
  call (cerr "         --id:              when using several instances, this identifier is used as senderStamp");;
  call (cerr "         --rec:             name of the recording file; default: YYYY-MM-DD_HHMMSS.rec");;
  call (cerr "         --recsuffix:       additional suffix to add to the .rec file");;
  call (cerr "         --name:            name of the shared memory area to attach");;
  call (cerr "         --width:           width of the frame");;
  call (cerr "         --height:          height of the frame");;
  call (cerr "         --verbose:         print encoding information");;
  call (cerr ("Example: " +:+ argv0 +:+ " --name=data --width=640 --height=480 --verbose")).

(** Lines 84-161: everything after the command line is read. *)
Definition record (retCode : Z)
    (NAME : string) (WIDTH HEIGHT CID ID : Z) (NAME_RECFILE : string)
    (VERBOSE : bool) : Prog Z :=
  call (SharedMemory_new NAME);;
  attached <- call SharedMemory_valid;;
  retCode <-
    (if attached then
       name <- call SharedMemory_name;;
       bytes <- call SharedMemory_size;;
       call (clog ("[opendlv-video-xyz-recorder]: Attached to '" +:+ name
                   +:+ "' (" +:+ pretty bytes +:+ " bytes); recording data to '"
                   +:+ NAME_RECFILE +:+ "'"));;
       call (fstream_open NAME_RECFILE);;
       good <- call fstream_good;;
       (if good then
          od4 <- (if 0 <? CID then (call (OD4Session_new CID);; Ret true)
                  else Ret false);;
          While loop_condition (loop_body WIDTH HEIGHT ID VERBOSE) (Ret tt);;
          (if od4 : bool then call OD4Session_delete else Ret tt)
        else Ret tt);;
       let retCode := 0 in
       call fstream_close;;
       Ret retCode
     else
       call (cerr ("[opendlv-video-xyz-recorder]: Failed to attach to shared memory '"
                   +:+ NAME +:+ "'."));;
       Ret retCode);;
  call SharedMemory_delete;;
  Ret retCode.

(** Lines 33-164. *)
Definition main (argv0 : string) (commandlineArguments : gmap string string) : Prog Z :=
  let retCode := 1 in
  if (0 =? count commandlineArguments "name")
     || (0 =? count commandlineArguments "width")
     || (0 =? count commandlineArguments "height")
  then
    usage argv0;;
    Ret retCode
  else
    let NAME := at_key commandlineArguments "name" in
    let RECSUFFIX := at_key commandlineArguments "recsuffix" in
    WIDTH <- std_stoi (at_key commandlineArguments "width");;
    let WIDTH := uint32 WIDTH in
    HEIGHT <- std_stoi (at_key commandlineArguments "height");;
    let HEIGHT := uint32 HEIGHT in
    CID <- (if negb (size (at_key commandlineArguments "cid") =? 0)
            then (v <- std_stoi (at_key commandlineArguments "cid");; Ret (uint32 v))
            else Ret 0);;
    ID <- (if negb (size (at_key commandlineArguments "id") =? 0)
           then (v <- std_stoi (at_key commandlineArguments "id");; Ret (uint32 v))
           else Ret 0);;
    NAME_RECFILE <-
      (if negb (size (at_key commandlineArguments "rec") =? 0)
       then Ret (at_key commandlineArguments "rec" +:+ RECSUFFIX)
       else (stamp <- getYYYYMMDD_HHMMSS;; Ret (stamp +:+ RECSUFFIX +:+ ".rec")));;
    let VERBOSE := negb (count commandlineArguments "verbose" =? 0) in
    record retCode NAME WIDTH HEIGHT CID ID NAME_RECFILE VERBOSE.

(** ** The machine the program runs on *)

(** The threads that take the file mutex: [main], and the invocations of
    the OD4 delegate, numbered in the order the envelopes are received. *)
Inductive Tid :=
| T_main
| T_od4 (i : nat).

(** What the threads share.  [attachable] and [writable] are the shared
    memory areas that exist (with their sizes) and the paths an output
    stream can be opened on; [zone] is [localtime].  The [sm_] fields are the
    [cluon::SharedMemory] object and the area behind it, the [rec_] fields the
    stream [recFile] (bytes that reached the file, bytes still in the
    stream buffer) and [recFileMutex].  [acquired] and [serialized] are
    history: who took the file mutex, and which envelope each thread
    serialized, in the order it happened. *)
Record Shared := mkShared {
  attachable : string -> option nat;
  writable : string -> bool;
  zone : Z -> tm;
  clock : TimeStamp;
  sm_name : string;
  sm_valid : bool;
  sm_size : nat;
  sm_data : nat -> byte;
  sm_timestamp : bool * TimeStamp;
  sm_locked : bool;
  terminated : bool;
  rec_good : bool;
  rec_disk : list byte;
  rec_buf : list byte;
  rec_mutex : option Tid;
  od4_running : bool;
  cerr_out : list string;
  clog_out : list string;
  acquired : list Tid;
  serialized : list (Tid * Envelope.t)
}.

Definition set_clock (v : TimeStamp) (s : Shared) : Shared :=
  mkShared (attachable s) (writable s) (zone s) v (sm_name s) (sm_valid s)
    (sm_size s) (sm_data s) (sm_timestamp s) (sm_locked s) (terminated s)
    (rec_good s) (rec_disk s) (rec_buf s) (rec_mutex s) (od4_running s)
    (cerr_out s) (clog_out s) (acquired s) (serialized s).

Definition set_sm (name : string) (v : bool) (n : nat) (s : Shared) : Shared :=
  mkShared (attachable s) (writable s) (zone s) (clock s) name v
    n (sm_data s) (sm_timestamp s) (sm_locked s) (terminated s)
    (rec_good s) (rec_disk s) (rec_buf s) (rec_mutex s) (od4_running s)
    (cerr_out s) (clog_out s) (acquired s) (serialized s).

Definition set_sm_valid (v : bool) (s : Shared) : Shared :=
  set_sm (sm_name s) v (sm_size s) s.

Definition set_sm_frame (d : nat -> byte) (ts : bool * TimeStamp) (s : Shared) : Shared :=
  mkShared (attachable s) (writable s) (zone s) (clock s) (sm_name s) (sm_valid s)
    (sm_size s) d ts (sm_locked s) (terminated s)
    (rec_good s) (rec_disk s) (rec_buf s) (rec_mutex s) (od4_running s)
    (cerr_out s) (clog_out s) (acquired s) (serialized s).

Definition set_sm_locked (v : bool) (s : Shared) : Shared :=
  mkShared (attachable s) (writable s) (zone s) (clock s) (sm_name s) (sm_valid s)
    (sm_size s) (sm_data s) (sm_timestamp s) v (terminated s)
    (rec_good s) (rec_disk s) (rec_buf s) (rec_mutex s) (od4_running s)
    (cerr_out s) (clog_out s) (acquired s) (serialized s).

Definition set_terminated (v : bool) (s : Shared) : Shared :=
  mkShared (attachable s) (writable s) (zone s) (clock s) (sm_name s) (sm_valid s)
    (sm_size s) (sm_data s) (sm_timestamp s) (sm_locked s) v
    (rec_good s) (rec_disk s) (rec_buf s) (rec_mutex s) (od4_running s)
    (cerr_out s) (clog_out s) (acquired s) (serialized s).

Definition set_rec (good : bool) (disk buf : list byte) (s : Shared) : Shared :=
  mkShared (attachable s) (writable s) (zone s) (clock s) (sm_name s) (sm_valid s)
    (sm_size s) (sm_data s) (sm_timestamp s) (sm_locked s) (terminated s)
    good disk buf (rec_mutex s) (od4_running s)
    (cerr_out s) (clog_out s) (acquired s) (serialized s).

Definition set_rec_mutex (v : option Tid) (acq : list Tid) (s : Shared) : Shared :=
  mkShared (attachable s) (writable s) (zone s) (clock s) (sm_name s) (sm_valid s)
    (sm_size s) (sm_data s) (sm_timestamp s) (sm_locked s) (terminated s)
    (rec_good s) (rec_disk s) (rec_buf s) v (od4_running s)
    (cerr_out s) (clog_out s) acq (serialized s).

Definition set_od4_running (v : bool) (s : Shared) : Shared :=
  mkShared (attachable s) (writable s) (zone s) (clock s) (sm_name s) (sm_valid s)
    (sm_size s) (sm_data s) (sm_timestamp s) (sm_locked s) (terminated s)
    (rec_good s) (rec_disk s) (rec_buf s) (rec_mutex s) v
    (cerr_out s) (clog_out s) (acquired s) (serialized s).

Definition set_out (err out : list string) (s : Shared) : Shared :=
  mkShared (attachable s) (writable s) (zone s) (clock s) (sm_name s) (sm_valid s)
    (sm_size s) (sm_data s) (sm_timestamp s) (sm_locked s) (terminated s)
    (rec_good s) (rec_disk s) (rec_buf s) (rec_mutex s) (od4_running s)
    err out (acquired s) (serialized s).

Definition set_serialized (v : list (Tid * Envelope.t)) (s : Shared) : Shared :=
  mkShared (attachable s) (writable s) (zone s) (clock s) (sm_name s) (sm_valid s)
    (sm_size s) (sm_data s) (sm_timestamp s) (sm_locked s) (terminated s)
    (rec_good s) (rec_disk s) (rec_buf s) (rec_mutex s) (od4_running s)
    (cerr_out s) (clog_out s) (acquired s) v.

Section Machine.

(** The two encoders of libcluon, deterministic and total functions:
    what [ToProtoVisitor::encodedData] holds after [ir.accept], and
    [cluon::serializeEnvelope]. *)
Variable proto_encode : ImageReading.t -> list byte.
Variable serialize : Envelope.t -> list byte.

(** Modelled from the spec: the collaborators of its section 6 (the
    shared memory area, the session, the termination flag and the clock of
    libcluon, and the stream and the mutex of the C++ library), which are
    not among the sources.

    One call [e] of thread [t] in state [s]: the value it returns and
    the state it leaves.  [None]: the call blocks in this state.

    [wait] returns at once on an invalid area and otherwise blocks until
    the producer notifies (see [notify] below); [lock] of the area blocks
    while it is held; [std::string{data(), n}] copies [n] bytes from the
    start of the area.  [flush] and [close] move the stream buffer to the
    file; a stream that is not good ignores [write] and [flush].  The destructor of the
    OD4 session joins its receiver, so it blocks until every delegate
    invocation has returned ([joined]). *)
Definition respond {X : Type} (joined : bool) (t : Tid) (e : Event X) (s : Shared)
    : option (X * Shared) :=
  match e in Event X return option (X * Shared) with
  | cerr line => Some (tt, set_out (cerr_out s ++ [line]) (clog_out s) s)
  | clog line => Some (tt, set_out (cerr_out s) (clog_out s ++ [line]) s)
  | now => Some (clock s, s)
  | localtime secs => Some (zone s secs, s)
  | SharedMemory_new name =>
      match attachable s name with
      | Some n => Some (tt, set_sm name true n s)
      | None => Some (tt, set_sm name false 0%nat s)
      end
  | SharedMemory_valid => Some (sm_valid s, s)
  | SharedMemory_name => Some (sm_name s, s)
  | SharedMemory_size => Some (sm_size s, s)
  | SharedMemory_wait => if sm_valid s then None else Some (tt, s)
  | SharedMemory_lock =>
      if sm_locked s then None else Some (tt, set_sm_locked true s)
  | SharedMemory_unlock => Some (tt, set_sm_locked false s)
  | SharedMemory_getTimeStamp => Some (sm_timestamp s, s)
  | SharedMemory_data n => Some (List.map (sm_data s) (List.seq 0 n), s)
  | SharedMemory_delete => Some (tt, set_sm_valid false s)
  | isTerminated => Some (terminated s, s)
  | fstream_open path =>
      if writable s path
      then Some (tt, set_rec true [] [] s)
      else Some (tt, set_rec false (rec_disk s) (rec_buf s) s)
  | fstream_good => Some (rec_good s, s)
  | fstream_write d => Some (tt, s)
  | fstream_flush =>
      Some (tt, if rec_good s
                then set_rec true (rec_disk s ++ rec_buf s) [] s
                else s)
  | fstream_close => Some (tt, set_rec false (rec_disk s ++ rec_buf s) [] s)
  | lock_guard =>
      match rec_mutex s with
      | None => Some (tt, set_rec_mutex (Some t) (acquired s ++ [t]) s)
      | Some _ => None
      end
  | lock_guard_release => Some (tt, set_rec_mutex None (acquired s) s)
  | OD4Session_new cid => Some (tt, set_od4_running true s)
  | OD4Session_delete =>
      if joined then Some (tt, set_od4_running false s) else None
  | ToProtoVisitor ir => Some (proto_encode ir, s)
  | serializeEnvelope e =>
      Some (serialize e, set_serialized (serialized s ++ [(t, e)]) s)
  end.

(** [fstream::write] is not atomic with respect to the other threads:
    the bytes go into the stream buffer one at a time, and the call
    returns when none is left.  [pending_write e] is the next byte of a
    write in progress and the call that remains. *)
Definition pending_write {X : Type} (e : Event X) : option (byte * Event X) :=
  match e in Event X return option (byte * Event X) with
  | fstream_write (b :: d) => Some (b, fstream_write d)
  | _ => None
  end.

Definition put_byte (b : byte) (s : Shared) : Shared :=
  if rec_good s then set_rec true (rec_disk s) (rec_buf s ++ [b]) s else s.

(** One step of a thread.  Entering a [while] evaluates nothing yet: it
    unfolds into the condition followed by the choice. *)
Definition step_prog {A : Type} (joined : bool) (t : Tid) (p : Prog A) (s : Shared)
    : option (Prog A * Shared) :=
  match p with
  | Ret _ => None
  | Throw => None
  | Vis e k =>
      match pending_write e with
      | Some (b, e') => Some (Vis e' k, put_byte b s)
      | None =>
          match respond joined t e s with
          | Some (x, s') => Some (k x, s')
          | None => None
          end
      end
  | While c b k =>
      Some (bind c (fun v : bool => if v then bind b (fun _ => While c b k) else k), s)
  end.

(** [notifyAll] of the producer: a thread blocked in [wait] resumes, any
    other thread is not affected (the notification is not remembered). *)
Definition notify {A : Type} (p : Prog A) : Prog A :=
  match p with
  | Vis e k =>
      match e in Event X return (X -> Prog A) -> Prog A with
      | SharedMemory_wait => fun k => k tt
      | e' => fun k => Vis e' k
      end k
  | _ => p
  end.

Definition finished {A : Type} (p : Prog A) : bool :=
  match p with
  | Ret _ => true
  | Throw => true
  | _ => false
  end.

(** The whole process: shared state, the main thread, and the delegate
    invocations started so far. *)
Record World := mkWorld {
  shared : Shared;
  main_thread : Prog Z;
  delegates : list (Prog unit)
}.

(** What can happen next. *)
Inductive Label :=
| L_main                                           (* main takes a step *)
| L_od4 (i : nat)                                  (* delegate invocation [i] takes a step *)
| L_receive (e : Envelope.t)                       (* the session receives [e] and invokes the delegate *)
| L_signal                                         (* SIGINT or SIGTERM: the handler sets the flag *)
| L_tick (t : TimeStamp)                           (* the clock moves to [t] *)
| L_frame (d : nat -> byte) (ts : bool * TimeStamp) (* the producer locks, writes a frame, unlocks, notifies *)
| L_detach.                                        (* the area goes away *)

Definition step (l : Label) (w : World) : option World :=
  match l with
  | L_main =>
      match step_prog (forallb finished (delegates w)) T_main (main_thread w) (shared w) with
      | Some (p, s) => Some (mkWorld s p (delegates w))
      | None => None
      end
  | L_od4 i =>
      match delegates w !! i with
      | Some p =>
          match step_prog true (T_od4 i) p (shared w) with
          | Some (p', s) => Some (mkWorld s (main_thread w) (<[i := p']> (delegates w)))
          | None => None
          end
      | None => None
      end
  | L_receive e =>
      if od4_running (shared w)
      then Some (mkWorld (shared w) (main_thread w) (delegates w ++ [od4_delegate e]))
      else None
  | L_signal =>
      Some (mkWorld (set_terminated true (shared w)) (main_thread w) (delegates w))
  | L_tick t =>
      Some (mkWorld (set_clock t (shared w)) (main_thread w) (delegates w))
  | L_frame d ts =>
      if sm_valid (shared w) && negb (sm_locked (shared w))
      then Some (mkWorld (set_sm_frame d ts (shared w)) (notify (main_thread w)) (delegates w))
      else None
  | L_detach =>
      Some (mkWorld (set_sm_valid false (shared w)) (main_thread w) (delegates w))
  end.

Fixpoint exec (ls : list Label) (w : World) : option World :=
  match ls with
  | [] => Some w
  | l :: ls' =>
      match step l w with
      | Some w' => exec ls' w'
      | None => None
      end
  end.

(** The state at process start: no object constructed yet. *)
Definition power_on (areas : string -> option nat) (paths : string -> bool)
    (tz : Z -> tm) (t0 : TimeStamp) (d0 : nat -> byte) (ts0 : bool * TimeStamp)
    : Shared :=
  mkShared areas paths tz t0 "" false 0%nat d0 ts0 false false
    false [] [] None false [] [] [] [].

Definition boot (s : Shared) (argv0 : string) (args : gmap string string) : World :=
  mkWorld s (main argv0 args) [].

End Machine.

(** ** Protocols

    A protocol is a state machine over the calls of a program: which call
    is allowed in which state, and the state after a call that returned
    [x].  [follows q p post] says that [p], started in state [q], makes
    only allowed calls on every path and whatever the calls return, that a
    [while] is entered and left in a [calm] state which its body restores,
    and that [p] returns [a] in a state [q'] with [post a q']. *)

Section Protocol.

Variable St : Type.
Variable allowed : St -> forall X, Event X -> Prop.
Variable next : St -> forall X, Event X -> X -> St.
Variable calm : St -> Prop.

Fixpoint follows {A : Type} (q : St) (p : Prog A) (post : A -> St -> Prop) : Prop :=
  match p with
  | Ret a => post a q
  | Throw => calm q
  | Vis e k => allowed q _ e /\ forall x, follows (next q _ e x) (k x) post
  | While c b k =>
      calm q /\
      follows q c (fun v q' =>
        if v : bool
        then follows q' b (fun _ q'' => q'' = q)
        else follows q' k post)
  end.

End Protocol.

(** The first call of a program, classified. *)
Definition head {A : Type} (class : forall X, Event X -> bool) (p : Prog A) : bool :=
  match p with
  | Vis e _ => class _ e
  | _ => false
  end.

(** Classes of calls. *)
Definition is_wait (X : Type) (e : Event X) : bool :=
  match e with SharedMemory_wait => true | _ => false end.

Definition is_flag_test (X : Type) (e : Event X) : bool :=
  match e with isTerminated => true | _ => false end.

Definition is_copy (X : Type) (e : Event X) : bool :=
  match e with SharedMemory_data _ => true | _ => false end.

Definition is_unlock (X : Type) (e : Event X) : bool :=
  match e with SharedMemory_unlock => true | _ => false end.

(** The calls made between [lock] and [unlock] of the area. *)
Definition reads_area (X : Type) (e : Event X) : bool :=
  match e with
  | SharedMemory_getTimeStamp => true
  | SharedMemory_size => true
  | SharedMemory_data _ => true
  | SharedMemory_unlock => true
  | _ => false
  end.

(** Encoding and file output. *)
Definition encodes_or_writes (X : Type) (e : Event X) : bool :=
  match e with
  | ToProtoVisitor _ => true
  | serializeEnvelope _ => true
  | fstream_write _ => true
  | fstream_flush => true
  | _ => false
  end.

(** *** The life of the recording file

    [Before good]: the OD4 session does not exist yet, nothing was
    appended ([good]: the stream is known to be good); [Serving]: the
    session exists and delegates may run; [After]: the session was
    destroyed.  The stream is opened only before and closed only outside
    [Serving]; the main thread makes no call of an append. *)
Inductive Phase :=
| Before (good : bool)
| Serving
| After.

Definition phase_allowed (ph : Phase) (X : Type) (e : Event X) : Prop :=
  match e with
  | fstream_open _ => match ph with Before _ => True | _ => False end
  | fstream_close => match ph with Serving => False | _ => True end
  | OD4Session_new _ => ph = Before true
  | OD4Session_delete => ph = Serving
  | lock_guard => False
  | lock_guard_release => False
  | serializeEnvelope _ => False
  | fstream_write _ => False
  | fstream_flush => False
  | _ => True
  end.

Definition phase_next (ph : Phase) (X : Type) (e : Event X) : X -> Phase :=
  match e in Event X return X -> Phase with
  | fstream_open _ => fun _ => Before false
  | fstream_good => fun x =>
      if x then match ph with Before _ => Before true | _ => ph end else ph
  | fstream_close => fun _ => match ph with Before _ => Before false | _ => ph end
  | OD4Session_new _ => fun _ => Serving
  | OD4Session_delete => fun _ => After
  | _ => fun _ => ph
  end.

(** *** The lock of the area

    [Held] after [lock], [Copied] after the bytes were copied; in
    [Copied] the only call allowed is [unlock].  Every call other than
    those of [reads_area] needs the lock to be [Free]. *)
Inductive Lock :=
| Free
| Held
| Copied.

Definition lock_allowed (q : Lock) (X : Type) (e : Event X) : Prop :=
  match e with
  | SharedMemory_lock => q = Free
  | SharedMemory_getTimeStamp => q <> Copied
  | SharedMemory_size => q <> Copied
  | SharedMemory_data _ => q = Held
  | SharedMemory_unlock => q <> Free
  | _ => q = Free
  end.

Definition lock_next (q : Lock) (X : Type) (e : Event X) : X -> Lock :=
  match e in Event X return X -> Lock with
  | SharedMemory_lock => fun _ => Held
  | SharedMemory_data _ => fun _ => Copied
  | SharedMemory_unlock => fun _ => Free
  | _ => fun _ => q
  end.

(** *** The termination flag

    The state is [true] exactly when the last call was a test of the flag
    that found it unset; [wait] is allowed in that state only. *)
Definition guard_allowed (g : bool) (X : Type) (e : Event X) : Prop :=
  is_wait X e = true -> g = true.

Definition guard_next (g : bool) (X : Type) (e : Event X) : X -> bool :=
  match e in Event X return X -> bool with
  | isTerminated => fun x => negb x
  | _ => fun _ => false
  end.

(** *** The exit status

    [Unchecked]: before the validity test of line 85, nothing printed on
    [cerr]; [Attached]: the test succeeded; [Failing]: it failed and the
    message is due; [Reported]: the message was printed; [Usage]: the
    usage text is being printed.  [missing] says whether a required
    argument is missing, [NAME] is the name of the area. *)
Inductive Exit :=
| Unchecked
| Attached
| Failing
| Reported
| Usage.

Definition failed_to_attach (NAME : string) : string :=
  "[opendlv-video-xyz-recorder]: Failed to attach to shared memory '" +:+ NAME +:+ "'.".

Definition exit_allowed (missing : bool) (NAME : string) (q : Exit)
    (X : Type) (e : Event X) : Prop :=
  match e with
  | cerr line =>
      match q with
      | Unchecked => missing = true
      | Usage => True
      | Failing => line = failed_to_attach NAME
      | _ => False
      end
  | SharedMemory_new name => q = Unchecked /\ name = NAME
  | SharedMemory_valid => q <> Failing /\ (q = Unchecked -> missing = false)
  | _ => q <> Failing
  end.

Definition exit_next (q : Exit) (X : Type) (e : Event X) : X -> Exit :=
  match e in Event X return X -> Exit with
  | cerr _ => fun _ =>
      match q with
      | Failing => Reported
      | _ => Usage
      end
  | SharedMemory_valid => fun x =>
      match q with
      | Unchecked => if x then Attached else Failing
      | _ => q
      end
  | _ => fun _ => q
  end.

Definition exit_post (c : Z) (q : Exit) : Prop :=
  match q with
  | Attached => c = 0
  | Reported => c = 1
  | Usage => c = 1
  | _ => False
  end.

(** The required arguments (line 36). *)
Definition required_missing (args : gmap string string) : bool :=
  (0 =? count args "name") || (0 =? count args "width") || (0 =? count args "height").

Definition phase_post (c : Z) (ph : Phase) : Prop := ph <> Serving.

Definition lock_calm (q : Lock) : Prop := q = Free.

Definition lock_post (c : Z) (q : Lock) : Prop := q = Free.

Definition guard_calm (g : bool) : Prop := g = false.

Definition guard_post (c : Z) (g : bool) : Prop := True.

(** ** Invariants

    [holds] ties a protocol to the machine: the main thread follows the
    protocol from some state [q], and [R] relates [q] to the shared state
    and to the delegate invocations. *)

Section Holds.

Variable St : Type.
Variable allowed : St -> forall X, Event X -> Prop.
Variable next : St -> forall X, Event X -> X -> St.
Variable calm : St -> Prop.
Variable post : Z -> St -> Prop.
Variable R : St -> Shared -> list (Prog unit) -> Prop.

Definition holds (w : World) : Prop :=
  exists q, follows St allowed next calm q (main_thread w) post /\
            R q (shared w) (delegates w).

End Holds.

(** *** The delegate invocations

    Where an invocation of [od4_delegate] stands: not started, holding the
    mutex before serializing, writing with [rem] still to go, about to
    flush, about to release, returned. *)
Inductive DState :=
| D_start (e : Envelope.t)
| D_locked (e : Envelope.t)
| D_writing (rem : list byte)
| D_flush
| D_release
| D_done.

Definition delegate_at (st : DState) : Prog unit :=
  match st with
  | D_start e => od4_delegate e
  | D_locked e =>
      data <- call (serializeEnvelope e);;
      call (fstream_write data);;
      call fstream_flush;;
      call lock_guard_release
  | D_writing rem =>
      call (fstream_write rem);;
      call fstream_flush;;
      call lock_guard_release
  | D_flush =>
      call fstream_flush;;
      call lock_guard_release
  | D_release => call lock_guard_release
  | D_done => Ret tt
  end.

Definition idle (st : DState) : bool :=
  match st with
  | D_start _ => true
  | D_done => true
  | _ => false
  end.

(** Every delegate invocation is somewhere in [od4_delegate]. *)
Definition shapes (ds : list (Prog unit)) : Prop :=
  exists sts, ds = List.map delegate_at sts.

(** The part of the state the appends work on, and a part they leave
    alone. *)
Definition file_view (s : Shared) :=
  (rec_good s, rec_disk s, rec_buf s, rec_mutex s, od4_running s, acquired s, serialized s).

Definition env_view (s : Shared) :=
  (attachable s, sm_valid s, sm_locked s, terminated s, cerr_out s).

Section Writer.

Variable serialize : Envelope.t -> list byte.

(** The serialized envelopes, in the order they were serialized. *)
Definition appended (l : list (Tid * Envelope.t)) : list (list byte) :=
  List.map (fun te => serialize te.2) l.

(** What the file holds while invocation [i] has the mutex. *)
Definition holder_rel (i : nat) (st : DState) (s : Shared) : Prop :=
  match st with
  | D_start _ => False
  | D_done => False
  | D_locked _ =>
      rec_buf s = [] /\ rec_disk s = concat (appended (serialized s)) /\
      acquired s = List.map fst (serialized s) ++ [T_od4 i]
  | D_writing rem =>
      exists l e, serialized s = l ++ [(T_od4 i, e)] /\
        rec_disk s = concat (appended l) /\
        rec_buf s ++ rem = serialize e /\
        acquired s = List.map fst (serialized s)
  | D_flush =>
      exists l e, serialized s = l ++ [(T_od4 i, e)] /\
        rec_disk s = concat (appended l) /\
        rec_buf s = serialize e /\
        acquired s = List.map fst (serialized s)
  | D_release =>
      (exists l e, serialized s = l ++ [(T_od4 i, e)]) /\
      rec_buf s = [] /\ rec_disk s = concat (appended (serialized s)) /\
      acquired s = List.map fst (serialized s)
  end.

(** The file and the mutex against the states of the invocations. *)
Definition mutex_rel (s : Shared) (sts : list DState) : Prop :=
  match rec_mutex s with
  | None =>
      Forall (fun st => idle st = true) sts /\
      rec_buf s = [] /\ rec_disk s = concat (appended (serialized s)) /\
      acquired s = List.map fst (serialized s)
  | Some T_main => False
  | Some (T_od4 i) =>
      exists st, sts !! i = Some st /\ holder_rel i st s /\
        forall j st', j <> i -> sts !! j = Some st' -> idle st' = true
  end.

Definition phase_rel (ph : Phase) (s : Shared) (sts : list DState) : Prop :=
  match ph with
  | Before good =>
      od4_running s = false /\ sts = [] /\ serialized s = [] /\
      (good = true -> rec_good s = true)
  | Serving => od4_running s = true /\ rec_good s = true
  | After => od4_running s = false /\ Forall (fun st => st = D_done) sts
  end.

Definition writer_rel (ph : Phase) (s : Shared) (ds : list (Prog unit)) : Prop :=
  exists sts, ds = List.map delegate_at sts /\ mutex_rel s sts /\ phase_rel ph s sts.

Definition writer_inv (w : World) : Prop :=
  holds Phase phase_allowed phase_next (fun _ => True) phase_post writer_rel w.

End Writer.

(** *** Without a session

    [CID] (line 79), if [std::stoi] returns; and the life of the recording
    file when the session is never created. *)
Definition configured_cid (args : gmap string string) : option Z :=
  if negb (size (at_key args "cid") =? 0)
  then option_map uint32 (stoi (at_key args "cid"))
  else Some 0.

(** The sender stamp the command line settles on, likewise. *)
Definition configured_id (args : gmap string string) : option Z :=
  if negb (size (at_key args "id") =? 0)
  then option_map uint32 (stoi (at_key args "id"))
  else Some 0.

(** The steps [main] takes before it attaches: the clock and [localtime],
    if the name of the recording file has to be made up. *)
Definition startup (args : gmap string string) : list Label :=
  repeat L_main (if negb (size (at_key args "rec") =? 0) then 0%nat else 2%nat).

Definition is_session (X : Type) (e : Event X) : bool :=
  match e with
  | OD4Session_new _ => true
  | OD4Session_delete => true
  | _ => false
  end.

Definition lone_allowed (ph : Phase) (X : Type) (e : Event X) : Prop :=
  phase_allowed ph X e /\ is_session X e = false.

Definition lone_rel (serialize : Envelope.t -> list byte) (ph : Phase) (s : Shared)
    (ds : list (Prog unit)) : Prop :=
  writer_rel serialize ph s ds /\ exists good, ph = Before good.

Definition locked (q : Lock) : bool :=
  match q with
  | Free => false
  | _ => true
  end.

Definition lock_rel (q : Lock) (s : Shared) (ds : list (Prog unit)) : Prop :=
  sm_locked s = locked q /\ shapes ds.

Definition guard_rel (g : bool) (s : Shared) (ds : list (Prog unit)) : Prop := True.

Definition exit_rel (areas : string -> option nat) (missing : bool) (NAME : string)
    (q : Exit) (s : Shared) (ds : list (Prog unit)) : Prop :=
  shapes ds /\ attachable s = areas /\
  match q with
  | Unchecked => cerr_out s = [] /\ (sm_valid s = true -> attachable s NAME <> None)
  | Attached => missing = false /\ cerr_out s = [] /\ attachable s NAME <> None
  | Failing => missing = false /\ cerr_out s = []
  | Reported => missing = false /\ cerr_out s = [failed_to_attach NAME]
  | Usage => missing = true
  end.

(** The same process with the termination flag set to [b]. *)
Definition with_flag (b : bool) (w : World) : World :=
  mkWorld (set_terminated b (shared w)) (main_thread w) (delegates w).

(** ** Runs of the main thread alone *)

(** The schedule on which the main thread runs [snapshot] alone: the
    producer delivers the frame [d] with notification time stamp [ts], the
    clock shows [t] when the thread resumes, and the thread makes its six
    calls. *)
Definition snapshot_schedule (d : nat -> byte) (ts : bool * TimeStamp) (t : TimeStamp)
    : list Label :=
  L_frame d ts :: L_tick t :: repeat L_main 6.

(** The schedule on which the main thread runs [save_frame] alone, the
    clock showing [t] when it is read: the encoder, the clock, the mutex
    and the serialization, the write of [n] bytes, and the flush and the
    release (with the second clock reading and the log line if verbose). *)
Definition save_schedule (t : TimeStamp) (VERBOSE : bool) (n : nat) : list Label :=
  [L_main; L_tick t; L_main; L_main; L_main] ++ repeat L_main (S n)
    ++ repeat L_main (if VERBOSE then 4 else 2)%nat.

(** The envelope [save_frame] builds from its arguments, the encoder and
    the clock. *)
Definition frame_envelope (proto_encode : ImageReading.t -> list byte)
    (WIDTH HEIGHT ID : Z) (sampleTimeStamp sent : TimeStamp) (data : list byte)
    : Envelope.t :=
  {| Envelope.dataType := ImageReading.ID;
     Envelope.serializedData :=
       proto_encode {| ImageReading.fourcc := "xyz";
                       ImageReading.width := WIDTH;
                       ImageReading.height := HEIGHT;
                       ImageReading.data := data |};
     Envelope.sent := sent;
     Envelope.received := mkTimeStamp 0 0;
     Envelope.sampleTimeStamp := sampleTimeStamp;
     Envelope.senderStamp := ID |}.

(** ** Example runs

    Concrete encoders, a machine with one area ["data"] of four bytes, and
    schedules.  [three_frames] is the scenario of the specification: no
    [--rec], no [--cid], three frames 10 ms apart, then the termination
    signal. *)

Definition demo_encode (ir : ImageReading.t) : list byte := ImageReading.data ir.

Definition demo_serialize (e : Envelope.t) : list byte :=
  x0d :: xa4 :: Envelope.serializedData e.

Definition demo_areas (name : string) : option nat :=
  if String.eqb name "data" then Some 4%nat else None.

Definition demo_zone (secs : Z) : tm := mk_tm 119 0 1 0 0 0.

Definition demo_shared (paths : string -> bool) : Shared :=
  power_on demo_areas paths demo_zone (mkTimeStamp 1546300800 0)
    (fun _ => x00) (false, mkTimeStamp 0 0).

Definition demo_args : gmap string string :=
  <["name" := "data"]> (<["width" := "640"]> (<["height" := "480"]> (<["id" := "7"]> ∅))).

Definition demo_args_cid : gmap string string := <["cid" := "111"]> demo_args.

Definition demo_world : World := boot (demo_shared (fun _ => true)) "recorder" demo_args.

Definition demo_world_cid : World := boot (demo_shared (fun _ => true)) "recorder" demo_args_cid.

Definition three_frames : list Label :=
  repeat L_main 12
  ++ [L_frame (fun _ => x01) (true, mkTimeStamp 1546300800 9000);
      L_tick (mkTimeStamp 1546300800 10000)] ++ repeat L_main 9
  ++ [L_frame (fun _ => x02) (true, mkTimeStamp 1546300800 19000);
      L_tick (mkTimeStamp 1546300800 20000)] ++ repeat L_main 9
  ++ [L_frame (fun _ => x03) (true, mkTimeStamp 1546300800 29000);
      L_tick (mkTimeStamp 1546300800 30000)] ++ repeat L_main 6
  ++ [L_signal] ++ repeat L_main 5.

Definition demo_envelope (payload : list byte) : Envelope.t :=
  Envelope.set_serializedData payload (Envelope.set_dataType 19 Envelope.empty).

(** The session delivers two envelopes while the main thread waits; the
    first delegate takes the mutex and has written one byte when a frame
    arrives and the main thread reads the area up to the copy. *)
Definition busy : list Label :=
  repeat L_main 13
  ++ [L_receive (demo_envelope [x0a; x0b]); L_receive (demo_envelope [x0c]);
      L_od4 0; L_od4 0; L_od4 0;
      L_frame (fun _ => x01) (true, mkTimeStamp 1546300800 9000)]
  ++ repeat L_main 4.

(** From there to the end: the copy and the unlock, the signal, the two
    delegates, and the main thread to its [return]. *)
Definition to_the_end : list Label :=
  busy ++ [L_main; L_main; L_signal] ++ repeat (L_od4 0) 6 ++ repeat (L_od4 1) 8
  ++ repeat L_main 6.

Definition run_or (w0 : World) (ls : list Label) : World :=
  match exec demo_encode demo_serialize ls w0 with
  | Some w => w
  | None => w0
  end.

Definition demo_busy : World := Eval vm_compute in run_or demo_world_cid busy.

Definition demo_done : World := Eval vm_compute in run_or demo_world_cid to_the_end.

Definition demo_after_frames : World := Eval vm_compute in run_or demo_world three_frames.

(** The main thread at its first [wait], the recording file open. *)
Definition demo_waiting : World := Eval vm_compute in run_or demo_world (repeat L_main 12).

(** ** The time stamp in the name of the recording file *)

(** What a program that only reads the clock returns, the clock showing
    [t] and [localtime] answering by [tz]. *)
Fixpoint read_clock {A : Type} (tz : Z -> tm) (t : TimeStamp) (p : Prog A) : option A :=
  match p with
  | Ret a => Some a
  | Vis e k =>
      match e in Event X return (X -> Prog A) -> option A with
      | now => fun k => read_clock tz t (k t)
      | localtime secs => fun k => read_clock tz t (k (tz secs))
      | _ => fun _ => None
      end k
  | _ => None
  end.

(** The text [getYYYYMMDD_HHMMSS] returns when [localtime] answers [t]. *)
Definition stamp_of (t : tm) : string :=
  default "" (read_clock (fun _ => t) (mkTimeStamp 0 0) getYYYYMMDD_HHMMSS).

(** Calendar fields as [localtime] delivers them, in a year of four
    digits. *)
Definition calendar (t : tm) : bool :=
  (-900 <=? tm_year t) && (tm_year t <=? 8099)
  && (0 <=? tm_mon t) && (tm_mon t <=? 11)
  && (1 <=? tm_mday t) && (tm_mday t <=? 31)
  && (0 <=? tm_hour t) && (tm_hour t <=? 23)
  && (0 <=? tm_min t) && (tm_min t <=? 59)
  && (0 <=? tm_sec t) && (tm_sec t <=? 60).

(** A text with every digit replaced by the letter d. *)
Fixpoint mask (s : string) : string :=
  match s with
  | String c r => String (if isdigit c then "d"%char else c) (mask r)
  | EmptyString => EmptyString
  end.

(** A field as lines 66-69 print it: a zero in front of a value below
    ten. *)
Definition padded (f : Z) : string := (if f <? 10 then "0" else "") +:+ pretty f.

(** [s] is [f] written with [width] digits. *)
Definition numeral_ok (width : nat) (f : Z) (s : string) : bool :=
  (String.length s =? width)%nat
  && String.eqb (mask s) (string_of_list_ascii (repeat "d"%char width))
  && match stoi s with Some v => v =? f | None => false end.

Definition range (lo n : Z) : list Z :=
  List.map (fun i => lo + Z.of_nat i) (List.seq 0 (Z.to_nat n)).

Definition lexicographic (c rest : comparison) : comparison :=
  match c with
  | Eq => rest
  | _ => c
  end.

(** The order of calendar fields: by year, then month, day, hour, minute
    and second. *)
Definition tm_compare (a b : tm) : comparison :=
  lexicographic (tm_year a ?= tm_year b)
    (lexicographic (tm_mon a ?= tm_mon b)
       (lexicographic (tm_mday a ?= tm_mday b)
          (lexicographic (tm_hour a ?= tm_hour b)
             (lexicographic (tm_min a ?= tm_min b) (tm_sec a ?= tm_sec b))))).

(** ** The name of the recording file *)

(** [NAME_RECFILE] (line 81), [seen] being what [localtime] answered, if
    it was asked. *)
Definition rec_file (args : gmap string string) (seen : option tm) : string :=
  if negb (size (at_key args "rec") =? 0)
  then at_key args "rec" +:+ at_key args "recsuffix"
  else match seen with
       | Some t => stamp_of t +:+ at_key args "recsuffix" +:+ ".rec"
       | None => ""
       end.

(** The line logged at line 86. *)
Definition attached_line (NAME : string) (bytes : nat) (file : string) : string :=
  "[opendlv-video-xyz-recorder]: Attached to '" +:+ NAME +:+ "' (" +:+ pretty bytes
  +:+ " bytes); recording data to '" +:+ file +:+ "'".

(** What [main] has learnt so far: the answer of [localtime], whether the
    [SharedMemory] object exists and a validity test has succeeded, the
    name and the size it read from the object, and whether it has logged
    the line of line 86. *)
Record Naming := mkNaming {
  seen : option tm;
  created : bool;
  attached : bool;
  area : option string;
  bytes : option nat;
  said : bool
}.

(** [localtime] is asked once and before the line is logged; the line is
    logged once, with the name and the size read and the name of the
    file; the stream is opened after that, on the name logged. *)
Definition naming_allowed (args : gmap string string) (q : Naming) (X : Type) (e : Event X)
    : Prop :=
  match e with
  | localtime _ => seen q = None /\ said q = false
  | SharedMemory_new name => name = at_key args "name" /\ created q = false
  | SharedMemory_name => created q = true
  | SharedMemory_size => attached q = true
  | clog line =>
      said q = false /\
      (negb (size (at_key args "rec") =? 0) = false -> seen q <> None) /\
      exists a n, area q = Some a /\ bytes q = Some n /\
                  line = attached_line a n (rec_file args (seen q))
  | fstream_open path => said q = true /\ path = rec_file args (seen q)
  | _ => True
  end.

Definition naming_next (q : Naming) (X : Type) (e : Event X) : X -> Naming :=
  match e in Event X return X -> Naming with
  | localtime _ => fun x =>
      mkNaming (Some x) (created q) (attached q) (area q) (bytes q) (said q)
  | SharedMemory_new _ => fun _ =>
      mkNaming (seen q) true (attached q) (area q) (bytes q) (said q)
  | SharedMemory_valid => fun x =>
      mkNaming (seen q) (created q) (attached q || x) (area q) (bytes q) (said q)
  | SharedMemory_name => fun x =>
      mkNaming (seen q) (created q) (attached q) (Some x) (bytes q) (said q)
  | SharedMemory_size => fun x =>
      if said q then q
      else mkNaming (seen q) (created q) (attached q) (area q) (Some x) (said q)
  | clog _ => fun _ =>
      mkNaming (seen q) (created q) (attached q) (area q) (bytes q) true
  | _ => fun _ => q
  end.

(** The name the command line and the clock give the recording file:
    [--rec] followed by [--recsuffix]; without [--rec], the time stamp of
    some moment, [--recsuffix] and [.rec]. *)
Definition names (args : gmap string string) (tz : Z -> tm) (file : string) : Prop :=
  if negb (size (at_key args "rec") =? 0)
  then file = at_key args "rec" +:+ at_key args "recsuffix"
  else exists secs, file = stamp_of (tz secs) +:+ at_key args "recsuffix" +:+ ".rec".

Definition naming_rel (areas : string -> option nat) (tz : Z -> tm)
    (args : gmap string string) (q : Naming) (s : Shared) (ds : list (Prog unit)) : Prop :=
  shapes ds /\ attachable s = areas /\ zone s = tz /\
  (created q = true -> sm_name s = at_key args "name") /\
  (created q = false -> sm_valid s = false) /\
  (sm_valid s = true -> areas (at_key args "name") = Some (sm_size s)) /\
  (attached q = true -> created q = true /\ areas (at_key args "name") = Some (sm_size s)) /\
  (forall a, area q = Some a -> a = at_key args "name") /\
  (forall n, bytes q = Some n -> areas (at_key args "name") = Some n) /\
  (forall t, seen q = Some t -> exists secs, t = tz secs) /\
  if said q
  then exists n, areas (at_key args "name") = Some n /\
         clog_out s = [attached_line (at_key args "name") n (rec_file args (seen q))] /\
         names args tz (rec_file args (seen q))
  else clog_out s = [].

Definition naming_view (s : Shared) :=
  (attachable s, zone s, sm_name s, sm_valid s, sm_size s, clog_out s).

(** ** The command line *)

(** The lines a program prints on [cerr] before its first call of another
    kind. *)
Fixpoint cerr_lines {A : Type} (p : Prog A) : list string :=
  match p with
  | Vis e k =>
      match e in Event X return (X -> Prog A) -> list string with
      | cerr line => fun k => line :: cerr_lines (k tt)
      | _ => fun _ => []
      end k
  | _ => []
  end.

(** The usage text of lines 39-49. *)
Definition usage_text (argv0 : string) : list string := cerr_lines (usage argv0).

(** Printing the usage text: the state is the number of lines printed. *)
Definition usage_allowed (argv0 : string) (n : nat) (X : Type) (e : Event X) : Prop :=
  match e with
  | cerr line => usage_text argv0 !! n = Some line
  | _ => False
  end.

Definition usage_next (n : nat) (X : Type) (e : Event X) : X -> nat :=
  match e in Event X return X -> nat with
  | cerr _ => fun _ => S n
  | _ => fun _ => n
  end.

Definition usage_post (argv0 : string) (c : Z) (n : nat) : Prop :=
  c = 1 /\ n = length (usage_text argv0).

Definition usage_rel (argv0 : string) (n : nat) (s : Shared) (ds : list (Prog unit)) : Prop :=
  ds = [] /\ od4_running s = false /\ cerr_out s = take n (usage_text argv0).

(** A number on the command line cannot be read (lines 77-80): the
    required arguments are there, and [std::stoi] fails on the width, on
    the height, or on a [--cid] or [--id] that is not empty. *)
Definition unreadable (args : gmap string string) : bool :=
  negb (required_missing args)
  && (bool_decide (stoi (at_key args "width") = None)
      || bool_decide (stoi (at_key args "height") = None)
      || bool_decide (configured_cid args = None)
      || bool_decide (configured_id args = None)).

(** Nothing was opened, started or logged. *)
Definition untouched (s : Shared) : Prop :=
  rec_good s = false /\ rec_disk s = [] /\ rec_buf s = [] /\ rec_mutex s = None
  /\ od4_running s = false /\ clog_out s = [] /\ acquired s = [] /\ serialized s = []
  /\ sm_locked s = false.

(** Calls that open, start and log nothing. *)
Definition harmless (X : Type) (e : Event X) : bool :=
  match e with
  | cerr _ => true
  | now => true
  | localtime _ => true
  | SharedMemory_delete => true
  | _ => false
  end.

(** Before the area is attached.  The state is [true] once a validity
    test of the area has succeeded; until then [main] makes harmless
    calls only.  It attaches to [NAME], and makes no attempt if it is to
    [stay] away from the area. *)
Definition quiet_allowed (stay : bool) (NAME : string) (q : bool) (X : Type) (e : Event X)
    : Prop :=
  match e with
  | SharedMemory_new name => name = NAME /\ stay = false
  | SharedMemory_valid => stay = false
  | _ => q = true \/ harmless X e = true
  end.

Definition quiet_next (q : bool) (X : Type) (e : Event X) : X -> bool :=
  match e in Event X return X -> bool with
  | SharedMemory_valid => fun x => q || x
  | _ => fun _ => q
  end.

Definition quiet_rel (areas : string -> option nat) (stay : bool) (NAME : string)
    (q : bool) (s : Shared) (ds : list (Prog unit)) : Prop :=
  attachable s = areas /\ shapes ds /\
  if q then stay = false /\ areas NAME <> None
  else untouched s /\ ds = [] /\ (sm_valid s = true -> stay = false /\ areas NAME <> None).

(** ** The envelopes of the session *)

(** The envelopes the session received, in the order it received them. *)
Definition received (ls : list Label) : list Envelope.t :=
  flat_map (fun l => match l with L_receive e => [e] | _ => [] end) ls.

(** Invocation [i] was started for envelope [e]: either it has not
    serialized yet and still carries [e], or [e] is on record as
    serialized by it. *)
Definition tracks (ser : list (Tid * Envelope.t)) (i : nat) (e : Envelope.t) (st : DState)
    : Prop :=
  match st with
  | D_start e' => e' = e /\ T_od4 i ∉ List.map fst ser
  | D_locked e' => e' = e /\ T_od4 i ∉ List.map fst ser
  | _ => (T_od4 i, e) ∈ ser
  end.

(** A step of an invocation that does not serialize: it goes on carrying
    its envelope, or it has serialized before. *)
Definition carries_on (st st' : DState) : Prop :=
  match st, st' with
  | D_start a, D_start b => a = b
  | D_start a, D_locked b => a = b
  | D_locked a, D_locked b => a = b
  | D_start _, _ => False
  | D_locked _, _ => False
  | _, D_start _ => False
  | _, D_locked _ => False
  | _, _ => True
  end.

(** Invocations against envelopes received: one invocation for each, and
    only envelopes received are serialized, each at most once. *)
Definition ledger (rcv : list Envelope.t) (w : World) : Prop :=
  exists sts,
    delegates w = List.map delegate_at sts /\ length sts = length rcv /\
    (forall i e st, rcv !! i = Some e -> sts !! i = Some st ->
       tracks (serialized (shared w)) i e st) /\
    (forall t e, (t, e) ∈ serialized (shared w) -> exists i, t = T_od4 i /\ rcv !! i = Some e) /\
    NoDup (List.map fst (serialized (shared w))).

(** The schedule on which invocation [i] of the delegate runs alone
    through an envelope of [n] serialized bytes: the mutex, the
    serialization, the write, the flush and the release. *)
Definition delegate_schedule (i n : nat) : list Label :=
  [L_od4 i; L_od4 i] ++ repeat (L_od4 i) (S n) ++ [L_od4 i; L_od4 i].

(** The call that closes the stream. *)
Definition is_close (X : Type) (e : Event X) : bool :=
  match e with
  | fstream_close => true
  | _ => false
  end.

(** ** What is open

    The first component is set from the construction of the
    [SharedMemory] object to its destruction, the second from the opening
    of the stream to its [close]. *)
Definition open_next (q : bool * bool) (X : Type) (e : Event X) : X -> bool * bool :=
  match e in Event X return X -> bool * bool with
  | SharedMemory_new _ => fun _ => (true, q.2)
  | SharedMemory_delete => fun _ => (false, q.2)
  | fstream_open _ => fun _ => (q.1, true)
  | fstream_close => fun _ => (q.1, false)
  | _ => fun _ => q
  end.

Definition open_post (c : Z) (q : bool * bool) : Prop := q = (false, false).

Definition open_rel (q : bool * bool) (s : Shared) (ds : list (Prog unit)) : Prop :=
  shapes ds /\ (q.1 = false -> sm_valid s = false) /\ (q.2 = false -> rec_good s = false).

(** ** A recording file that cannot be opened *)

(** The calls of the loop and of the session. *)
Definition needs_file (X : Type) (e : Event X) : bool :=
  match e with
  | isTerminated => true
  | SharedMemory_wait => true
  | SharedMemory_lock => true
  | OD4Session_new _ => true
  | OD4Session_delete => true
  | _ => false
  end.

(** The state is the answer of the last [good]; the loop and the session
    need it to be [true]. *)
Definition good_allowed (q : bool) (X : Type) (e : Event X) : Prop :=
  needs_file X e = true -> q = true.

Definition good_next (q : bool) (X : Type) (e : Event X) : X -> bool :=
  match e in Event X return X -> bool with
  | fstream_good => fun x => x
  | _ => fun _ => q
  end.

Definition good_rel (paths : string -> bool) (q : bool) (s : Shared) (ds : list (Prog unit))
    : Prop :=
  writable s = paths /\ ds = [] /\ od4_running s = false /\ rec_good s = false
  /\ rec_disk s = [] /\ rec_buf s = [] /\ q = false.

(** ** Rounds of the loop *)

(** A frame as the producer delivers it, and the time the clock shows
    when the main thread resumes. *)
Record Frame := mkFrame {
  frame_data : nat -> byte;
  frame_stamp : bool * TimeStamp;
  frame_seen : TimeStamp
}.

(** The schedule on which the main thread, alone, goes once round the
    loop for each frame: the test of the condition, the frame arriving
    while it waits, and [snapshot]. *)
Definition rounds (fs : list Frame) : list Label :=
  flat_map (fun f => [L_main; L_main; L_main]
                     ++ snapshot_schedule (frame_data f) (frame_stamp f) (frame_seen f)) fs.

(** The shared state after a round: the area and the clock are those of
    the frame. *)
Definition take_frame (f : Frame) (s : Shared) : Shared :=
  set_sm_locked false (set_clock (frame_seen f) (set_sm_frame (frame_data f) (frame_stamp f) s)).

Definition after_frames (fs : list Frame) (s : Shared) : Shared :=
  fold_left (fun s f => take_frame f s) fs s.

(** The schedule on which [main] runs alone from its start to its
    return: the command line, the way to the loop, a round for each
    frame, the termination signal, and the way out. *)
Definition whole_run (args : gmap string string) (session : bool) (fs : list Frame)
    : list Label :=
  startup args ++ repeat L_main (if session then 8 else 7)%nat ++ rounds fs
  ++ [L_signal] ++ repeat L_main (if session then 6 else 5)%nat.

(** ** More example runs *)

(** A width that is no number, an area that does not exist, and a second
    command line that differs from [demo_args] in width, height and id. *)
Definition demo_args_wide : gmap string string := <["width" := "wide"]> demo_args.

Definition demo_args_nowhere : gmap string string := <["name" := "nowhere"]> demo_args.

Definition demo_args_other : gmap string string :=
  <["width" := "1"]> (<["height" := "2"]> (<["id" := "9"]> demo_args)).

Definition demo_frames : list Frame :=
  [mkFrame (fun _ => x01) (true, mkTimeStamp 1546300800 9000) (mkTimeStamp 1546300800 10000);
   mkFrame (fun _ => x02) (false, mkTimeStamp 0 0) (mkTimeStamp 1546300800 20000)].

(** The usage text printed, the exception thrown, the attach failed. *)
Definition demo_usage : World :=
  Eval vm_compute in run_or (boot (demo_shared (fun _ => true)) "recorder" ∅)
                       (repeat L_main 11).

Definition demo_thrown : World :=
  Eval vm_compute in run_or (boot (demo_shared (fun _ => true)) "recorder" demo_args_wide)
                       [L_signal].

Definition demo_failed : World :=
  Eval vm_compute in run_or (boot (demo_shared (fun _ => true)) "recorder" demo_args_nowhere)
                       (repeat L_main 6).

(** The recorder where no file can be opened, run to its return. *)
Definition demo_unwritable : World :=
  Eval vm_compute in run_or (boot (demo_shared (fun _ => false)) "recorder" demo_args)
                       (repeat L_main 11).

(** One invocation of the delegate, not started, beside the waiting main
    thread. *)
Definition demo_invoked : World :=
  mkWorld (shared demo_waiting) (main_thread demo_waiting)
    [od4_delegate (demo_envelope [x0a; x0b])].

(** * Proofs *)

(** Walks through a program against a protocol. *)
Ltac walk :=
  repeat first
    [ progress cbn [follows bind call phase_allowed phase_next lock_allowed lock_next
                    guard_allowed guard_next exit_allowed exit_next exit_post is_wait
                    fst snd]
    | match goal with
      | |- context [0 <? 0] => change (0 <? 0) with false
      | |- _ /\ _ => split
      | |- forall _, _ => intro
      | |- True => exact I
      | |- context [match ?b with true => _ | false => _ end] => destruct b
      | |- context [match stoi ?s with _ => _ end] => destruct (stoi s)
      end
    | reflexivity | discriminate | congruence ].

(** Case analysis on the tests of a call, down to the state it leaves. *)
Ltac answer H :=
  repeat (match type of H with
          | context [if ?b then _ else _] => destruct b eqn:?
          | context [match ?o with Some _ => _ | None => _ end] => destruct o eqn:?
          end; try discriminate H);
  inversion H; subst; clear H.

(** ** Protocols and the step relation *)

Section ProtocolFacts.

Context {St : Type}.
Variable allowed : St -> forall X, Event X -> Prop.
Variable next : St -> forall X, Event X -> X -> St.
Variable calm : St -> Prop.

Lemma follows_mono {A} (p : Prog A) :
  forall q (P Q : A -> St -> Prop),
    (forall a q', P a q' -> Q a q') ->
    follows St allowed next calm q p P -> follows St allowed next calm q p Q.
Proof.
  induction p as [A a|A|A X e k IH|A c IHc b IHb k IHk]; intros q P Q HPQ; cbn.
  - apply HPQ.
  - trivial.
  - intros [Ha Hk]. split; [exact Ha|]. intros x. eapply IH; eauto.
  - intros [Hq Hc]. split; [exact Hq|].
    eapply IHc; [|exact Hc]. intros [] q' Hv; [exact Hv|].
    eapply IHk; eauto.
Qed.

Lemma follows_bind {A} (p : Prog A) :
  forall B (f : A -> Prog B) q (mid : A -> St -> Prop) (post : B -> St -> Prop),
    follows St allowed next calm q p mid ->
    (forall a q', mid a q' -> follows St allowed next calm q' (f a) post) ->
    follows St allowed next calm q (bind p f) post.
Proof.
  induction p as [A a|A|A X e k IH|A c IHc b IHb k IHk]; intros B f q mid post; cbn.
  - intros Hm Hf. apply Hf, Hm.
  - trivial.
  - intros [Ha Hk] Hf. split; [exact Ha|]. intros x. eapply IH; eauto.
  - intros [Hq Hc] Hf. split; [exact Hq|].
    eapply follows_mono; [|exact Hc]. intros [] q' Hv; [exact Hv|].
    eapply IHk; eauto.
Qed.

Lemma follows_unfold {A} (c : Prog bool) (b : Prog unit) (k : Prog A) q post :
  follows St allowed next calm q (While c b k) post ->
  follows St allowed next calm q
    (bind c (fun v : bool => if v then bind b (fun _ => While c b k) else k)) post.
Proof.
  intros H. pose proof H as [Hq Hc].
  eapply follows_bind; [exact Hc|]. intros [] q' Hv; [|exact Hv].
  eapply follows_bind; [exact Hv|]. intros _ q'' ->. exact H.
Qed.

End ProtocolFacts.

(** A relation that every kind of step preserves gives an invariant of
    the machine. *)
Section Soundness.

Variable proto_encode : ImageReading.t -> list byte.
Variable serialize : Envelope.t -> list byte.
Context {St : Type}.
Variable allowed : St -> forall X, Event X -> Prop.
Variable next : St -> forall X, Event X -> X -> St.
Variable calm : St -> Prop.
Variable post : Z -> St -> Prop.
Variable R : St -> Shared -> list (Prog unit) -> Prop.

Hypothesis R_call : forall q s ds X (e : Event X) x s',
  R q s ds -> allowed q X e -> pending_write e = None ->
  respond proto_encode serialize (forallb finished ds) T_main e s = Some (x, s') ->
  R (next q X e x) s' ds.
Hypothesis R_byte : forall q s ds X (e e' : Event X) b,
  R q s ds -> allowed q X e -> pending_write e = Some (b, e') ->
  R q (put_byte b s) ds /\ allowed q X e' /\ forall x, next q X e' x = next q X e x.
Hypothesis R_od4 : forall q s ds i p p' s',
  R q s ds -> ds !! i = Some p ->
  step_prog proto_encode serialize true (T_od4 i) p s = Some (p', s') ->
  R q s' (<[i := p']> ds).
Hypothesis R_receive : forall q s ds e,
  R q s ds -> od4_running s = true -> R q s (ds ++ [od4_delegate e]).
Hypothesis R_signal : forall q s ds, R q s ds -> R q (set_terminated true s) ds.
Hypothesis R_tick : forall q s ds t, R q s ds -> R q (set_clock t s) ds.
Hypothesis R_frame : forall q s ds d ts,
  R q s ds -> sm_valid s = true -> sm_locked s = false -> R q (set_sm_frame d ts s) ds.
Hypothesis R_wake : forall q s ds,
  R q s ds -> allowed q _ SharedMemory_wait -> R (next q _ SharedMemory_wait tt) s ds.
Hypothesis R_detach : forall q s ds, R q s ds -> R q (set_sm_valid false s) ds.

Lemma holds_step l w w' :
  holds St allowed next calm post R w ->
  step proto_encode serialize l w = Some w' ->
  holds St allowed next calm post R w'.
Proof.
  intros (q & Hp & HR) Hs. destruct w as [s p ds]. cbn [main_thread shared delegates] in *.
  destruct l; cbn in Hs.
  - destruct p as [a| |X e k|c b k]; cbn in Hs; try discriminate.
    + destruct Hp as [Ha Hk].
      destruct (pending_write e) as [[b e']|] eqn:Hpw.
      * inversion Hs; subst; clear Hs.
        destruct (R_byte _ _ _ _ _ _ _ HR Ha Hpw) as (HR' & Ha' & Hn).
        exists q. split; [|exact HR']. cbn. split; [exact Ha'|].
        intros x. rewrite Hn. apply Hk.
      * destruct (respond _ _ _ _ e s) as [[x s']|] eqn:Hr; [|discriminate].
        inversion Hs; subst; clear Hs.
        exists (next q X e x). split; [apply Hk|]. eapply R_call; eauto.
    + inversion Hs; subst; clear Hs. exists q. split; [|exact HR].
      apply follows_unfold. exact Hp.
  - destruct (ds !! i) as [pi|] eqn:Hi; [|discriminate].
    destruct (step_prog _ _ true (T_od4 i) pi s) as [[p' s']|] eqn:Hsp; [|discriminate].
    inversion Hs; subst; clear Hs. exists q. split; [exact Hp|]. eapply R_od4; eauto.
  - destruct (od4_running s) eqn:Ho; [|discriminate].
    inversion Hs; subst; clear Hs. exists q. split; [exact Hp|]. eapply R_receive; eauto.
  - inversion Hs; subst; clear Hs. exists q. split; [exact Hp|]. apply R_signal, HR.
  - inversion Hs; subst; clear Hs. exists q. split; [exact Hp|]. apply R_tick, HR.
  - destruct (sm_valid s) eqn:Hv; [|discriminate].
    destruct (sm_locked s) eqn:Hl; [discriminate|]. cbn in Hs.
    inversion Hs; subst; clear Hs.
    destruct p as [a| |X e k|c b k]; cbn;
      try (exists q; split; [exact Hp|]; apply R_frame; auto).
    destruct Hp as [Ha Hk].
    destruct e; try (exists q; split; [split; [exact Ha|exact Hk]|]; apply R_frame; auto).
    exists (next q _ SharedMemory_wait tt). split; [apply Hk|].
    apply R_frame; auto.
  - inversion Hs; subst; clear Hs. exists q. split; [exact Hp|]. apply R_detach, HR.
Qed.

Lemma holds_exec ls : forall w w',
  holds St allowed next calm post R w ->
  exec proto_encode serialize ls w = Some w' ->
  holds St allowed next calm post R w'.
Proof.
  induction ls as [|l ls IH]; intros w w' Hw He; cbn in He.
  - inversion He; subst; exact Hw.
  - destruct (step proto_encode serialize l w) as [w1|] eqn:Hs; [|discriminate].
    eapply IH; [|exact He]. eapply holds_step; eauto.
Qed.

End Soundness.

(** ** [main] follows the four protocols *)

Lemma record_phase c NAME W H CID ID F V :
  follows Phase phase_allowed phase_next (fun _ => True) (Before false)
    (record c NAME W H CID ID F V) phase_post.
Proof. unfold record, loop_condition, loop_body, snapshot, phase_post. walk. Qed.

Lemma main_phase argv0 args :
  follows Phase phase_allowed phase_next (fun _ => True) (Before false)
    (main argv0 args) phase_post.
Proof.
  unfold main.
  destruct (_ || _).
  - unfold usage, phase_post. walk.
  - unfold std_stoi.
    do 5 (eapply follows_bind with (mid := fun _ q => q = Before false);
          [ unfold getYYYYMMDD_HHMMSS; walk | intros ? ? -> ]).
    apply record_phase.
Qed.

Lemma record_lock c NAME W H CID ID F V :
  follows Lock lock_allowed lock_next lock_calm Free (record c NAME W H CID ID F V) lock_post.
Proof. unfold record, loop_condition, loop_body, snapshot, lock_post, lock_calm. walk. Qed.

Lemma main_lock argv0 args :
  follows Lock lock_allowed lock_next lock_calm Free (main argv0 args) lock_post.
Proof.
  unfold main.
  destruct (_ || _).
  - unfold usage, lock_post. walk.
  - unfold std_stoi.
    do 5 (eapply follows_bind with (mid := fun _ q => q = Free);
          [ unfold getYYYYMMDD_HHMMSS, lock_calm; walk | intros ? ? -> ]).
    apply record_lock.
Qed.

Lemma record_guard c NAME W H CID ID F V :
  follows bool guard_allowed guard_next guard_calm false
    (record c NAME W H CID ID F V) guard_post.
Proof.
  unfold record, loop_condition, loop_body, snapshot, guard_post, guard_calm, guard_allowed.
  walk.
Qed.

Lemma main_guard argv0 args :
  follows bool guard_allowed guard_next guard_calm false (main argv0 args) guard_post.
Proof.
  unfold main.
  destruct (_ || _).
  - unfold usage, guard_post, guard_allowed. walk.
  - unfold std_stoi.
    do 5 (eapply follows_bind with (mid := fun _ q => q = false);
          [ unfold getYYYYMMDD_HHMMSS, guard_calm, guard_allowed; walk | intros ? ? -> ]).
    apply record_guard.
Qed.

Lemma record_exit c NAME W H CID ID F V :
  c = 1 ->
  follows Exit (exit_allowed false NAME) exit_next (fun _ => True) Unchecked
    (record c NAME W H CID ID F V) exit_post.
Proof. intros ->. unfold record, loop_condition, loop_body, snapshot. walk. Qed.

Lemma main_exit argv0 args :
  follows Exit (exit_allowed (required_missing args) (at_key args "name")) exit_next
    (fun _ => True) Unchecked (main argv0 args) exit_post.
Proof.
  unfold main. fold (required_missing args).
  destruct (required_missing args).
  - unfold usage. walk.
  - unfold std_stoi.
    do 5 (eapply follows_bind with (mid := fun _ q => q = Unchecked);
          [ unfold getYYYYMMDD_HHMMSS; walk | intros ? ? -> ]).
    apply record_exit. reflexivity.
Qed.

Lemma record_lone c NAME W H ID F V :
  follows Phase lone_allowed phase_next (fun _ => True) (Before false)
    (record c NAME W H 0 ID F V) phase_post.
Proof.
  unfold record, loop_condition, loop_body, snapshot, phase_post, lone_allowed.
  change (0 <? 0) with false. cbn iota. walk.
Qed.

Lemma main_lone argv0 args :
  configured_cid args = Some 0 ->
  follows Phase lone_allowed phase_next (fun _ => True) (Before false)
    (main argv0 args) phase_post.
Proof.
  intros Hc. unfold main.
  destruct (_ || _).
  - unfold usage, phase_post, lone_allowed. walk.
  - unfold std_stoi.
    do 2 (eapply follows_bind with (mid := fun _ q => q = Before false);
          [ unfold lone_allowed; walk | intros ? ? -> ]).
    eapply follows_bind with (mid := fun c q => q = Before false /\ c = 0).
    { unfold configured_cid in Hc.
      destruct (negb _); [|cbn; auto].
      destruct (stoi _); cbn in Hc |- *; [|exact I].
      inversion Hc. auto. }
    intros ? ? [-> ->].
    do 2 (eapply follows_bind with (mid := fun _ q => q = Before false);
          [ unfold getYYYYMMDD_HHMMSS, lone_allowed; walk | intros ? ? -> ]).
    apply record_lone.
Qed.

(** The statements guarded by the size test are no part of the loop, and
    the verbose flag is read nowhere else. *)
Lemma loop_body_is_snapshot W H ID V : loop_body W H ID V = (snapshot;; Ret tt).
Proof. reflexivity. Qed.

Lemma main_verbose argv0 args v :
  args !! "verbose" = None ->
  main argv0 (<["verbose" := v]> args) = main argv0 args.
Proof.
  intros Hv. unfold main, count, at_key.
  rewrite !lookup_insert_ne by discriminate.
  destruct (_ || _); [reflexivity|].
  rewrite lookup_insert_eq, Hv. cbn [Z.eqb negb].
  reflexivity.
Qed.

(** ** The delegate invocations *)

Lemma lookup_delegate sts i p :
  List.map delegate_at sts !! i = Some p -> exists st, sts !! i = Some st /\ p = delegate_at st.
Proof.
  rewrite list_lookup_fmap. destruct (sts !! i) as [st|]; cbn; [|discriminate].
  intros [= <-]. eauto.
Qed.

Lemma insert_delegate sts i st :
  <[i := delegate_at st]> (List.map delegate_at sts) = List.map delegate_at (<[i := st]> sts).
Proof. symmetry. apply list_fmap_insert. Qed.

Lemma finished_delegate_at st : finished (delegate_at st) = true -> st = D_done.
Proof. destruct st; cbn; congruence. Qed.

Lemma shapes_snoc ds e : shapes ds -> shapes (ds ++ [od4_delegate e]).
Proof.
  intros (sts & ->). exists (sts ++ [D_start e]). rewrite List.map_app. reflexivity.
Qed.

Lemma shapes_nil : shapes [].
Proof. exists []. reflexivity. Qed.

Section Invariants.

Variable proto_encode : ImageReading.t -> list byte.
Variable serialize : Envelope.t -> list byte.

(** A step of a delegate invocation leaves it in [od4_delegate] and does
    not touch the environment. *)
Lemma delegate_step ds i p p' s s' :
  shapes ds -> ds !! i = Some p ->
  step_prog proto_encode serialize true (T_od4 i) p s = Some (p', s') ->
  shapes (<[i := p']> ds) /\ env_view s' = env_view s.
Proof.
  intros (sts & ->) Hi Hs.
  apply lookup_delegate in Hi. destruct Hi as (st & Hi & ->).
  assert (Hsh : forall st', shapes (<[i := delegate_at st']> (List.map delegate_at sts))).
  { intros st'. exists (<[i := st']> sts). apply insert_delegate. }
  destruct st as [e|e|rem| | |]; cbn in Hs.
  - destruct (rec_mutex s); [discriminate|]. inversion Hs; subst.
    split; [apply (Hsh (D_locked e))|reflexivity].
  - inversion Hs; subst. split; [apply (Hsh (D_writing (serialize e)))|reflexivity].
  - destruct rem as [|b rem]; cbn in Hs; inversion Hs; subst.
    + split; [apply (Hsh D_flush)|reflexivity].
    + split; [apply (Hsh (D_writing rem))|]. unfold put_byte. destruct (rec_good s); reflexivity.
  - inversion Hs; subst. split; [apply (Hsh D_release)|]. destruct (rec_good s); reflexivity.
  - inversion Hs; subst. split; [apply (Hsh D_done)|reflexivity].
  - discriminate.
Qed.

(** *** The recording file *)

Lemma writer_rel_view ph s s' ds :
  file_view s' = file_view s -> writer_rel serialize ph s ds -> writer_rel serialize ph s' ds.
Proof.
  intros Hv H. destruct s, s'. unfold file_view in Hv. cbn in Hv.
  inversion Hv; subst. exact H.
Qed.

Lemma mutex_rel_nil s :
  mutex_rel serialize s [] -> rec_mutex s = None /\ rec_buf s = [] /\
    rec_disk s = concat (appended serialize (serialized s)) /\
    acquired s = List.map fst (serialized s).
Proof.
  unfold mutex_rel. destruct (rec_mutex s) as [[|i]|].
  - tauto.
  - intros (st & Hl & _). discriminate.
  - tauto.
Qed.

Lemma mutex_rel_done s sts :
  Forall (fun st => st = D_done) sts ->
  mutex_rel serialize s sts -> rec_mutex s = None /\ rec_buf s = [] /\
    rec_disk s = concat (appended serialize (serialized s)) /\
    acquired s = List.map fst (serialized s).
Proof.
  intros Hd. unfold mutex_rel. destruct (rec_mutex s) as [[|i]|].
  - tauto.
  - intros (st & Hl & Hh & _).
    rewrite Forall_forall in Hd. apply list_elem_of_lookup_2 in Hl.
    rewrite (Hd _ Hl) in Hh. destruct Hh.
  - tauto.
Qed.

Lemma writer_call ph s ds X (e : Event X) x s' :
  writer_rel serialize ph s ds -> phase_allowed ph X e -> pending_write e = None ->
  respond proto_encode serialize (forallb finished ds) T_main e s = Some (x, s') ->
  writer_rel serialize (phase_next ph X e x) s' ds.
Proof.
  intros HR Ha _ Hr.
  destruct e; cbn in Ha, Hr |- *; try contradiction;
    try (inversion Hr; subst; clear Hr; eapply writer_rel_view; [reflexivity|exact HR]).
  all: destruct HR as (sts & -> & Hm & Hp).
  all: exists sts; split; [reflexivity|].
  - destruct (attachable s name); inversion Hr; subst; clear Hr; split; assumption.
  - destruct (sm_valid s); [discriminate|]. inversion Hr; subst. split; assumption.
  - destruct (sm_locked s); [discriminate|]. inversion Hr; subst. split; assumption.
  - destruct ph as [g| |]; try contradiction.
    destruct Hp as (Ho & -> & Hs & Hg).
    apply mutex_rel_nil in Hm. destruct Hm as (Hmx & Hb & Hd & Hacq).
    destruct (writable s path); inversion Hr; subst; clear Hr.
    + split.
      * unfold mutex_rel. cbn. rewrite Hmx. rewrite Hs. cbn. rewrite Hacq, Hs. auto.
      * cbn. repeat split; auto; discriminate.
    + split.
      * unfold mutex_rel. cbn. rewrite Hmx. cbn. rewrite Hs in *. auto.
      * cbn. repeat split; auto; discriminate.
  - inversion Hr; subst; clear Hr. split; [exact Hm|].
    destruct (rec_good s') eqn:Hg; [|exact Hp].
    destruct ph; [|exact Hp|exact Hp].
    destruct Hp as (? & ? & ? & ?). cbn. auto.
  - inversion Hr; subst; clear Hr.
    assert (Hq : rec_mutex s = None /\ rec_buf s = [] /\
              rec_disk s = concat (appended serialize (serialized s)) /\
              acquired s = List.map fst (serialized s)).
    { destruct ph as [g| |]; try contradiction.
      - destruct Hp as (_ & -> & _). apply mutex_rel_nil, Hm.
      - destruct Hp as (_ & Hd). eapply mutex_rel_done; eauto. }
    destruct Hq as (Hmx & Hb & Hd & Hacq).
    split.
    + unfold mutex_rel in *. cbn. rewrite Hmx in *. rewrite Hb, app_nil_r. tauto.
    + destruct ph as [g| |]; try contradiction; cbn in *.
      * destruct Hp as (? & ? & ? & ?). repeat split; auto; discriminate.
      * exact Hp.
  - subst ph. inversion Hr; subst; clear Hr. split; [exact Hm|].
    destruct Hp as (? & ? & ? & Hg). cbn. auto.
  - subst ph. destruct (forallb finished (List.map delegate_at sts)) eqn:Hj; [|discriminate].
    inversion Hr; subst; clear Hr. split; [exact Hm|].
    cbn. split; [reflexivity|].
    rewrite forallb_forall in Hj. rewrite Forall_forall. intros st Hst.
    apply finished_delegate_at, Hj, in_map, list_elem_of_In, Hst.
Qed.

Lemma writer_byte ph s ds X (e e' : Event X) b :
  writer_rel serialize ph s ds -> phase_allowed ph X e -> pending_write e = Some (b, e') ->
  writer_rel serialize ph (put_byte b s) ds /\ phase_allowed ph X e' /\
  forall x, phase_next ph X e' x = phase_next ph X e x.
Proof. intros _ Ha. destruct e; cbn in Ha; contradiction || discriminate. Qed.

Lemma appended_snoc l t e :
  concat (appended serialize (l ++ [(t, e)])) = concat (appended serialize l) ++ serialize e.
Proof.
  unfold appended. rewrite List.map_app, concat_app. cbn. rewrite app_nil_r. reflexivity.
Qed.

(** The invocation that is not idle is the one that holds the mutex. *)
Lemma busy_is_holder s sts i st :
  mutex_rel serialize s sts -> sts !! i = Some st -> idle st = false ->
  rec_mutex s = Some (T_od4 i) /\ holder_rel serialize i st s /\
  forall j st', j <> i -> sts !! j = Some st' -> idle st' = true.
Proof.
  unfold mutex_rel. intros Hm Hi Hb. destruct (rec_mutex s) as [[|j]|].
  - destruct Hm.
  - destruct Hm as (st' & Hj & Hh & Ho).
    destruct (decide (i = j)) as [->|Hne].
    + rewrite Hi in Hj. inversion Hj; subst. auto.
    + rewrite (Ho i st Hne Hi) in Hb. discriminate.
  - destruct Hm as (Hf & _). rewrite Forall_forall in Hf.
    apply list_elem_of_lookup_2 in Hi. rewrite (Hf _ Hi) in Hb. discriminate.
Qed.

Lemma phase_rel_busy ph s sts i st :
  phase_rel ph s sts -> sts !! i = Some st -> st <> D_done ->
  ph = Serving /\ od4_running s = true /\ rec_good s = true.
Proof.
  destruct ph as [g| |]; cbn.
  - intros (_ & -> & _) Hi. discriminate.
  - tauto.
  - intros (_ & Hd) Hi Hn. rewrite Forall_forall in Hd.
    apply list_elem_of_lookup_2 in Hi. destruct (Hn (Hd _ Hi)).
Qed.

Lemma phase_rel_insert s s' sts i st :
  od4_running s' = od4_running s -> rec_good s' = rec_good s ->
  phase_rel Serving s sts -> phase_rel Serving s' (<[i := st]> sts).
Proof. cbn. intros -> ->. tauto. Qed.

Lemma others_idle_insert (sts : list DState) i st :
  (forall j st', j <> i -> sts !! j = Some st' -> idle st' = true) ->
  forall j st', j <> i -> <[i := st]> sts !! j = Some st' -> idle st' = true.
Proof.
  intros H j st' Hne. rewrite list_lookup_insert_ne by congruence. apply H, Hne.
Qed.

Lemma writer_od4 ph s ds i p p' s' :
  writer_rel serialize ph s ds -> ds !! i = Some p ->
  step_prog proto_encode serialize true (T_od4 i) p s = Some (p', s') ->
  writer_rel serialize ph s' (<[i := p']> ds).
Proof.
  intros (sts & -> & Hm & Hp) Hi Hs.
  apply lookup_delegate in Hi. destruct Hi as (st & Hi & ->).
  assert (Hlt : (i < length sts)%nat) by (eapply lookup_lt_Some; eauto).
  destruct st as [e|e|rem| | |]; cbn in Hs.
  - destruct (rec_mutex s) as [t|] eqn:Hmx; [discriminate|].
    inversion Hs; subst; clear Hs.
    destruct (phase_rel_busy _ _ _ _ _ Hp Hi) as (-> & Ho & Hg); [discriminate|].
    exists (<[i := D_locked e]> sts). split; [apply (insert_delegate sts i (D_locked e))|].
    split; [|eapply phase_rel_insert; [| |exact Hp]; [reflexivity|cbn; congruence]].
    unfold mutex_rel in *. rewrite Hmx in Hm. cbn.
    destruct Hm as (Hf & Hb & Hd & Ha).
    exists (D_locked e). split; [apply list_lookup_insert_eq, Hlt|]. split.
    + cbn. rewrite Ha. auto.
    + apply others_idle_insert. intros j st' _ Hj.
      rewrite Forall_forall in Hf. apply Hf. eapply list_elem_of_lookup_2; eauto.
  - inversion Hs; subst; clear Hs.
    destruct (phase_rel_busy _ _ _ _ _ Hp Hi) as (-> & Ho & Hg); [discriminate|].
    destruct (busy_is_holder _ _ _ _ Hm Hi eq_refl) as (Hmx & (Hb & Hd & Ha) & Hoth).
    exists (<[i := D_writing (serialize e)]> sts).
    split; [apply (insert_delegate sts i (D_writing (serialize e)))|].
    split; [|eapply phase_rel_insert; [| |exact Hp]; [reflexivity|cbn; congruence]].
    unfold mutex_rel. cbn. rewrite Hmx.
    exists (D_writing (serialize e)). split; [apply list_lookup_insert_eq, Hlt|]. split.
    + cbn. exists (serialized s), e. rewrite Hb, List.map_app. cbn. auto.
    + apply others_idle_insert, Hoth.
  - destruct (phase_rel_busy _ _ _ _ _ Hp Hi) as (-> & Ho & Hg); [discriminate|].
    destruct (busy_is_holder _ _ _ _ Hm Hi eq_refl)
      as (Hmx & (l & e & Hse & Hd & Hb & Ha) & Hoth).
    destruct rem as [|b rem]; cbn in Hs; inversion Hs; subst; clear Hs.
    + exists (<[i := D_flush]> sts). split; [apply (insert_delegate sts i D_flush)|].
      split; [|eapply phase_rel_insert; [| |exact Hp]; [reflexivity|cbn; congruence]].
      unfold mutex_rel. rewrite Hmx.
      exists D_flush. split; [apply list_lookup_insert_eq, Hlt|]. split.
      * cbn. exists l, e. rewrite app_nil_r in Hb. auto.
      * apply others_idle_insert, Hoth.
    + exists (<[i := D_writing rem]> sts).
      split; [apply (insert_delegate sts i (D_writing rem))|].
      unfold put_byte. rewrite Hg.
      split; [|eapply phase_rel_insert; [| |exact Hp]; [reflexivity|cbn; congruence]].
      unfold mutex_rel. cbn. rewrite Hmx.
      exists (D_writing rem). split; [apply list_lookup_insert_eq, Hlt|]. split.
      * cbn. exists l, e. rewrite <- app_assoc. cbn. auto.
      * apply others_idle_insert, Hoth.
  - inversion Hs; subst; clear Hs.
    destruct (phase_rel_busy _ _ _ _ _ Hp Hi) as (-> & Ho & Hg); [discriminate|].
    destruct (busy_is_holder _ _ _ _ Hm Hi eq_refl)
      as (Hmx & (l & e & Hse & Hd & Hb & Ha) & Hoth).
    exists (<[i := D_release]> sts). split; [apply (insert_delegate sts i D_release)|].
    rewrite Hg.
    split; [|eapply phase_rel_insert; [| |exact Hp]; [reflexivity|cbn; congruence]].
    unfold mutex_rel. cbn. rewrite Hmx.
    exists D_release. split; [apply list_lookup_insert_eq, Hlt|]. split.
    + cbn -[appended]. rewrite Hd, Hb, Ha, Hse, appended_snoc. split; [eauto|auto].
    + apply others_idle_insert, Hoth.
  - inversion Hs; subst; clear Hs.
    destruct (phase_rel_busy _ _ _ _ _ Hp Hi) as (-> & Ho & Hg); [discriminate|].
    destruct (busy_is_holder _ _ _ _ Hm Hi eq_refl) as (Hmx & (_ & Hb & Hd & Ha) & Hoth).
    exists (<[i := D_done]> sts). split; [apply (insert_delegate sts i D_done)|].
    split; [|eapply phase_rel_insert; [| |exact Hp]; [reflexivity|cbn; congruence]].
    unfold mutex_rel. cbn. split; [|auto].
    rewrite Forall_forall. intros st Hst.
    apply list_elem_of_lookup_1 in Hst. destruct Hst as (j & Hj).
    destruct (decide (j = i)) as [->|Hne].
    + rewrite list_lookup_insert_eq in Hj by exact Hlt. inversion Hj; subst. reflexivity.
    + rewrite list_lookup_insert_ne in Hj by congruence. eapply Hoth; eauto.
  - discriminate.
Qed.

Lemma writer_receive ph s ds e :
  writer_rel serialize ph s ds -> od4_running s = true ->
  writer_rel serialize ph s (ds ++ [od4_delegate e]).
Proof.
  intros (sts & -> & Hm & Hp) Ho.
  exists (sts ++ [D_start e]). split; [rewrite List.map_app; reflexivity|].
  split.
  - unfold mutex_rel in *. destruct (rec_mutex s) as [[|i]|].
    + exact Hm.
    + destruct Hm as (st & Hi & Hh & Hoth). exists st.
      split; [apply lookup_app_l_Some, Hi|]. split; [exact Hh|].
      intros j st' Hne Hj. apply lookup_app_Some in Hj.
      destruct Hj as [Hj|(_ & Hj)]; [eapply Hoth; eauto|].
      apply list_lookup_singleton_Some in Hj. destruct Hj as (_ & <-). reflexivity.
    + destruct Hm as (Hf & Hrest). split; [|exact Hrest].
      apply Forall_app. split; [exact Hf|]. constructor; [reflexivity|constructor].
  - destruct ph as [g| |]; cbn in *.
    + destruct Hp as (Hf & _). congruence.
    + exact Hp.
    + destruct Hp as (Hf & _). congruence.
Qed.

Lemma writer_reachable areas paths tz t0 d0 ts0 argv0 args ls w :
  exec proto_encode serialize ls (boot (power_on areas paths tz t0 d0 ts0) argv0 args) = Some w ->
  writer_inv serialize w.
Proof.
  apply (holds_exec proto_encode serialize phase_allowed phase_next (fun _ => True)
           phase_post (writer_rel serialize)).
  - apply writer_call.
  - apply writer_byte.
  - apply writer_od4.
  - apply writer_receive.
  - intros. eapply writer_rel_view; [reflexivity|eassumption].
  - intros. eapply writer_rel_view; [reflexivity|eassumption].
  - intros. eapply writer_rel_view; [reflexivity|eassumption].
  - intros. assumption.
  - intros. eapply writer_rel_view; [reflexivity|eassumption].
  - exists (Before false). split; [apply main_phase|].
    exists []. cbn. repeat split; auto; discriminate.
Qed.

(** What a step of the main thread leaves alone. *)
Lemma main_step_file ph (p p' : Prog Z) s s' ds post :
  follows Phase phase_allowed phase_next (fun _ => True) ph p post ->
  writer_rel serialize ph s ds ->
  step_prog proto_encode serialize (forallb finished ds) T_main p s = Some (p', s') ->
  rec_disk s' = rec_disk s /\ rec_buf s' = rec_buf s /\
  serialized s' = serialized s /\ acquired s' = acquired s /\ rec_mutex s' = rec_mutex s.
Proof.
  intros Hp (sts & -> & Hm & Hph) Hs.
  destruct p as [a| |X e k|c b k]; cbn in Hs; try discriminate.
  2: { inversion Hs; subst. auto. }
  destruct Hp as [Ha _].
  destruct e; cbn in Ha, Hs; try contradiction;
    try (inversion Hs; subst; clear Hs; cbn; auto; fail).
  - destruct (attachable s name); inversion Hs; subst; cbn; auto.
  - destruct (sm_valid s); [discriminate|]. inversion Hs; subst; auto.
  - destruct (sm_locked s); [discriminate|]. inversion Hs; subst; cbn; auto.
  - destruct ph as [g| |]; try contradiction.
    destruct Hph as (Ho & -> & Hse & Hg).
    apply mutex_rel_nil in Hm. destruct Hm as (Hmx & Hb & Hd & Hacq).
    rewrite Hse in Hd. cbn in Hd.
    destruct (writable s path); inversion Hs; subst; cbn; auto.
  - inversion Hs; subst; clear Hs; cbn.
    assert (Hq : rec_buf s = []).
    { destruct ph as [g| |]; try contradiction.
      - destruct Hph as (_ & -> & _). apply mutex_rel_nil in Hm. tauto.
      - destruct Hph as (_ & Hd). eapply mutex_rel_done in Hm; eauto. tauto. }
    rewrite Hq, app_nil_r. auto.
  - destruct (forallb _ _); [|discriminate]. inversion Hs; subst; cbn; auto.
Qed.

(** When [main] has returned, no append is in progress. *)
Lemma flushed_at_return areas paths tz t0 d0 ts0 argv0 args ls w :
  exec proto_encode serialize ls (boot (power_on areas paths tz t0 d0 ts0) argv0 args) = Some w ->
  rec_mutex (shared w) <> Some T_main /\
  forall c, main_thread w = Ret c ->
    rec_mutex (shared w) = None /\ rec_buf (shared w) = [] /\
    rec_disk (shared w) = concat (appended serialize (serialized (shared w))).
Proof.
  intros He. apply writer_reachable in He.
  destruct He as (ph & Hp & sts & _ & Hm & Hph). split.
  - unfold mutex_rel in Hm. intros Hx. rewrite Hx in Hm. exact Hm.
  - intros c Hc. rewrite Hc in Hp. cbn in Hp. unfold phase_post in Hp.
    destruct ph as [g| |]; [| congruence |].
    + destruct Hph as (_ & -> & _). apply mutex_rel_nil in Hm. tauto.
    + destruct Hph as (_ & Hd). eapply mutex_rel_done in Hm; eauto. tauto.
Qed.

(** *** Without a session *)

Lemma lone_reachable areas paths tz t0 d0 ts0 argv0 args ls w :
  configured_cid args = Some 0 ->
  exec proto_encode serialize ls (boot (power_on areas paths tz t0 d0 ts0) argv0 args) = Some w ->
  holds Phase lone_allowed phase_next (fun _ => True) phase_post (lone_rel serialize) w.
Proof.
  intros Hc.
  apply (holds_exec proto_encode serialize lone_allowed phase_next (fun _ => True)
           phase_post (lone_rel serialize)).
  - intros q s ds X e x s' (HR & g & ->) (Ha & Hn) Hp Hr. split.
    + eapply writer_call; eauto.
    + destruct e; cbn in Hn |- *; try discriminate Hn; eauto.
      destruct x; eauto.
  - intros q s ds X e e' b (HR & Hg) (Ha & Hn) Hp.
    destruct (writer_byte _ _ _ _ _ _ _ HR Ha Hp) as (H1 & H2 & H3).
    split; [split; assumption|]. split; [|exact H3].
    split; [exact H2|]. destruct e; try discriminate Hp.
    destruct d; [discriminate Hp|]. cbn in Hp. inversion Hp; subst. reflexivity.
  - intros q s ds i p p' s' (HR & Hg) Hi Hs. split; [|exact Hg]. eapply writer_od4; eauto.
  - intros q s ds e (HR & Hg) Ho. split; [|exact Hg]. eapply writer_receive; eauto.
  - intros q s ds (HR & Hg). split; [|exact Hg].
    eapply writer_rel_view; [reflexivity|eassumption].
  - intros q s ds t (HR & Hg). split; [|exact Hg].
    eapply writer_rel_view; [reflexivity|eassumption].
  - intros q s ds d ts (HR & Hg) _ _. split; [|exact Hg].
    eapply writer_rel_view; [reflexivity|eassumption].
  - intros q s ds H _. exact H.
  - intros q s ds (HR & Hg). split; [|exact Hg].
    eapply writer_rel_view; [reflexivity|eassumption].
  - exists (Before false). split; [apply main_lone, Hc|]. split; [|eauto].
    exists []. cbn. repeat split; auto; discriminate.
Qed.

(** Without a session nothing is ever recorded, whatever frames arrive:
    the file and the stream buffer stay empty and no envelope is
    serialized. *)
Lemma without_session_nothing_is_recorded areas paths tz t0 d0 ts0 argv0 args ls w :
  configured_cid args = Some 0 ->
  exec proto_encode serialize ls (boot (power_on areas paths tz t0 d0 ts0) argv0 args) = Some w ->
  rec_disk (shared w) = [] /\ rec_buf (shared w) = [] /\ serialized (shared w) = [] /\
  delegates w = [].
Proof.
  intros Hc He. destruct (lone_reachable _ _ _ _ _ _ _ _ _ _ Hc He)
    as (ph & _ & (sts & Hds & Hm & Hp) & g & ->).
  destruct Hp as (_ & -> & Hs & _).
  apply mutex_rel_nil in Hm. destruct Hm as (_ & Hb & Hd & _).
  rewrite Hs in Hd. cbn in Hd, Hds. auto.
Qed.

(** *** The lock of the area, the termination flag, the exit status *)

Lemma lock_reachable areas paths tz t0 d0 ts0 argv0 args ls w :
  exec proto_encode serialize ls (boot (power_on areas paths tz t0 d0 ts0) argv0 args) = Some w ->
  holds Lock lock_allowed lock_next lock_calm lock_post lock_rel w.
Proof.
  apply (holds_exec proto_encode serialize lock_allowed lock_next lock_calm lock_post lock_rel).
  - intros q s ds X e x s' (Hl & Hsh) Ha _ Hr. split; [|exact Hsh].
    destruct e; cbn in Ha, Hr |- *; answer Hr; cbn; try rewrite Hl;
      solve [ reflexivity | destruct q; congruence
            | destruct (rec_good _); cbn; destruct q; congruence ].
  - intros q s ds X e e' b (Hl & Hsh) Ha Hp.
    destruct e; try discriminate. destruct d as [|b' d]; [discriminate|].
    cbn in Hp. inversion Hp; subst. cbn in Ha |- *.
    split; [|auto]. split; [|exact Hsh].
    unfold put_byte. destruct (rec_good s); exact Hl.
  - intros q s ds i p p' s' (Hl & Hsh) Hi Hs.
    destruct (delegate_step _ _ _ _ _ _ Hsh Hi Hs) as (Hsh' & Hv).
    split; [|exact Hsh']. unfold env_view in Hv. inversion Hv. congruence.
  - intros q s ds e (Hl & Hsh) _. split; [exact Hl|apply shapes_snoc, Hsh].
  - intros q s ds (Hl & Hsh). split; [exact Hl|exact Hsh].
  - intros q s ds t (Hl & Hsh). split; [exact Hl|exact Hsh].
  - intros q s ds d ts (Hl & Hsh) _ _. split; [exact Hl|exact Hsh].
  - intros q s ds H _. exact H.
  - intros q s ds (Hl & Hsh). split; [exact Hl|exact Hsh].
  - exists Free. split; [apply main_lock|]. split; [reflexivity|apply shapes_nil].
Qed.

Lemma guard_reachable areas paths tz t0 d0 ts0 argv0 args ls w :
  exec proto_encode serialize ls (boot (power_on areas paths tz t0 d0 ts0) argv0 args) = Some w ->
  holds bool guard_allowed guard_next guard_calm guard_post guard_rel w.
Proof.
  apply (holds_exec proto_encode serialize guard_allowed guard_next guard_calm guard_post
           guard_rel);
    try (intros; exact I).
  - intros q s ds X e e' b _ Ha Hp. split; [exact I|].
    destruct e; try discriminate. destruct d as [|b' d]; [discriminate|].
    cbn in Hp. inversion Hp; subst. split; [|reflexivity]. intros Hw. discriminate Hw.
  - exists false. split; [apply main_guard|exact I].
Qed.

Lemma exit_reachable areas paths tz t0 d0 ts0 argv0 args ls w :
  exec proto_encode serialize ls (boot (power_on areas paths tz t0 d0 ts0) argv0 args) = Some w ->
  holds Exit (exit_allowed (required_missing args) (at_key args "name")) exit_next
    (fun _ => True) exit_post
    (exit_rel areas (required_missing args) (at_key args "name")) w.
Proof.
  set (m := required_missing args). set (NAME := at_key args "name").
  apply (holds_exec proto_encode serialize (exit_allowed m NAME) exit_next (fun _ => True)
           exit_post (exit_rel areas m NAME)).
  - intros q s ds X e x s' (Hsh & Hat & Hq) Ha _ Hr.
    destruct e; cbn in Ha, Hr |- *; answer Hr; cbn;
      (split; [exact Hsh|split; [first [reflexivity|assumption]|]]).
    all: try (destruct q; cbn in *; try tauto; try congruence; fail).
    + destruct q; cbn in *; try tauto; try congruence.
      destruct Hq as (? & ->). subst. auto.
    + destruct Ha as (-> & ->). cbn. split; [tauto|]. intros _. congruence.
    + destruct Ha as (-> & ->). cbn. split; [tauto|]. discriminate.
    + destruct Ha as (Hnf & Hm). destruct q; cbn in *; try tauto.
      destruct (sm_valid s') eqn:Hv; cbn; intuition.
    + destruct q; cbn in *; try tauto. split; [tauto|discriminate].
  - intros q s ds X e e' b (Hsh & Hat & Hq) Ha Hp.
    destruct e; try discriminate. destruct d as [|b' d]; [discriminate|].
    cbn in Hp. inversion Hp; subst. cbn in Ha |- *.
    split; [|auto]. split; [exact Hsh|].
    unfold put_byte. destruct (rec_good s); cbn;
      (split; [first [reflexivity|assumption]|destruct q; exact Hq]).
  - intros q s ds i p p' s' (Hsh & Hat & Hq) Hi Hs.
    destruct (delegate_step _ _ _ _ _ _ Hsh Hi Hs) as (Hsh' & Hv).
    unfold env_view in Hv. inversion Hv as [[Hv1 Hv2 Hv3 Hv4 Hv5]].
    split; [exact Hsh'|split; [congruence|]].
    destruct q; rewrite ?Hv1, ?Hv2, ?Hv5; exact Hq.
  - intros q s ds e (Hsh & Hat & Hq) _.
    split; [apply shapes_snoc, Hsh|split; [exact Hat|exact Hq]].
  - intros q s ds (Hsh & Hat & Hq). split; [exact Hsh|split; [exact Hat|]]. destruct q; exact Hq.
  - intros q s ds t (Hsh & Hat & Hq). split; [exact Hsh|split; [exact Hat|]]. destruct q; exact Hq.
  - intros q s ds d ts (Hsh & Hat & Hq) _ _.
    split; [exact Hsh|split; [exact Hat|]]. destruct q; exact Hq.
  - intros q s ds H _. exact H.
  - intros q s ds (Hsh & Hat & Hq). split; [exact Hsh|split; [exact Hat|]].
    destruct q; cbn in *; try tauto. split; [tauto|discriminate].
  - exists Unchecked. split; [apply main_exit|].
    split; [apply shapes_nil|]. cbn. split; [reflexivity|]. split; [reflexivity|discriminate].
Qed.

Lemma head_bind {A B} class (p : Prog A) (f : A -> Prog B) :
  finished p = false -> head class (bind p f) = head class p.
Proof. destruct p; cbn; congruence. Qed.

Lemma waiting_needs_guard {A} g (p : Prog A) post :
  follows bool guard_allowed guard_next guard_calm g p post ->
  head is_wait p = true -> g = true.
Proof.
  destruct p as [a| |X e k|c b k]; cbn; try discriminate.
  intros [Ha _] Hw. apply Ha, Hw.
Qed.

(** The flag never goes back, and the main thread starts to wait only by
    a test of the flag that finds it unset. *)
Lemma no_wait_once_terminated areas paths tz t0 d0 ts0 argv0 args ls w :
  exec proto_encode serialize ls (boot (power_on areas paths tz t0 d0 ts0) argv0 args) = Some w ->
  forall l w', step proto_encode serialize l w = Some w' ->
    (terminated (shared w) = true -> terminated (shared w') = true)
    /\ (head is_wait (main_thread w') = true ->
        head is_wait (main_thread w) = false ->
        l = L_main /\ head is_flag_test (main_thread w) = true /\
        terminated (shared w) = false).
Proof.
  intros He l w' Hs. split.
  - intros Ht. destruct w as [s p ds]. cbn [shared] in *.
    destruct l; cbn in Hs.
    + destruct p as [a| |X e k|c b k]; cbn in Hs; try discriminate.
      * destruct (pending_write e) as [[b e']|].
        { inversion Hs; subst. cbn. unfold put_byte. destruct (rec_good s); exact Ht. }
        destruct (respond _ _ _ _ e s) as [[x s']|] eqn:Hr; [|discriminate].
        inversion Hs; subst; clear Hs. cbn.
        destruct e; cbn in Hr; answer Hr; cbn; exact Ht.
      * inversion Hs; subst. exact Ht.
    + destruct (ds !! i) as [pi|] eqn:Hi; [|discriminate].
      destruct (step_prog _ _ true (T_od4 i) pi s) as [[p' s']|] eqn:Hsp; [|discriminate].
      inversion Hs; subst; clear Hs. cbn.
      apply lock_reachable in He. destruct He as (q & _ & _ & Hsh).
      destruct (delegate_step _ _ _ _ _ _ Hsh Hi Hsp) as (_ & Hv).
      unfold env_view in Hv. inversion Hv. congruence.
    + destruct (od4_running s); inversion Hs; subst. exact Ht.
    + inversion Hs; subst. reflexivity.
    + inversion Hs; subst. exact Ht.
    + destruct (_ && _); inversion Hs; subst. exact Ht.
    + inversion Hs; subst. exact Ht.
  - intros Hw' Hw. apply guard_reachable in He. destruct He as (g & Hp & _).
    destruct w as [s p ds]. cbn [shared main_thread] in *.
    destruct l; cbn in Hs.
    + destruct p as [a| |X e k|c b k]; cbn in Hs; try discriminate.
      * destruct Hp as [Ha Hk].
        destruct (pending_write e) as [[b e']|] eqn:Hpw.
        { inversion Hs; subst. cbn in Hw'.
          destruct e; try discriminate Hpw. destruct d; [discriminate Hpw|].
          cbn in Hpw. inversion Hpw; subst. discriminate Hw'. }
        destruct (respond _ _ _ _ e s) as [[x s']|] eqn:Hr; [|discriminate].
        inversion Hs; subst; clear Hs. cbn in Hw'.
        pose proof (waiting_needs_guard _ _ _ (Hk x) Hw') as Hg.
        destruct e; cbn in Hg; try discriminate Hg.
        cbn in Hr. injection Hr as Hx Hs'. subst x s'. cbn.
        split; [reflexivity|]. split; [reflexivity|].
        destruct (terminated s); [discriminate Hg|reflexivity].
      * inversion Hs; subst; clear Hs. cbn in Hw'.
        destruct Hp as [Hc Hp]. unfold guard_calm in Hc. subst g.
        assert (Hf : finished c = false \/ exists v, c = Ret v).
        { destruct c; cbn; eauto. }
        destruct Hf as [Hf|[v ->]].
        -- rewrite head_bind in Hw' by exact Hf.
           pose proof (waiting_needs_guard _ _ _ Hp Hw'). discriminate.
        -- cbn in Hw', Hp. destruct v.
           ++ destruct b as [[]| |X e kb|cb bb kb]; cbn in Hw', Hp; try discriminate.
              destruct Hp as [Ha _]. specialize (Ha Hw'). discriminate.
           ++ destruct k as [a| |X e kb|cb bb kb]; cbn in Hw', Hp; try discriminate.
              destruct Hp as [Ha _]. specialize (Ha Hw'). discriminate.
    + destruct (ds !! i) as [pi|]; [|discriminate].
      destruct (step_prog _ _ true (T_od4 i) pi s) as [[p' s']|]; [|discriminate].
      inversion Hs; subst. cbn in Hw'. congruence.
    + destruct (od4_running s); inversion Hs; subst. cbn in Hw'. congruence.
    + inversion Hs; subst. cbn in Hw'. congruence.
    + inversion Hs; subst. cbn in Hw'. congruence.
    + destruct (_ && _); inversion Hs; subst. cbn in Hw'.
      destruct p as [a| |X e k|c b k]; cbn in Hw', Hw; try congruence.
      destruct Hp as [Ha Hk].
      destruct e; cbn in Hw, Hw'; congruence.
    + inversion Hs; subst. cbn in Hw'. congruence.
Qed.

(** Only the test of the flag reads the flag. *)
Lemma flag_only_read_by_test b w :
  head is_flag_test (main_thread w) = false ->
  step proto_encode serialize L_main (with_flag b w)
  = option_map (with_flag b) (step proto_encode serialize L_main w).
Proof.
  destruct w as [s p ds]. intros Hh.
  destruct p as [a| |X e k|c bd k]; cbn; try reflexivity.
  destruct (pending_write e) as [[y e']|] eqn:Hpw.
  - cbn. unfold with_flag, put_byte. cbn. destruct (rec_good s); reflexivity.
  - destruct e; cbn in Hh |- *; try discriminate Hh; try reflexivity;
      repeat match goal with
             | |- context [attachable ?s ?n] => destruct (attachable s n)
             | |- context [writable ?s ?n] => destruct (writable s n)
             | |- context [sm_valid ?s] => destruct (sm_valid s)
             | |- context [sm_locked ?s] => destruct (sm_locked s)
             | |- context [rec_good ?s] => destruct (rec_good s)
             | |- context [rec_mutex ?s] => destruct (rec_mutex s)
             | |- context [forallb ?f ?l] => destruct (forallb f l)
             end; reflexivity.
Qed.

(** ** Runs of the main thread alone *)

Lemma exec_app l1 l2 w :
  exec proto_encode serialize (l1 ++ l2) w
  = match exec proto_encode serialize l1 w with
    | Some w' => exec proto_encode serialize l2 w'
    | None => None
    end.
Proof.
  revert w. induction l1 as [|l l1 IH]; intros w; cbn; [reflexivity|].
  destruct (step proto_encode serialize l w); [apply IH|reflexivity].
Qed.

(** A [write] of [d] by the main thread alone: one step per byte and one
    to return. *)
Lemma write_run (d : list byte) : forall (k : unit -> Prog Z) s ds,
  rec_good s = true ->
  exec proto_encode serialize (repeat L_main (S (length d)))
    (mkWorld s (Vis (fstream_write d) k) ds)
  = Some (mkWorld (set_rec true (rec_disk s) (rec_buf s ++ d) s) (k tt) ds).
Proof.
  induction d as [|b d IH]; intros k s ds Hg.
  - cbn. rewrite app_nil_r. destruct s; cbn in *. subst. reflexivity.
  - change (repeat L_main (S (length (b :: d)))) with (L_main :: repeat L_main (S (length d))).
    cbn [exec step step_prog pending_write main_thread shared delegates].
    unfold put_byte. rewrite Hg.
    rewrite IH by reflexivity. cbn. rewrite <- app_assoc. reflexivity.
Qed.

Lemma save_frame_run W H ID V sts data (K : unit -> Prog Z) s ds t :
  rec_mutex s = None -> rec_good s = true ->
  let e := frame_envelope proto_encode W H ID sts t data in
  exists s',
    exec proto_encode serialize (save_schedule t V (length (serialize e)))
      (mkWorld s (bind (save_frame W H ID V sts data) K) ds)
    = Some (mkWorld s' (K tt) ds)
    /\ serialized s' = serialized s ++ [(T_main, e)]
    /\ acquired s' = acquired s ++ [T_main]
    /\ rec_disk s' = rec_disk s ++ rec_buf s ++ serialize e
    /\ rec_buf s' = [] /\ rec_mutex s' = None.
Proof.
  intros Hm Hg e. subst e. unfold save_schedule, frame_envelope.
  rewrite exec_app.
  cbn [exec step step_prog pending_write main_thread shared delegates
       save_frame bind call respond set_clock rec_mutex].
  rewrite Hm. cbn -[repeat].
  unfold Envelope.set_senderStamp, Envelope.set_sampleTimeStamp, Envelope.set_sent,
    Envelope.set_serializedData, Envelope.set_dataType, Envelope.empty,
    ImageReading.set_data, ImageReading.set_height, ImageReading.set_width,
    ImageReading.set_fourcc, ImageReading.empty.
  cbn -[repeat].
  rewrite exec_app, write_run by (cbn; exact Hg).
  destruct V; cbn; rewrite ?Hg; eexists; (split; [reflexivity|]); cbn;
    rewrite ?app_assoc; auto.
Qed.

Lemma snapshot_run (K : TimeStamp * list byte -> Prog Z) s ds d ts t :
  sm_valid s = true -> sm_locked s = false ->
  exec proto_encode serialize (snapshot_schedule d ts t) (mkWorld s (bind snapshot K) ds)
  = Some (mkWorld (set_sm_locked false (set_clock t (set_sm_frame d ts s)))
            (K (if ts.1 then ts.2 else t, List.map d (List.seq 0 (sm_size s)))) ds).
Proof.
  intros Hv Hl. unfold snapshot_schedule.
  repeat (progress (cbn; rewrite ?Hv, ?Hl)). reflexivity.
Qed.

(** * The claims *)

(** C2.  At every state the recorder can reach, a step of the main thread
    leaves the recording file as it was: the bytes in the file, the bytes
    in the stream buffer, the envelopes serialized so far and the mutex
    history are unchanged.  The reason is the first part: [totalSize] is
    zero at the test of line 121, so the loop body is [snapshot] followed
    by nothing, whatever the width, the height, the id and the verbose
    flag. *)
Theorem size_check_never_passes areas paths tz t0 d0 ts0 argv0 args ls w :
  exec proto_encode serialize ls (boot (power_on areas paths tz t0 d0 ts0) argv0 args) = Some w ->
  (forall W H ID V, loop_body W H ID V = (snapshot;; Ret tt))
  /\ (forall w', step proto_encode serialize L_main w = Some w' ->
        rec_disk (shared w') = rec_disk (shared w) /\
        rec_buf (shared w') = rec_buf (shared w) /\
        serialized (shared w') = serialized (shared w) /\
        acquired (shared w') = acquired (shared w)).
Proof.
  intros He. split; [reflexivity|]. intros w' Hs.
  apply writer_reachable in He. destruct He as (ph & Hp & Hr).
  destruct w as [s p ds]. cbn [shared main_thread delegates] in *. cbn in Hs.
  destruct (step_prog _ _ _ T_main p s) as [[p' s']|] eqn:Hsp; [|discriminate].
  inversion Hs; subst; clear Hs. cbn [shared].
  destruct (main_step_file _ _ _ _ _ _ _ Hp Hr Hsp) as (? & ? & ? & ? & _). auto.
Qed.

(** With the required arguments present and the numbers readable, [main]
    is [record] at the values read. *)
Lemma main_parsed argv0 args w h cid id :
  required_missing args = false ->
  stoi (at_key args "width") = Some w ->
  stoi (at_key args "height") = Some h ->
  configured_cid args = Some cid ->
  configured_id args = Some id ->
  main argv0 args =
  (NAME_RECFILE <-
     (if negb (size (at_key args "rec") =? 0)
      then Ret (at_key args "rec" +:+ at_key args "recsuffix")
      else (stamp <- getYYYYMMDD_HHMMSS;; Ret (stamp +:+ at_key args "recsuffix" +:+ ".rec")));;
   record 1 (at_key args "name") (uint32 w) (uint32 h) cid id NAME_RECFILE
     (negb (count args "verbose" =? 0))).
Proof.
  intros Hm Hw Hh Hc Hi. unfold main. fold (required_missing args). rewrite Hm.
  unfold std_stoi. rewrite Hw, Hh. cbn [bind].
  unfold configured_cid in Hc. unfold configured_id in Hi.
  destruct (negb (size (at_key args "cid") =? 0)).
  - destruct (stoi (at_key args "cid")); [|discriminate]. cbn in Hc. inversion Hc; subst.
    cbn [bind].
    destruct (negb (size (at_key args "id") =? 0)).
    + destruct (stoi (at_key args "id")); [|discriminate]. cbn in Hi. inversion Hi; subst.
      reflexivity.
    + inversion Hi; subst. reflexivity.
  - inversion Hc; subst. cbn [bind].
    destruct (negb (size (at_key args "id") =? 0)).
    + destruct (stoi (at_key args "id")); [|discriminate]. cbn in Hi. inversion Hi; subst.
      reflexivity.
    + inversion Hi; subst. reflexivity.
Qed.

(** [main] does return.  Left to run alone it fails to attach and returns
    1 if the area does not exist; it returns 0 if the area exists and the
    recording file cannot be opened; and if the file can be opened, it
    returns 0 once the termination flag is set. *)
Lemma main_returns areas paths tz t0 d0 ts0 argv0 args w h cid id :
  required_missing args = false ->
  stoi (at_key args "width") = Some w ->
  stoi (at_key args "height") = Some h ->
  configured_cid args = Some cid ->
  configured_id args = Some id ->
  (areas (at_key args "name") = None ->
   exists w', exec proto_encode serialize (startup args ++ repeat L_main 4)
                (boot (power_on areas paths tz t0 d0 ts0) argv0 args) = Some w'
              /\ main_thread w' = Ret 1)
  /\ (areas (at_key args "name") <> None -> (forall p, paths p = false) ->
      exists w', exec proto_encode serialize (startup args ++ repeat L_main 9)
                   (boot (power_on areas paths tz t0 d0 ts0) argv0 args) = Some w'
                 /\ main_thread w' = Ret 0)
  /\ (areas (at_key args "name") <> None -> (forall p, paths p = true) ->
      exists w', exec proto_encode serialize
                   (startup args ++ repeat L_main (if 0 <? cid then 8%nat else 7%nat)
                    ++ [L_signal] ++ repeat L_main (if 0 <? cid then 6%nat else 5%nat))
                   (boot (power_on areas paths tz t0 d0 ts0) argv0 args) = Some w'
                 /\ main_thread w' = Ret 0).
Proof.
  intros Hm Hw Hh Hc Hi. unfold boot, startup.
  rewrite (main_parsed argv0 args w h cid id Hm Hw Hh Hc Hi).
  split; [|split].
  - intros Ha.
    destruct (negb (size (at_key args "rec") =? 0)); cbn; rewrite Ha; cbn;
      eexists; split; reflexivity.
  - intros Ha Hp. destruct (areas (at_key args "name")) as [n|] eqn:Hn; [|congruence].
    destruct (negb (size (at_key args "rec") =? 0)); cbn; rewrite Hn; cbn;
      rewrite Hp; cbn; eexists; split; reflexivity.
  - intros Ha Hp. destruct (areas (at_key args "name")) as [n|] eqn:Hn; [|congruence].
    unfold record.
    destruct (negb (size (at_key args "rec") =? 0)); destruct (0 <? cid);
      cbn; rewrite Hn; cbn; rewrite Hp; cbn; eexists; split; reflexivity.
Qed.

(** With a required argument missing it prints the usage and returns 1. *)
Lemma usage_returns areas paths tz t0 d0 ts0 argv0 args :
  required_missing args = true ->
  exists w', exec proto_encode serialize (repeat L_main 11)
               (boot (power_on areas paths tz t0 d0 ts0) argv0 args) = Some w'
             /\ main_thread w' = Ret 1.
Proof.
  intros Hm. unfold boot, main. fold (required_missing args). rewrite Hm.
  cbn. eexists; split; reflexivity.
Qed.
(** [std::stoi] failing on the width leaves [main] by an exception, not by
    a [return]. *)
Lemma main_throws argv0 args :
  required_missing args = false ->
  stoi (at_key args "width") = None ->
  main argv0 args = Throw.
Proof.
  intros Hm Hw. unfold main. fold (required_missing args). rewrite Hm.
  unfold std_stoi. rewrite Hw. reflexivity.
Qed.

(** C3, as amended.  When [main] returns, the exit status is 1 if a
    required argument ([--name], [--width], [--height]) is missing;
    otherwise it is 1 exactly when the validity test after attaching to
    the area failed, in which case the failure was reported on [cerr], and
    0 in every other run: nothing was reported, and the area exists.
    Whether the recording file could be opened, and how the loop ended,
    does not enter. *)
Theorem exit_status areas paths tz t0 d0 ts0 argv0 args ls w c :
  exec proto_encode serialize ls (boot (power_on areas paths tz t0 d0 ts0) argv0 args) = Some w ->
  main_thread w = Ret c ->
  (required_missing args = true -> c = 1)
  /\ (required_missing args = false ->
      (c = 1 /\ cerr_out (shared w) = [failed_to_attach (at_key args "name")])
      \/ (c = 0 /\ cerr_out (shared w) = [] /\ areas (at_key args "name") <> None)).
Proof.
  intros He Hc. apply exit_reachable in He. destruct He as (q & Hp & _ & Hat & Hq).
  rewrite Hc in Hp. cbn in Hp. rewrite Hat in Hq.
  destruct q; cbn in Hp, Hq; try contradiction.
  - destruct Hq as (Hm & Ho & Ha). split; [congruence|]. intros _. right. auto.
  - destruct Hq as (Hm & Ho). split; [congruence|]. intros _. left. auto.
  - split; [auto|]. congruence.
Qed.


(** C5.  Run by the main thread with the file mutex free and the stream
    good, [save_frame] serializes one envelope and appends its bytes to the
    file; in that envelope [dataType] is the id of [ImageReading],
    [serializedData] is the encoding of the [ImageReading] with format
    ["xyz"], the configured width and height and the given bytes,
    [senderStamp] is the configured id, [sampleTimeStamp] is the given
    sample time stamp, and [sent] is the time the clock shows when the
    envelope is built. *)
Theorem envelope_is_fully_populated W H ID V sampleTimeStamp data
    (K : unit -> Prog Z) s ds t :
  rec_mutex s = None -> rec_good s = true ->
  exists s' e,
    exec proto_encode serialize (save_schedule t V (length (serialize e)))
      (mkWorld s (bind (save_frame W H ID V sampleTimeStamp data) K) ds)
    = Some (mkWorld s' (K tt) ds)
    /\ serialized s' = serialized s ++ [(T_main, e)]
    /\ rec_disk s' = rec_disk s ++ rec_buf s ++ serialize e
    /\ Envelope.dataType e = ImageReading.ID
    /\ Envelope.serializedData e
       = proto_encode {| ImageReading.fourcc := "xyz"; ImageReading.width := W;
                         ImageReading.height := H; ImageReading.data := data |}
    /\ Envelope.senderStamp e = ID
    /\ Envelope.sampleTimeStamp e = sampleTimeStamp
    /\ Envelope.sent e = t.
Proof.
  intros Hm Hg.
  destruct (save_frame_run W H ID V sampleTimeStamp data K s ds t Hm Hg)
    as (s1 & H1 & Hs1 & _ & Hd1 & _).
  exists s1. eexists. split; [exact H1|]. repeat split; assumption.
Qed.

(** C6.  At every state the recorder can reach: when the file mutex is
    free, the stream buffer is empty and the file is the concatenation of
    the serialized envelopes, whole, in the order they were serialized;
    when a thread holds the mutex, it is the last that acquired it, and
    the file and the buffer hold the envelopes serialized before, whole,
    followed by a prefix of the holder's own; and envelopes are serialized
    in the order in which their threads acquired the mutex, one for each
    acquisition.  While the mutex is held, no thread can acquire it. *)
Theorem appends_do_not_interleave areas paths tz t0 d0 ts0 argv0 args ls w :
  exec proto_encode serialize ls (boot (power_on areas paths tz t0 d0 ts0) argv0 args) = Some w ->
  (rec_mutex (shared w) = None ->
     rec_buf (shared w) = [] /\
     rec_disk (shared w) = concat (appended serialize (serialized (shared w))))
  /\ (forall t, rec_mutex (shared w) = Some t ->
        last (acquired (shared w)) = Some t /\
        ((rec_buf (shared w) = [] /\
          rec_disk (shared w) = concat (appended serialize (serialized (shared w))))
         \/ exists l e rest,
              serialized (shared w) = l ++ [(t, e)] /\
              rec_disk (shared w) = concat (appended serialize l) /\
              rec_buf (shared w) ++ rest = serialize e))
  /\ (List.map fst (serialized (shared w)) = acquired (shared w)
      \/ exists t, rec_mutex (shared w) = Some t /\
           acquired (shared w) = List.map fst (serialized (shared w)) ++ [t])
  /\ (forall joined t, rec_mutex (shared w) <> None ->
        respond proto_encode serialize joined t lock_guard (shared w) = None).
Proof.
  intros He.
  assert (Hx : forall joined t, rec_mutex (shared w) <> None ->
                 respond proto_encode serialize joined t lock_guard (shared w) = None).
  { intros joined t Hn. cbn. destruct (rec_mutex (shared w)); [reflexivity|].
    destruct (Hn eq_refl). }
  apply writer_reachable in He.
  destruct He as (ph & _ & sts & _ & Hm & _).
  unfold mutex_rel in Hm. destruct (rec_mutex (shared w)) as [[|i]|] eqn:Hmx.
  - destruct Hm.
  - destruct Hm as (st & Hi & Hh & _).
    split; [discriminate|]. split.
    + intros t [= <-].
      destruct st as [e|e|rem| | |]; cbn in Hh; try contradiction.
      * destruct Hh as (Hb & Hd & Ha). rewrite Ha, last_snoc. auto.
      * destruct Hh as (l & e & Hs & Hd & Hb & Ha).
        rewrite Ha, Hs, List.map_app; cbn [List.map fst]; rewrite last_snoc.
        split; [reflexivity|]. right. exists l, e, rem. auto.
      * destruct Hh as (l & e & Hs & Hd & Hb & Ha).
        rewrite Ha, Hs, List.map_app; cbn [List.map fst]; rewrite last_snoc.
        split; [reflexivity|]. right. exists l, e, []. rewrite app_nil_r. auto.
      * destruct Hh as ((l & e & Hs) & Hb & Hd & Ha).
        rewrite Ha. rewrite Hs at 1.
        rewrite List.map_app; cbn [List.map fst]; rewrite last_snoc. auto.
    + split; [|exact Hx].
      destruct st as [e|e|rem| | |]; cbn in Hh; try contradiction.
      * destruct Hh as (Hb & Hd & Ha). right. eauto.
      * destruct Hh as (l & e & Hs & Hd & Hb & Ha). auto.
      * destruct Hh as (l & e & Hs & Hd & Hb & Ha). auto.
      * destruct Hh as (_ & Hb & Hd & Ha). auto.
  - destruct Hm as (_ & Hb & Hd & Ha).
    split; [auto|]. split; [discriminate|]. split; [auto|exact Hx].
Qed.

(** C7.  At every state the recorder can reach: if the main thread holds
    the lock of the area, its next call is one of the reads between
    [lock] and [unlock] (the time stamp, the size, the copy) or [unlock]
    itself; hence when its next call is an encoding, a write or a flush it
    does not hold the lock; and when its next call is the copy, the call
    after that is [unlock], after which the lock is free. *)
Theorem area_lock_only_around_the_copy areas paths tz t0 d0 ts0 argv0 args ls w :
  exec proto_encode serialize ls (boot (power_on areas paths tz t0 d0 ts0) argv0 args) = Some w ->
  (sm_locked (shared w) = true -> head reads_area (main_thread w) = true)
  /\ (head encodes_or_writes (main_thread w) = true -> sm_locked (shared w) = false)
  /\ (head is_copy (main_thread w) = true ->
      forall w', step proto_encode serialize L_main w = Some w' ->
        head is_unlock (main_thread w') = true /\
        forall w'', step proto_encode serialize L_main w' = Some w'' ->
          sm_locked (shared w'') = false).
Proof.
  intros He. apply lock_reachable in He. destruct He as (q & Hp & Hl & _).
  destruct w as [s p ds]. cbn [shared main_thread delegates] in *.
  assert (H1 : sm_locked s = true -> head reads_area p = true).
  { intros Ht. rewrite Ht in Hl.
    destruct p as [a| |X e k|c b k]; cbn in Hp.
    - unfold lock_post in Hp. subst q. discriminate.
    - unfold lock_calm in Hp. subst q. discriminate.
    - destruct Hp as [Ha _].
      destruct e; cbn in Ha |- *; try reflexivity; subst q; discriminate.
    - destruct Hp as [Hc _]. unfold lock_calm in Hc. subst q. discriminate. }
  split; [exact H1|]. split.
  - intros Hh. destruct (sm_locked s) eqn:Ht; [|reflexivity].
    specialize (H1 eq_refl). destruct p as [a| |X e k|c b k]; try discriminate.
    destruct e; discriminate.
  - intros Hh w' Hs. destruct p as [a| |X e k|c b k]; try discriminate.
    destruct e; try discriminate. cbn in Hs, Hp. inversion Hs; subst; clear Hs.
    destruct Hp as [Ha Hk]. cbn [main_thread shared].
    specialize (Hk (List.map (sm_data s) (List.seq 0 n))).
    destruct (k _) as [a| |X e k'|c b k']; cbn in Hk.
    + discriminate Hk.
    + discriminate Hk.
    + destruct Hk as [Ha' _].
      destruct e; cbn in Ha'; try discriminate Ha'; try congruence.
      split; [reflexivity|]. intros w'' Hs. cbn in Hs. inversion Hs; subst. reflexivity.
    + destruct Hk as [Hc _]. discriminate Hc.
Qed.

(** C8.  At every state the recorder can reach: a step keeps the
    termination flag set once it is set, and the main thread comes to rest
    in [wait] only by a step of its own that tests the flag and finds it
    unset; a step of the main thread other than the test of the flag is
    the same step whatever the flag, so an iteration past the test is
    carried out as it would be otherwise; the main thread never holds the
    file mutex, and when [main] has returned the mutex is free and the
    stream buffer empty. *)
Theorem termination_is_tested_before_waiting areas paths tz t0 d0 ts0 argv0 args ls w :
  exec proto_encode serialize ls (boot (power_on areas paths tz t0 d0 ts0) argv0 args) = Some w ->
  (forall l w', step proto_encode serialize l w = Some w' ->
     (terminated (shared w) = true -> terminated (shared w') = true)
     /\ (head is_wait (main_thread w') = true ->
         head is_wait (main_thread w) = false ->
         l = L_main /\ head is_flag_test (main_thread w) = true /\
         terminated (shared w) = false))
  /\ (forall b, head is_flag_test (main_thread w) = false ->
        step proto_encode serialize L_main (with_flag b w)
        = option_map (with_flag b) (step proto_encode serialize L_main w))
  /\ rec_mutex (shared w) <> Some T_main
  /\ (forall c, main_thread w = Ret c ->
        rec_mutex (shared w) = None /\ rec_buf (shared w) = []).
Proof.
  intros He. split; [|split; [|split]].
  - intros l w'. eapply no_wait_once_terminated; eauto.
  - intros b. apply flag_only_read_by_test.
  - eapply flushed_at_return; eauto.
  - intros c Hc. eapply flushed_at_return in He. destruct He as (_ & He).
    destruct (He c Hc) as (? & ? & _). auto.
Qed.

(** C9.  When the main thread runs [snapshot], the bytes it copies are the
    first [size()] bytes of the area, so their number is the size of the
    area; neither the width nor the height enters.  They are two fields of
    the [ImageReading] that [save_frame] encodes, next to the copied bytes,
    which are encoded as they are. *)
Theorem payload_is_the_whole_area
    (K : TimeStamp * list byte -> Prog Z) s ds d ts t :
  sm_valid s = true -> sm_locked s = false ->
  exists s' sampleTimeStamp data,
    exec proto_encode serialize (snapshot_schedule d ts t) (mkWorld s (bind snapshot K) ds)
    = Some (mkWorld s' (K (sampleTimeStamp, data)) ds)
    /\ data = List.map d (List.seq 0 (sm_size s))
    /\ length data = sm_size s
    /\ forall W H ID V (K' : unit -> Prog Z) s0 ds0 t',
         rec_mutex s0 = None -> rec_good s0 = true ->
         exists s1 e,
           exec proto_encode serialize
             (save_schedule t' V
                (length (serialize (frame_envelope proto_encode W H ID sampleTimeStamp t' data))))
             (mkWorld s0 (bind (save_frame W H ID V sampleTimeStamp data) K') ds0)
           = Some (mkWorld s1 (K' tt) ds0)
           /\ serialized s1 = serialized s0 ++ [(T_main, e)]
           /\ Envelope.serializedData e
              = proto_encode {| ImageReading.fourcc := "xyz"; ImageReading.width := W;
                                ImageReading.height := H; ImageReading.data := data |}.
Proof.
  intros Hv Hl. eexists. eexists. eexists.
  split; [apply snapshot_run; assumption|].
  split; [reflexivity|]. split; [rewrite length_map, length_seq; reflexivity|].
  intros W H ID V K' s0 ds0 t' Hm Hg.
  destruct (save_frame_run W H ID V
              (if ts.1 then ts.2 else t) (List.map d (List.seq 0 (sm_size s))) K' s0 ds0 t' Hm Hg)
    as (s1 & H1 & Hs1 & _).
  exists s1. eexists. split; [exact H1|]. split; [exact Hs1|reflexivity].
Qed.

(** C10.  Two runs that differ only in the presence of [--verbose] and
    meet the same schedule (the same frames, clock readings, signals and
    envelopes from the session) go through the same states, so the
    recording file holds the same bytes.  The statements that read the
    flag are those of [save_frame]: run with the flag set and unset, they
    leave the same bytes in the file and the same envelope serialized. *)
Theorem verbose_only_affects_diagnostics areas paths tz t0 d0 ts0 argv0 args v ls :
  args !! "verbose" = None ->
  exec proto_encode serialize ls
    (boot (power_on areas paths tz t0 d0 ts0) argv0 (<["verbose" := v]> args))
  = exec proto_encode serialize ls (boot (power_on areas paths tz t0 d0 ts0) argv0 args)
  /\ forall W H ID sts data (K : unit -> Prog Z) s ds t,
       rec_mutex s = None -> rec_good s = true ->
       exists s1 s2,
         exec proto_encode serialize
           (save_schedule t true
              (length (serialize (frame_envelope proto_encode W H ID sts t data))))
           (mkWorld s (bind (save_frame W H ID true sts data) K) ds)
         = Some (mkWorld s1 (K tt) ds)
         /\ exec proto_encode serialize
              (save_schedule t false
                 (length (serialize (frame_envelope proto_encode W H ID sts t data))))
              (mkWorld s (bind (save_frame W H ID false sts data) K) ds)
            = Some (mkWorld s2 (K tt) ds)
         /\ rec_disk s1 = rec_disk s2 /\ rec_buf s1 = rec_buf s2
         /\ serialized s1 = serialized s2.
Proof.
  intros Hv. split.
  - unfold boot. rewrite main_verbose by exact Hv. reflexivity.
  - intros W H ID sts data K s ds t Hm Hg.
    destruct (save_frame_run W H ID true sts data K s ds t Hm Hg)
      as (s1 & H1 & Hs1 & _ & Hd1 & Hb1 & _).
    destruct (save_frame_run W H ID false sts data K s ds t Hm Hg)
      as (s2 & H2 & Hs2 & _ & Hd2 & Hb2 & _).
    exists s1, s2. repeat split; try assumption; congruence.
Qed.

End Invariants.

(** * The claims on the example runs *)

(** C1 (the code departs from the claim).  Three frames are delivered
    10 ms apart to a recorder started without [--rec] and without [--cid],
    then the termination signal: [main] returns 0, the recording file was
    opened, and it holds no byte; no envelope was serialized, where the
    scenario of the specification expects three. *)
Theorem three_frames_leave_the_file_empty :
  exec demo_encode demo_serialize three_frames demo_world = Some demo_after_frames
  /\ length (List.filter (fun l => match l with L_frame _ _ => true | _ => false end)
               three_frames) = 3%nat
  /\ main_thread demo_after_frames = Ret 0
  /\ clog_out (shared demo_after_frames)
     = ["[opendlv-video-xyz-recorder]: Attached to 'data' (4 bytes); recording data to '2019-01-01_000000.rec'"]
  /\ rec_disk (shared demo_after_frames) = []
  /\ rec_buf (shared demo_after_frames) = []
  /\ serialized (shared demo_after_frames) = [].
Proof. vm_compute. repeat split; reflexivity. Qed.

(** C3 as stated fails in both directions.  With no path writable the
    recording file cannot be opened, yet [main] attaches, skips the loop
    and returns 0; with no argument at all nothing is attached or opened,
    so neither failure occurs, yet [main] prints the usage text and
    returns 1. *)
Lemma exit_status_counterexample :
  (exists w,
     exec demo_encode demo_serialize (repeat L_main 11)
       (boot (demo_shared (fun _ => false)) "recorder" demo_args) = Some w
     /\ rec_good (shared w) = false
     /\ length (clog_out (shared w)) = 1%nat
     /\ main_thread w = Ret 0)
  /\ (exists w,
        exec demo_encode demo_serialize (repeat L_main 11)
          (boot (demo_shared (fun _ => true)) "recorder" ∅) = Some w
        /\ clog_out (shared w) = []
        /\ sm_name (shared w) = ""
        /\ main_thread w = Ret 1).
Proof.
  split; eexists; (split; [vm_compute; reflexivity|]); vm_compute; repeat split; reflexivity.
Qed.

Lemma size_check_never_passes_witness :
  exec demo_encode demo_serialize busy demo_world_cid = Some demo_busy
  /\ forall w', step demo_encode demo_serialize L_main demo_busy = Some w' ->
       rec_disk (shared w') = rec_disk (shared demo_busy) /\
       rec_buf (shared w') = rec_buf (shared demo_busy) /\
       serialized (shared w') = serialized (shared demo_busy) /\
       acquired (shared w') = acquired (shared demo_busy).
Proof.
  split; [vm_compute; reflexivity|].
  apply (size_check_never_passes demo_encode demo_serialize demo_areas (fun _ => true)
           demo_zone (mkTimeStamp 1546300800 0) (fun _ => x00) (false, mkTimeStamp 0 0)
           "recorder" demo_args_cid busy demo_busy).
  vm_compute; reflexivity.
Defined.

Lemma exit_status_witness :
  exec demo_encode demo_serialize to_the_end demo_world_cid = Some demo_done
  /\ main_thread demo_done = Ret 0
  /\ ((0 = 1 /\ cerr_out (shared demo_done) = [failed_to_attach (at_key demo_args_cid "name")])
      \/ (0 = 0 /\ cerr_out (shared demo_done) = []
          /\ demo_areas (at_key demo_args_cid "name") <> None)).
Proof.
  split; [vm_compute; reflexivity|]. split; [reflexivity|].
  apply (exit_status demo_encode demo_serialize demo_areas (fun _ => true)
           demo_zone (mkTimeStamp 1546300800 0) (fun _ => x00) (false, mkTimeStamp 0 0)
           "recorder" demo_args_cid to_the_end demo_done 0).
  - vm_compute; reflexivity.
  - reflexivity.
  - vm_compute; reflexivity.
Defined.


Lemma envelope_is_fully_populated_witness :
  rec_mutex (shared demo_waiting) = None /\ rec_good (shared demo_waiting) = true
  /\ exists s' e,
       exec demo_encode demo_serialize
         (save_schedule (mkTimeStamp 1546300800 10000) true (length (demo_serialize e)))
         (mkWorld (shared demo_waiting)
            (bind (save_frame 640 480 7 true (mkTimeStamp 1546300800 9000) [x01; x01])
               (fun _ => Ret 0)) [])
       = Some (mkWorld s' (Ret 0) [])
       /\ serialized s' = serialized (shared demo_waiting) ++ [(T_main, e)]
       /\ rec_disk s'
          = rec_disk (shared demo_waiting) ++ rec_buf (shared demo_waiting) ++ demo_serialize e
       /\ Envelope.dataType e = ImageReading.ID
       /\ Envelope.serializedData e
          = demo_encode {| ImageReading.fourcc := "xyz"; ImageReading.width := 640;
                           ImageReading.height := 480; ImageReading.data := [x01; x01] |}
       /\ Envelope.senderStamp e = 7
       /\ Envelope.sampleTimeStamp e = mkTimeStamp 1546300800 9000
       /\ Envelope.sent e = mkTimeStamp 1546300800 10000.
Proof.
  split; [reflexivity|]. split; [reflexivity|].
  apply (envelope_is_fully_populated demo_encode demo_serialize 640 480 7 true
           (mkTimeStamp 1546300800 9000) [x01; x01] (fun _ => Ret 0)
           (shared demo_waiting) [] (mkTimeStamp 1546300800 10000));
    reflexivity.
Defined.

Lemma appends_do_not_interleave_witness :
  exec demo_encode demo_serialize busy demo_world_cid = Some demo_busy
  /\ rec_mutex (shared demo_busy) = Some (T_od4 0)
  /\ last (acquired (shared demo_busy)) = Some (T_od4 0)
  /\ (List.map fst (serialized (shared demo_busy)) = acquired (shared demo_busy)
      \/ exists t, rec_mutex (shared demo_busy) = Some t /\
           acquired (shared demo_busy) = List.map fst (serialized (shared demo_busy)) ++ [t]).
Proof.
  assert (H : exec demo_encode demo_serialize busy demo_world_cid = Some demo_busy)
    by (vm_compute; reflexivity).
  destruct (appends_do_not_interleave demo_encode demo_serialize demo_areas (fun _ => true)
              demo_zone (mkTimeStamp 1546300800 0) (fun _ => x00) (false, mkTimeStamp 0 0)
              "recorder" demo_args_cid busy demo_busy H) as (_ & Hh & Ho & _).
  split; [exact H|]. split; [reflexivity|].
  split; [exact (proj1 (Hh (T_od4 0) eq_refl))|exact Ho].
Defined.

Lemma area_lock_only_around_the_copy_witness :
  exec demo_encode demo_serialize busy demo_world_cid = Some demo_busy
  /\ sm_locked (shared demo_busy) = true
  /\ head reads_area (main_thread demo_busy) = true.
Proof.
  assert (H : exec demo_encode demo_serialize busy demo_world_cid = Some demo_busy)
    by (vm_compute; reflexivity).
  split; [exact H|]. split; [reflexivity|].
  apply (area_lock_only_around_the_copy demo_encode demo_serialize demo_areas (fun _ => true)
           demo_zone (mkTimeStamp 1546300800 0) (fun _ => x00) (false, mkTimeStamp 0 0)
           "recorder" demo_args_cid busy demo_busy H).
  reflexivity.
Defined.

Lemma termination_is_tested_before_waiting_witness :
  exec demo_encode demo_serialize busy demo_world_cid = Some demo_busy
  /\ rec_mutex (shared demo_busy) <> Some T_main
  /\ step demo_encode demo_serialize L_main (with_flag true demo_busy)
     = option_map (with_flag true) (step demo_encode demo_serialize L_main demo_busy).
Proof.
  assert (H : exec demo_encode demo_serialize busy demo_world_cid = Some demo_busy)
    by (vm_compute; reflexivity).
  destruct (termination_is_tested_before_waiting demo_encode demo_serialize demo_areas
              (fun _ => true) demo_zone (mkTimeStamp 1546300800 0) (fun _ => x00)
              (false, mkTimeStamp 0 0) "recorder" demo_args_cid busy demo_busy H)
    as (_ & Hf & Hm & _).
  split; [exact H|]. split; [exact Hm|]. apply Hf. reflexivity.
Defined.

Lemma payload_is_the_whole_area_witness :
  sm_valid (shared demo_waiting) = true /\ sm_locked (shared demo_waiting) = false
  /\ exists s' sampleTimeStamp data,
       exec demo_encode demo_serialize
         (snapshot_schedule (fun _ => x01) (true, mkTimeStamp 1546300800 9000)
            (mkTimeStamp 1546300800 10000))
         (mkWorld (shared demo_waiting)
            (bind snapshot (fun frame => Ret (Z.of_nat (length frame.2)))) [])
       = Some (mkWorld s' (Ret (Z.of_nat (length data))) [])
       /\ data = [x01; x01; x01; x01]
       /\ sampleTimeStamp = mkTimeStamp 1546300800 9000.
Proof.
  split; [reflexivity|]. split; [reflexivity|].
  destruct (payload_is_the_whole_area demo_encode demo_serialize
              (fun frame => Ret (Z.of_nat (length frame.2))) (shared demo_waiting) []
              (fun _ => x01) (true, mkTimeStamp 1546300800 9000)
              (mkTimeStamp 1546300800 10000) eq_refl eq_refl)
    as (s' & sts & data & Hrun & Hdata & _).
  exists s', (mkTimeStamp 1546300800 9000), data.
  split; [|split; [exact Hdata|reflexivity]].
  rewrite Hdata in *. exact Hrun.
Defined.

Lemma verbose_only_affects_diagnostics_witness :
  demo_args !! "verbose" = None
  /\ exec demo_encode demo_serialize three_frames
       (boot (demo_shared (fun _ => true)) "recorder" (<["verbose" := "1"]> demo_args))
     = exec demo_encode demo_serialize three_frames demo_world.
Proof.
  split; [vm_compute; reflexivity|].
  apply (verbose_only_affects_diagnostics demo_encode demo_serialize demo_areas (fun _ => true)
           demo_zone (mkTimeStamp 1546300800 0) (fun _ => x00) (false, mkTimeStamp 0 0)
           "recorder" demo_args "1" three_frames).
  vm_compute; reflexivity.
Defined.

(** * Further properties of the code

    The time stamp and the name of the recording file, the command line,
    the envelopes of the session, what is open when, and the rounds of
    the loop. *)

(** ** The time stamp *)

Lemma range_spec lo n x : lo <= x < lo + n -> In x (range lo n).
Proof.
  intros H. unfold range. apply in_map_iff. exists (Z.to_nat (x - lo)).
  split; [lia|]. apply in_seq. lia.
Qed.

Lemma years_ok y : 1000 <= y <= 9999 -> numeral_ok 4 y (pretty y) = true.
Proof.
  intros H.
  assert (Hall : forallb (fun y => numeral_ok 4 y (pretty y)) (range 1000 9000) = true)
    by (vm_compute; reflexivity).
  rewrite forallb_forall in Hall. apply Hall, range_spec. lia.
Qed.

Lemma padded_ok f : 0 <= f <= 99 -> numeral_ok 2 f (padded f) = true.
Proof.
  intros H.
  assert (Hall : forallb (fun f => numeral_ok 2 f (padded f)) (range 0 100) = true)
    by (vm_compute; reflexivity).
  rewrite forallb_forall in Hall. apply Hall, range_spec. lia.
Qed.

Lemma explode4 s : String.length s = 4%nat ->
  exists a b c d, s = String a (String b (String c (String d ""))).
Proof.
  destruct s as [|a [|b [|c [|d [|]]]]]; cbn; try discriminate. eauto.
Qed.

Lemma explode2 s : String.length s = 2%nat -> exists a b, s = String a (String b "").
Proof.
  destruct s as [|a [|b [|]]]; cbn; try discriminate. eauto.
Qed.

Lemma numeral_ok_spec width f s :
  numeral_ok width f s = true ->
  String.length s = width
  /\ mask s = string_of_list_ascii (repeat "d"%char width)
  /\ stoi s = Some f.
Proof.
  unfold numeral_ok. rewrite !andb_true_iff.
  intros [[Hl Hm] Hs]. apply Nat.eqb_eq in Hl. apply String.eqb_eq in Hm.
  destruct (stoi s) as [v|]; [|discriminate]. apply Z.eqb_eq in Hs. subst. auto.
Qed.

Lemma calendar_spec t :
  calendar t = true ->
  1000 <= 1900 + tm_year t <= 9999 /\ 1 <= 1 + tm_mon t <= 12 /\ 1 <= tm_mday t <= 31
  /\ 0 <= tm_hour t <= 23 /\ 0 <= tm_min t <= 59 /\ 0 <= tm_sec t <= 60.
Proof. unfold calendar. rewrite !andb_true_iff, !Z.leb_le. lia. Qed.

(** The fields of a calendar time do not wrap in [uint32_t]. *)
Lemma stamp_of_calendar t :
  calendar t = true ->
  stamp_of t
  = pretty (1900 + tm_year t) +:+ "-" +:+ padded (1 + tm_mon t)
    +:+ "-" +:+ padded (tm_mday t) +:+ "_" +:+ padded (tm_hour t)
    +:+ padded (tm_min t) +:+ padded (tm_sec t).
Proof.
  intros Hc. apply calendar_spec in Hc.
  unfold stamp_of. cbn [read_clock getYYYYMMDD_HHMMSS bind call default].
  unfold uint32. rewrite !Z.mod_small by lia.
  unfold padded.
  destruct (1 + tm_mon t <? 10), (tm_mday t <? 10), (tm_hour t <? 10),
    (tm_min t <? 10), (tm_sec t <? 10); reflexivity.
Qed.

Lemma years_split y :
  1000 <= y <= 9999 -> pretty y = padded (y / 100) +:+ padded (y mod 100).
Proof.
  intros H.
  assert (Hall : forallb (fun y => String.eqb (pretty y)
                                     (padded (y / 100) +:+ padded (y mod 100)))
                   (range 1000 9000) = true)
    by (vm_compute; reflexivity).
  rewrite forallb_forall in Hall. apply String.eqb_eq, Hall, range_spec. lia.
Qed.

Lemma padded_compare f g :
  0 <= f <= 99 -> 0 <= g <= 99 -> String.compare (padded f) (padded g) = (f ?= g).
Proof.
  intros Hf Hg.
  assert (Hall : forallb (fun f => forallb (fun g =>
                    match String.compare (padded f) (padded g), f ?= g with
                    | Eq, Eq | Lt, Lt | Gt, Gt => true
                    | _, _ => false
                    end) (range 0 100)) (range 0 100) = true)
    by (vm_compute; reflexivity).
  rewrite forallb_forall in Hall.
  specialize (Hall f (range_spec 0 100 f ltac:(lia))).
  rewrite forallb_forall in Hall.
  specialize (Hall g (range_spec 0 100 g ltac:(lia))).
  destruct (String.compare (padded f) (padded g)), (f ?= g); congruence.
Qed.

Lemma compare_app a : forall a' b b',
  String.length a = String.length a' ->
  String.compare (a +:+ b) (a' +:+ b')
  = lexicographic (String.compare a a') (String.compare b b').
Proof.
  induction a as [|c a IH]; intros [|c' a'] b b' Hl; try discriminate Hl.
  - reflexivity.
  - change (String c a +:+ b) with (String c (a +:+ b)).
    change (String c' a' +:+ b') with (String c' (a' +:+ b')).
    cbn [String.compare]. destruct (Ascii.compare c c'); [|reflexivity|reflexivity].
    apply IH. cbn in Hl. congruence.
Qed.

Lemma years_compare y z :
  1000 <= y <= 9999 -> 1000 <= z <= 9999 ->
  String.compare (pretty y) (pretty z) = (y ?= z).
Proof.
  intros Hy Hz. rewrite (years_split y Hy), (years_split z Hz).
  pose proof (Z.div_mod y 100 ltac:(lia)). pose proof (Z.mod_pos_bound y 100 ltac:(lia)).
  pose proof (Z.div_mod z 100 ltac:(lia)). pose proof (Z.mod_pos_bound z 100 ltac:(lia)).
  assert (0 <= y / 100 <= 99) by lia.
  assert (0 <= z / 100 <= 99) by lia.
  destruct (numeral_ok_spec _ _ _ (padded_ok (y / 100) ltac:(lia))) as (L1 & _).
  destruct (numeral_ok_spec _ _ _ (padded_ok (z / 100) ltac:(lia))) as (L2 & _).
  rewrite compare_app by congruence.
  rewrite !padded_compare by lia.
  unfold lexicographic.
  destruct (Z.compare_spec (y / 100) (z / 100)), (Z.compare_spec (y mod 100) (z mod 100)),
    (Z.compare_spec y z); try reflexivity; lia.
Qed.

(** Takes the stamp of a calendar time apart into its seventeen
    characters. *)
Ltac explode_stamp t Hc :=
  rewrite (stamp_of_calendar t Hc);
  pose proof (calendar_spec _ Hc) as (Hy & Hmo & Hd & Hh & Hmi & Hs);
  destruct (numeral_ok_spec _ _ _ (years_ok _ Hy)) as (Ly & My & Sy);
  destruct (numeral_ok_spec _ _ _ (padded_ok (1 + tm_mon t) ltac:(lia))) as (Lmo & Mmo & Smo);
  destruct (numeral_ok_spec _ _ _ (padded_ok (tm_mday t) ltac:(lia))) as (Ld & Md & Sd);
  destruct (numeral_ok_spec _ _ _ (padded_ok (tm_hour t) ltac:(lia))) as (Lh & Mh & Sh);
  destruct (numeral_ok_spec _ _ _ (padded_ok (tm_min t) ltac:(lia))) as (Lmi & Mmi & Smi);
  destruct (numeral_ok_spec _ _ _ (padded_ok (tm_sec t) ltac:(lia))) as (Ls & Ms & Ss);
  destruct (explode4 _ Ly) as (y1 & y2 & y3 & y4 & Ey);
  destruct (explode2 _ Lmo) as (o1 & o2 & Eo);
  destruct (explode2 _ Ld) as (d1 & d2 & Ed);
  destruct (explode2 _ Lh) as (h1 & h2 & Eh);
  destruct (explode2 _ Lmi) as (i1 & i2 & Ei);
  destruct (explode2 _ Ls) as (s1 & s2 & Es);
  rewrite Ey, Eo, Ed, Eh, Ei, Es in *.

Section Stamp.

Variable proto_encode : ImageReading.t -> list byte.
Variable serialize : Envelope.t -> list byte.

(** X1.  [getYYYYMMDD_HHMMSS] reads the clock, asks [localtime] for the
    calendar fields of its seconds, and returns their stamp; for calendar
    fields in a year of four digits the stamp has seventeen characters, of
    the form dddd-dd-dd_dddddd with a digit for every d. *)
Theorem stamp_reads_YYYY_MM_DD_HHMMSS (K : string -> Prog Z) s ds :
  calendar (zone s (seconds (clock s))) = true ->
  exec proto_encode serialize [L_main; L_main] (mkWorld s (bind getYYYYMMDD_HHMMSS K) ds)
  = Some (mkWorld s (K (stamp_of (zone s (seconds (clock s))))) ds)
  /\ String.length (stamp_of (zone s (seconds (clock s)))) = 17%nat
  /\ mask (stamp_of (zone s (seconds (clock s)))) = "dddd-dd-dd_dddddd".
Proof.
  intros Hc. split; [reflexivity|].
  explode_stamp (zone s (seconds (clock s))) Hc.
  split; [reflexivity|].
  cbn in My, Mmo, Md, Mh, Mmi, Ms.
  repeat match goal with
         | H : String _ _ = String _ _ |- _ => injection H as ? H
         end.
  cbv [String.append mask].
  change (isdigit "-") with false. change (isdigit "_") with false.
  congruence.
Qed.

End Stamp.

(** X2.  The fields can be read back from the stamp of a calendar time:
    [std::stoi] on the characters 0-3, 5-6, 8-9, 11-12, 13-14 and 15-16
    gives the year, the month counted from one, the day, the hour, the
    minute and the second.  So two calendar times with the same stamp
    have the same fields. *)
Theorem stamp_fields_read_back t :
  calendar t = true ->
  stoi (substring 0 4 (stamp_of t)) = Some (1900 + tm_year t)
  /\ stoi (substring 5 2 (stamp_of t)) = Some (1 + tm_mon t)
  /\ stoi (substring 8 2 (stamp_of t)) = Some (tm_mday t)
  /\ stoi (substring 11 2 (stamp_of t)) = Some (tm_hour t)
  /\ stoi (substring 13 2 (stamp_of t)) = Some (tm_min t)
  /\ stoi (substring 15 2 (stamp_of t)) = Some (tm_sec t).
Proof.
  intros Hc. explode_stamp t Hc.
  cbv [substring String.append]. auto 10.
Qed.

(** X3.  Stamps sort as the times do: the order of two stamps as texts
    is the order of their calendar times. *)
Theorem stamps_sort_as_the_times_do t1 t2 :
  calendar t1 = true -> calendar t2 = true ->
  String.compare (stamp_of t1) (stamp_of t2) = tm_compare t1 t2.
Proof.
  intros H1 H2.
  rewrite (stamp_of_calendar t1 H1), (stamp_of_calendar t2 H2).
  pose proof (calendar_spec _ H1) as (Hy1 & Hmo1 & Hd1 & Hh1 & Hmi1 & Hs1).
  pose proof (calendar_spec _ H2) as (Hy2 & Hmo2 & Hd2 & Hh2 & Hmi2 & Hs2).
  assert (Lp : forall f g, 0 <= f <= 99 -> 0 <= g <= 99 ->
                 String.length (padded f) = String.length (padded g)).
  { intros f g Hf Hg.
    destruct (numeral_ok_spec _ _ _ (padded_ok f Hf)) as (-> & _).
    destruct (numeral_ok_spec _ _ _ (padded_ok g Hg)) as (-> & _). reflexivity. }
  assert (Ly : String.length (pretty (1900 + tm_year t1))
               = String.length (pretty (1900 + tm_year t2))).
  { destruct (numeral_ok_spec _ _ _ (years_ok _ Hy1)) as (-> & _).
    destruct (numeral_ok_spec _ _ _ (years_ok _ Hy2)) as (-> & _). reflexivity. }
  rewrite compare_app by exact Ly. rewrite years_compare by lia.
  rewrite (compare_app "-" "-") by reflexivity.
  rewrite compare_app by (apply Lp; lia). rewrite padded_compare by lia.
  rewrite (compare_app "-" "-") by reflexivity.
  rewrite compare_app by (apply Lp; lia). rewrite padded_compare by lia.
  rewrite (compare_app "_" "_") by reflexivity.
  rewrite compare_app by (apply Lp; lia). rewrite padded_compare by lia.
  rewrite compare_app by (apply Lp; lia). rewrite padded_compare by lia.
  rewrite padded_compare by lia.
  unfold tm_compare. rewrite !Z.add_compare_mono_l. reflexivity.
Qed.

(** ** The command line *)

Lemma main_missing argv0 args :
  required_missing args = true -> main argv0 args = (usage argv0;; Ret 1).
Proof. intros H. unfold main. fold (required_missing args). rewrite H. reflexivity. Qed.

Lemma main_unreadable argv0 args : unreadable args = true -> main argv0 args = Throw.
Proof.
  unfold unreadable. rewrite andb_true_iff, negb_true_iff, !orb_true_iff, !bool_decide_eq_true.
  intros [Hm H]. unfold main. fold (required_missing args). rewrite Hm.
  unfold std_stoi, configured_cid, configured_id in *.
  destruct (stoi (at_key args "width")); [|reflexivity].
  destruct (stoi (at_key args "height")); [|reflexivity].
  cbn [bind].
  destruct (negb (size (at_key args "cid") =? 0)).
  - destruct (stoi (at_key args "cid")); [|reflexivity]. cbn [bind].
    destruct (negb (size (at_key args "id") =? 0)).
    + destruct (stoi (at_key args "id")); [|reflexivity]. cbn in H. intuition discriminate.
    + cbn in H. intuition discriminate.
  - cbn [bind]. destruct (negb (size (at_key args "id") =? 0)).
    + destruct (stoi (at_key args "id")); [|reflexivity]. cbn in H. intuition discriminate.
    + cbn in H. intuition discriminate.
Qed.

Lemma readable args :
  required_missing args = false -> unreadable args = false ->
  exists w h cid id,
    stoi (at_key args "width") = Some w /\ stoi (at_key args "height") = Some h
    /\ configured_cid args = Some cid /\ configured_id args = Some id.
Proof.
  unfold unreadable. intros -> H. cbn in H.
  rewrite !orb_false_iff, !bool_decide_eq_false in H.
  destruct H as (((Hw & Hh) & Hc) & Hi).
  destruct (stoi (at_key args "width")) as [w|]; [|congruence].
  destruct (stoi (at_key args "height")) as [h|]; [|congruence].
  destruct (configured_cid args) as [cid|]; [|congruence].
  destruct (configured_id args) as [id|]; [|congruence].
  eauto 10.
Qed.

Lemma stoi_range s v : stoi s = Some v -> - 2 ^ 31 <= v <= 2 ^ 31 - 1.
Proof.
  unfold stoi. destruct (skip_space s) as [|c r].
  - cbn. discriminate.
  - destruct (match String c r with
              | String "-" r => (true, r)
              | String "+" r => (false, r)
              | _ => (false, String c r)
              end) as [neg s'].
    destruct (read_digits None s') as [n|]; [|discriminate].
    destruct (_ && _) eqn:Hr; [|discriminate].
    intros [= <-]. apply andb_true_iff in Hr. rewrite !Z.leb_le in Hr. exact Hr.
Qed.

Lemma uint32_zero v : - 2 ^ 31 <= v <= 2 ^ 31 - 1 -> uint32 v = 0 -> v = 0.
Proof.
  unfold uint32. intros Hr Hz.
  pose proof (Z.div_mod v (2 ^ 32) ltac:(lia)) as Hd. rewrite Hz in Hd. lia.
Qed.

(** Walks through a program against the protocol of the quiet start. *)
Ltac walk_quiet :=
  repeat first
    [ progress cbn [follows bind call quiet_allowed quiet_next harmless orb fst snd]
    | match goal with
      | |- context [0 <? 0] => change (0 <? 0) with false
      | |- _ /\ _ => split
      | |- forall _, _ => intro
      | |- True => exact I
      | |- true = true \/ _ => left; reflexivity
      | |- _ \/ true = true => right; reflexivity
      | |- context [match ?b with true => _ | false => _ end] => destruct b
      end
    | reflexivity | discriminate | congruence ].

Lemma record_quiet c NAME W H CID ID F V :
  follows bool (quiet_allowed false NAME) quiet_next (fun _ => True) false
    (record c NAME W H CID ID F V) (fun _ _ => True).
Proof. unfold record, loop_condition, loop_body, snapshot. walk_quiet. Qed.

Lemma main_quiet argv0 args :
  follows bool (quiet_allowed (required_missing args || unreadable args) (at_key args "name"))
    quiet_next (fun _ => True) false (main argv0 args) (fun _ _ => True).
Proof.
  destruct (required_missing args) eqn:Hm.
  - rewrite (main_missing _ _ Hm). unfold usage. walk_quiet.
  - destruct (unreadable args) eqn:Hu.
    + rewrite (main_unreadable _ _ Hu). exact I.
    + destruct (readable _ Hm Hu) as (w & h & cid & id & Hw & Hh & Hc & Hi).
      rewrite (main_parsed argv0 args w h cid id Hm Hw Hh Hc Hi).
      eapply follows_bind with (mid := fun _ q => q = false);
        [ unfold getYYYYMMDD_HHMMSS; walk_quiet | intros ? ? -> ].
      apply record_quiet.
Qed.

Lemma usage_follows argv0 :
  follows nat (usage_allowed argv0) usage_next (fun _ => True) 0%nat
    (usage argv0;; Ret 1) (usage_post argv0).
Proof.
  unfold usage, usage_post.
  repeat first [ progress cbn [follows bind call usage_allowed usage_next]
               | split | intro | reflexivity ].
Qed.

Lemma untouched_view s s' :
  (rec_good s', rec_disk s', rec_buf s', rec_mutex s', od4_running s', clog_out s',
   acquired s', serialized s', sm_locked s')
  = (rec_good s, rec_disk s, rec_buf s, rec_mutex s, od4_running s, clog_out s,
     acquired s, serialized s, sm_locked s) ->
  untouched s -> untouched s'.
Proof. intros H. inversion H. unfold untouched. congruence. Qed.

Section CommandLine.

Variable proto_encode : ImageReading.t -> list byte.
Variable serialize : Envelope.t -> list byte.

Lemma quiet_reachable areas paths tz t0 d0 ts0 argv0 args ls w :
  exec proto_encode serialize ls (boot (power_on areas paths tz t0 d0 ts0) argv0 args) = Some w ->
  holds bool (quiet_allowed (required_missing args || unreadable args) (at_key args "name"))
    quiet_next (fun _ => True) (fun _ _ => True)
    (quiet_rel areas (required_missing args || unreadable args) (at_key args "name")) w.
Proof.
  set (stay := required_missing args || unreadable args). set (NAME := at_key args "name").
  apply (holds_exec proto_encode serialize (quiet_allowed stay NAME) quiet_next (fun _ => True)
           (fun _ _ => True) (quiet_rel areas stay NAME)).
  - intros q s ds X e x s' (Hat & Hsh & Hq) Ha _ Hr.
    destruct q.
    + assert (Hat' : attachable s' = areas).
      { destruct e; cbn in Hr; answer Hr; cbn; first [reflexivity|assumption]. }
      split; [exact Hat'|]. split; [exact Hsh|].
      destruct e; exact Hq.
    + destruct Hq as (Hu & -> & Hv).
      destruct e; cbn in Ha; try (destruct Ha as [Ha|Ha]; discriminate Ha).
      * cbn in Hr. answer Hr. split; [first [reflexivity|assumption]|]. split; [exact Hsh|].
        split; [eapply untouched_view; [|exact Hu]; reflexivity|]. auto.
      * cbn in Hr. answer Hr. split; [first [reflexivity|assumption]|]. split; [exact Hsh|].
        split; [eapply untouched_view; [|exact Hu]; reflexivity|]. auto.
      * cbn in Hr. answer Hr. split; [first [reflexivity|assumption]|]. split; [exact Hsh|].
        split; [eapply untouched_view; [|exact Hu]; reflexivity|]. auto.
      * destruct Ha as (-> & Hst). cbn in Hr.
        destruct (attachable s NAME) as [n|] eqn:Hn; answer Hr;
          (split; [first [reflexivity|assumption]|]); (split; [exact Hsh|]);
          (split; [eapply untouched_view; [|exact Hu]; reflexivity|]); cbn.
        -- split; [reflexivity|]. intros _. split; [exact Hst|]. congruence.
        -- split; [reflexivity|]. discriminate.
      * cbn in Hr. answer Hr. split; [first [reflexivity|assumption]|]. split; [exact Hsh|].
        cbn. destruct (sm_valid s') eqn:Hvalid.
        -- apply Hv. reflexivity.
        -- split; [exact Hu|]. split; [reflexivity|]. discriminate.
      * cbn in Hr. answer Hr. split; [first [reflexivity|assumption]|]. split; [exact Hsh|].
        split; [eapply untouched_view; [|exact Hu]; reflexivity|].
        split; [reflexivity|]. discriminate.
  - intros q s ds X e e' b (Hat & Hsh & Hq) Ha Hp.
    destruct e; try discriminate. destruct d as [|b' d]; [discriminate|].
    cbn in Hp. inversion Hp; subst. cbn in Ha |- *.
    destruct Ha as [->|Ha]; [|discriminate].
    split; [|auto]. split; [|split; [exact Hsh|exact Hq]].
    unfold put_byte. destruct (rec_good s); reflexivity.
  - intros q s ds i p p' s' (Hat & Hsh & Hq) Hi Hs.
    destruct q.
    + destruct (delegate_step proto_encode serialize _ _ _ _ _ _ Hsh Hi Hs) as (Hsh' & Hv).
      unfold env_view in Hv. inversion Hv.
      split; [congruence|]. split; [exact Hsh'|exact Hq].
    + destruct Hq as (_ & -> & _). discriminate.
  - intros q s ds e (Hat & Hsh & Hq) Ho.
    destruct q.
    + split; [exact Hat|]. split; [apply shapes_snoc, Hsh|exact Hq].
    + destruct Hq as ((_ & _ & _ & _ & Hod & _) & _). congruence.
  - intros q s ds (Hat & Hsh & Hq). split; [exact Hat|]. split; [exact Hsh|].
    destruct q; [exact Hq|]. destruct Hq as (Hu & Hd & Hv).
    split; [eapply untouched_view; [|exact Hu]; reflexivity|]. auto.
  - intros q s ds t (Hat & Hsh & Hq). split; [exact Hat|]. split; [exact Hsh|].
    destruct q; [exact Hq|]. destruct Hq as (Hu & Hd & Hv).
    split; [eapply untouched_view; [|exact Hu]; reflexivity|]. auto.
  - intros q s ds d ts (Hat & Hsh & Hq) _ _. split; [exact Hat|]. split; [exact Hsh|].
    destruct q; [exact Hq|]. destruct Hq as (Hu & Hd & Hv).
    split; [eapply untouched_view; [|exact Hu]; reflexivity|]. auto.
  - intros q s ds H _. exact H.
  - intros q s ds (Hat & Hsh & Hq). split; [exact Hat|]. split; [exact Hsh|].
    destruct q; [exact Hq|]. destruct Hq as (Hu & Hd & Hv).
    split; [eapply untouched_view; [|exact Hu]; reflexivity|].
    split; [exact Hd|]. discriminate.
  - exists false. split; [apply main_quiet|].
    split; [reflexivity|]. split; [apply shapes_nil|].
    cbn. unfold untouched. cbn. repeat split; auto; discriminate.
Qed.

Lemma usage_reachable areas paths tz t0 d0 ts0 argv0 args ls w :
  required_missing args = true ->
  exec proto_encode serialize ls (boot (power_on areas paths tz t0 d0 ts0) argv0 args) = Some w ->
  holds nat (usage_allowed argv0) usage_next (fun _ => True) (usage_post argv0)
    (usage_rel argv0) w.
Proof.
  intros Hm.
  apply (holds_exec proto_encode serialize (usage_allowed argv0) usage_next (fun _ => True)
           (usage_post argv0) (usage_rel argv0)).
  - intros q s ds X e x s' (Hd & Ho & Hc) Ha _ Hr.
    destruct e; cbn [usage_allowed] in Ha; try contradiction.
    cbn in Hr. answer Hr. split; [reflexivity|]. split; [exact Ho|].
    cbn [cerr_out set_out]. rewrite Hc. symmetry. apply take_S_r, Ha.
  - intros q s ds X e e' b _ Ha Hp. destruct e; try discriminate Hp. contradiction.
  - intros q s ds i p p' s' (-> & _) Hi. discriminate.
  - intros q s ds e (_ & Ho & _) Ho'. congruence.
  - intros q s ds H. exact H.
  - intros q s ds t H. exact H.
  - intros q s ds d ts H _ _. exact H.
  - intros q s ds _ Ha. destruct Ha.
  - intros q s ds H. exact H.
  - exists 0%nat. unfold boot. rewrite (main_missing _ _ Hm).
    split; [apply usage_follows|]. repeat split.
Qed.

(** A thread that has thrown stays as it is, and without a session and
    without the area nothing else moves but the clock and the flag. *)
Lemma thrown_stays ls : forall w w',
  main_thread w = Throw -> delegates w = [] -> od4_running (shared w) = false ->
  sm_valid (shared w) = false ->
  exec proto_encode serialize ls w = Some w' ->
  main_thread w' = Throw /\ delegates w' = []
  /\ exists t b, shared w' = set_terminated b (set_clock t (shared w)).
Proof.
  induction ls as [|l ls IH]; intros w w' Hp Hd Ho Hv He; cbn in He.
  - inversion He; subst. split; [exact Hp|]. split; [exact Hd|].
    exists (clock (shared w')), (terminated (shared w')). destruct (shared w'); reflexivity.
  - destruct w as [s p ds]. cbn in Hp, Hd, Ho, Hv. subst p ds.
    destruct l; cbn in He; try discriminate.
    + rewrite Ho in He. discriminate.
    + apply IH in He; [|reflexivity|reflexivity|exact Ho|exact Hv].
      destruct He as (H1 & H2 & t & b & H3).
      split; [exact H1|]. split; [exact H2|]. exists t, b. rewrite H3. reflexivity.
    + apply IH in He; [|reflexivity|reflexivity|exact Ho|exact Hv].
      destruct He as (H1 & H2 & t' & b & H3).
      split; [exact H1|]. split; [exact H2|]. exists t', b. rewrite H3. reflexivity.
    + rewrite Hv in He. discriminate.
    + assert (Hs : set_sm_valid false s = s) by (destruct s; cbn in *; subst; reflexivity).
      rewrite Hs in He. apply IH in He; auto.
Qed.

(** X5.  With a required argument missing, [main] prints the eleven
    lines of the usage text on [cerr], in their order, and nothing else:
    what is on [cerr] is always a beginning of the text, it is the whole
    text when [main] returns, the status is then 1, and left alone
    [main] does return after eleven steps. *)
Theorem usage_is_all_that_is_printed areas paths tz t0 d0 ts0 argv0 args ls w :
  required_missing args = true ->
  exec proto_encode serialize ls (boot (power_on areas paths tz t0 d0 ts0) argv0 args) = Some w ->
  length (usage_text argv0) = 11%nat
  /\ (exists n, cerr_out (shared w) = take n (usage_text argv0))
  /\ (forall c, main_thread w = Ret c -> c = 1 /\ cerr_out (shared w) = usage_text argv0)
  /\ exists w',
       exec proto_encode serialize (repeat L_main 11)
         (boot (power_on areas paths tz t0 d0 ts0) argv0 args) = Some w'
       /\ main_thread w' = Ret 1.
Proof.
  intros Hm He. split; [reflexivity|].
  destruct (usage_reachable _ _ _ _ _ _ _ _ _ _ Hm He) as (n & Hp & _ & _ & Hc).
  split; [eauto|]. split.
  - intros c Hr. rewrite Hr in Hp. destruct Hp as (-> & ->).
    split; [reflexivity|]. rewrite Hc. apply firstn_all.
  - apply usage_returns, Hm.
Qed.

(** X6.  If the width, the height, or a [--cid] or [--id] that is not
    empty cannot be read by [std::stoi], [main] is left by the exception
    before it has made any call: the main thread has thrown, no delegate
    exists, and the shared state is the initial one but for the clock
    and the termination flag. *)
Theorem unreadable_number_throws_at_once areas paths tz t0 d0 ts0 argv0 args ls w :
  unreadable args = true ->
  exec proto_encode serialize ls (boot (power_on areas paths tz t0 d0 ts0) argv0 args) = Some w ->
  main_thread w = Throw /\ delegates w = []
  /\ exists t b,
       shared w = set_terminated b (set_clock t (power_on areas paths tz t0 d0 ts0)).
Proof.
  intros Hu He. unfold boot in He. rewrite (main_unreadable _ _ Hu) in He.
  apply thrown_stays in He; auto.
Qed.

(** X7.  If a required argument is missing, a number cannot be read, or
    the area does not exist, then at every state the recorder can reach
    the recording file has not been opened and holds nothing, nothing was
    logged on [clog], no session exists and no delegate runs, the area is
    not locked, and the main thread is not waiting for a frame. *)
Theorem nothing_is_opened_before_the_area_is_attached
    areas paths tz t0 d0 ts0 argv0 args ls w :
  required_missing args = true \/ unreadable args = true
  \/ areas (at_key args "name") = None ->
  exec proto_encode serialize ls (boot (power_on areas paths tz t0 d0 ts0) argv0 args) = Some w ->
  rec_good (shared w) = false /\ rec_disk (shared w) = [] /\ rec_buf (shared w) = []
  /\ clog_out (shared w) = [] /\ od4_running (shared w) = false /\ delegates w = []
  /\ serialized (shared w) = [] /\ sm_locked (shared w) = false
  /\ head is_wait (main_thread w) = false.
Proof.
  intros Hc He. apply quiet_reachable in He. destruct He as (q & Hp & Hat & Hsh & Hq).
  destruct q.
  - destruct Hq as (Hst & Ha). apply orb_false_iff in Hst. destruct Hst.
    destruct Hc as [?|[?|?]]; congruence.
  - destruct Hq as ((? & ? & ? & ? & ? & ? & ? & ? & ?) & ? & _).
    repeat (split; [assumption|]).
    destruct (main_thread w) as [a| |X e k|c b k]; try reflexivity.
    destruct e; try reflexivity. destruct Hp as [[Ha|Ha] _]; discriminate Ha.
Qed.

(** X8.  The OD4 session exists only for a [--cid] that is not empty and
    whose number is not zero: whenever the session runs or a delegate
    invocation exists, [std::stoi] read such a number.  And for such a
    number, negative ones included (they wrap to a positive [CID]),
    [main] left alone creates the session once the area is attached and
    the recording file is open. *)
Theorem session_iff_cid_is_not_zero areas paths tz t0 d0 ts0 argv0 args :
  (forall ls w,
     exec proto_encode serialize ls (boot (power_on areas paths tz t0 d0 ts0) argv0 args)
     = Some w ->
     od4_running (shared w) = true \/ delegates w <> [] ->
     exists v, at_key args "cid" <> "" /\ stoi (at_key args "cid") = Some v /\ v <> 0)
  /\ (forall v,
        required_missing args = false -> unreadable args = false ->
        at_key args "cid" <> "" -> stoi (at_key args "cid") = Some v -> v <> 0 ->
        areas (at_key args "name") <> None -> (forall p, paths p = true) ->
        exists w,
          exec proto_encode serialize (startup args ++ repeat L_main 8)
            (boot (power_on areas paths tz t0 d0 ts0) argv0 args) = Some w
          /\ od4_running (shared w) = true /\ 0 < uint32 v).
Proof.
  split.
  - intros ls w He Hs.
    destruct (configured_cid args) as [c|] eqn:Hc.
    + destruct (decide (c = 0)) as [->|Hne].
      * destruct (lone_reachable proto_encode serialize _ _ _ _ _ _ _ _ _ _ Hc He)
          as (ph & _ & (sts & Hds & _ & Hp) & g & ->).
        destruct Hp as (Ho & -> & _). cbn in Hds. destruct Hs; congruence.
      * unfold configured_cid in Hc.
        destruct (size (at_key args "cid") =? 0) eqn:Hz; cbn in Hc; [congruence|].
        destruct (stoi (at_key args "cid")) as [v|] eqn:Hv; [|discriminate].
        exists v. split; [|split; [reflexivity|]].
        -- intros E. rewrite E in Hz. discriminate.
        -- intros ->. injection Hc as <-. apply Hne. reflexivity.
    + assert (Hst : (required_missing args || unreadable args) = true).
      { unfold unreadable. destruct (required_missing args); [reflexivity|]. cbn.
        rewrite !orb_true_iff, !bool_decide_eq_true. auto. }
      apply quiet_reachable in He. destruct He as (q & _ & _ & _ & Hq).
      destruct q.
      * destruct Hq. congruence.
      * destruct Hq as ((_ & _ & _ & _ & Ho & _) & Hd & _). destruct Hs; congruence.
  - intros v Hm Hu Hne Hv Hv0 Ha Hp.
    destruct (readable _ Hm Hu) as (w & h & cid & id & Hw & Hh & Hc & Hi).
    assert (Hz : (size (at_key args "cid") =? 0) = false).
    { apply Z.eqb_neq. unfold size. destruct (at_key args "cid"); [congruence|]. cbn. lia. }
    assert (Hcid : cid = uint32 v).
    { unfold configured_cid in Hc. rewrite Hz, Hv in Hc. cbn in Hc. congruence. }
    assert (Hpos : 0 < uint32 v).
    { pose proof (uint32_zero v (stoi_range _ _ Hv)).
      pose proof (Z.mod_pos_bound v (2 ^ 32) ltac:(lia)). unfold uint32 in *. lia. }
    unfold boot, startup.
    rewrite (main_parsed argv0 args w h cid id Hm Hw Hh Hc Hi). unfold record.
    destruct (areas (at_key args "name")) as [n|] eqn:Hn; [|congruence].
    apply Z.ltb_lt in Hpos. rewrite Hcid, Hpos.
    destruct (negb (size (at_key args "rec") =? 0));
      cbn; rewrite Hn; cbn; rewrite Hp; cbn; eexists; (split; [reflexivity|]);
      (split; [reflexivity|]); apply Z.ltb_lt, Hpos.
Qed.

(** X14.  The width, the height and the id do not enter what the
    recorder does: two command lines that can be read and agree on
    [--name], [--cid], [--rec] and [--recsuffix] give the same run on
    every schedule, whatever their [--width], [--height], [--id] and
    [--verbose]. *)
Theorem width_height_and_id_are_not_used s argv0 args1 args2 ls :
  required_missing args1 = false -> required_missing args2 = false ->
  unreadable args1 = false -> unreadable args2 = false ->
  at_key args1 "name" = at_key args2 "name" ->
  at_key args1 "cid" = at_key args2 "cid" ->
  at_key args1 "rec" = at_key args2 "rec" ->
  at_key args1 "recsuffix" = at_key args2 "recsuffix" ->
  exec proto_encode serialize ls (boot s argv0 args1)
  = exec proto_encode serialize ls (boot s argv0 args2).
Proof.
  intros Hm1 Hm2 Hu1 Hu2 Hn Hc Hr Hx.
  destruct (readable _ Hm1 Hu1) as (w1 & h1 & c1 & i1 & Hw1 & Hh1 & Hc1 & Hi1).
  destruct (readable _ Hm2 Hu2) as (w2 & h2 & c2 & i2 & Hw2 & Hh2 & Hc2 & Hi2).
  assert (c1 = c2).
  { unfold configured_cid in Hc1, Hc2. rewrite Hc in Hc1. congruence. }
  subst c2. unfold boot.
  rewrite (main_parsed argv0 args1 w1 h1 c1 i1 Hm1 Hw1 Hh1 Hc1 Hi1).
  rewrite (main_parsed argv0 args2 w2 h2 c1 i2 Hm2 Hw2 Hh2 Hc2 Hi2).
  rewrite Hn, Hr, Hx. reflexivity.
Qed.

End CommandLine.

(** ** A recording file that cannot be opened *)

(** Walks through a program against the protocol of the good stream. *)
Ltac walk_good :=
  repeat first
    [ progress cbn [follows bind call good_allowed good_next needs_file fst snd]
    | match goal with
      | |- context [0 <? 0] => change (0 <? 0) with false
      | |- _ /\ _ => split
      | |- forall _, _ => intro
      | |- True => exact I
      | |- context [match ?b with true => _ | false => _ end] => destruct b
      | |- context [match stoi ?s with _ => _ end] => destruct (stoi s)
      end
    | reflexivity | discriminate | congruence ].

Lemma record_good c NAME W H CID ID F V :
  follows bool good_allowed good_next (fun _ => True) false
    (record c NAME W H CID ID F V) (fun _ _ => True).
Proof. unfold record, loop_condition, loop_body, snapshot, good_allowed. walk_good. Qed.

Lemma main_good argv0 args :
  follows bool good_allowed good_next (fun _ => True) false (main argv0 args) (fun _ _ => True).
Proof.
  unfold main.
  destruct (_ || _).
  - unfold usage, good_allowed. walk_good.
  - unfold std_stoi.
    do 5 (eapply follows_bind with (mid := fun _ q => q = false);
          [ unfold getYYYYMMDD_HHMMSS, good_allowed; walk_good | intros ? ? -> ]).
    apply record_good.
Qed.

Section Unwritable.

Variable proto_encode : ImageReading.t -> list byte.
Variable serialize : Envelope.t -> list byte.

Lemma good_reachable areas paths tz t0 d0 ts0 argv0 args ls w :
  (forall p, paths p = false) ->
  exec proto_encode serialize ls (boot (power_on areas paths tz t0 d0 ts0) argv0 args) = Some w ->
  holds bool good_allowed good_next (fun _ => True) (fun _ _ => True) (good_rel paths) w.
Proof.
  intros Hno.
  apply (holds_exec proto_encode serialize good_allowed good_next (fun _ => True)
           (fun _ _ => True) (good_rel paths)).
  - intros q s ds X e x s' (Hw & Hd & Ho & Hg & Hdk & Hb & ->) Ha _ Hr.
    unfold good_allowed in Ha.
    destruct e; cbn in Ha; try (specialize (Ha eq_refl); discriminate Ha);
      cbn in Hr.
    all: try (answer Hr; unfold good_rel; cbn; repeat split; first [assumption|reflexivity]).
    + rewrite Hw, Hno in Hr. injection Hr as _ <-.
      unfold good_rel. cbn. repeat split; assumption.
    + rewrite Hg in Hr. injection Hr as _ <-. unfold good_rel. repeat split; assumption.
    + injection Hr as _ <-. unfold good_rel. cbn. rewrite Hdk, Hb.
      repeat split; first [assumption|reflexivity].
  - intros q s ds X e e' b (Hw & Hd & Ho & Hg & Hdk & Hb & ->) Ha Hp.
    destruct e; try discriminate. destruct d as [|b' d]; [discriminate|].
    cbn in Hp. inversion Hp; subst. split; [|split; [intros Hx; discriminate Hx|auto]].
    unfold put_byte. rewrite Hg. unfold good_rel. repeat split; assumption.
  - intros q s ds i p p' s' (_ & -> & _) Hi. discriminate.
  - intros q s ds e (_ & _ & Ho & _) Ho'. congruence.
  - intros q s ds H. exact H.
  - intros q s ds t H. exact H.
  - intros q s ds d ts H _ _. exact H.
  - intros q s ds (_ & _ & _ & _ & _ & _ & ->) Ha. specialize (Ha eq_refl). discriminate.
  - intros q s ds H. exact H.
  - exists false. split; [apply main_good|]. unfold good_rel. cbn. repeat split.
Qed.

(** X15.  If no path can be opened for writing, the recorder never
    enters the loop and never creates the session: at every state it can
    reach the stream is not good, the file and the stream buffer are
    empty, no session and no delegate exists, and the next call of the
    main thread is none of the loop or of the session.  With the area in
    place [main] still logs the line of line 86, and left alone it
    returns 0. *)
Theorem unwritable_file_skips_the_loop areas paths tz t0 d0 ts0 argv0 args :
  (forall p, paths p = false) ->
  (forall ls w,
     exec proto_encode serialize ls (boot (power_on areas paths tz t0 d0 ts0) argv0 args)
     = Some w ->
     rec_good (shared w) = false /\ rec_disk (shared w) = [] /\ rec_buf (shared w) = []
     /\ od4_running (shared w) = false /\ delegates w = []
     /\ head needs_file (main_thread w) = false)
  /\ (required_missing args = false -> unreadable args = false ->
      areas (at_key args "name") <> None ->
      exists w,
        exec proto_encode serialize (startup args ++ repeat L_main 9)
          (boot (power_on areas paths tz t0 d0 ts0) argv0 args) = Some w
        /\ main_thread w = Ret 0 /\ length (clog_out (shared w)) = 1%nat).
Proof.
  intros Hno. split.
  - intros ls w He. apply (good_reachable _ _ _ _ _ _ _ _ _ _ Hno) in He.
    destruct He as (q & Hp & Hw & Hd & Ho & Hg & Hdk & Hb & ->).
    repeat (split; [assumption|]).
    destruct (main_thread w) as [a| |X e k|c b k]; try reflexivity.
    destruct Hp as (Ha & _). unfold good_allowed in Ha. cbn.
    destruct (needs_file X e); [specialize (Ha eq_refl); discriminate|reflexivity].
  - intros Hm Hu Ha.
    destruct (readable _ Hm Hu) as (w & h & cid & id & Hw & Hh & Hc & Hi).
    unfold boot, startup.
    rewrite (main_parsed argv0 args w h cid id Hm Hw Hh Hc Hi).
    destruct (areas (at_key args "name")) as [n|] eqn:Hn; [|congruence].
    destruct (negb (size (at_key args "rec") =? 0)); cbn; rewrite Hn; cbn;
      rewrite Hno; cbn; eexists; (split; [reflexivity|split; reflexivity]).
Qed.

End Unwritable.

(** ** The name of the recording file *)

(** Walks through a program against the protocol of the names. *)
Ltac walk_naming :=
  repeat first
    [ progress cbn [follows bind call naming_allowed naming_next fst snd orb
                    seen created attached area bytes said]
    | match goal with
      | |- context [0 <? 0] => change (0 <? 0) with false
      | |- _ /\ _ => split
      | |- forall _, _ => intro
      | |- True => exact I
      | |- exists a n, Some _ = Some a /\ Some _ = Some n /\ _ => eexists; eexists
      | |- context [match ?b with true => _ | false => _ end] => destruct b
      end
    | reflexivity | discriminate | congruence ].

Lemma record_naming c args W H CID ID V sn :
  (negb (size (at_key args "rec") =? 0) = false -> sn <> None) ->
  follows Naming (naming_allowed args) naming_next (fun _ => True)
    (mkNaming sn false false None None false)
    (record c (at_key args "name") W H CID ID (rec_file args sn) V) (fun _ _ => True).
Proof.
  intros Hsn. unfold record, loop_condition, loop_body, snapshot. walk_naming. auto.
Qed.

Lemma main_naming argv0 args :
  follows Naming (naming_allowed args) naming_next (fun _ => True)
    (mkNaming None false false None None false) (main argv0 args) (fun _ _ => True).
Proof.
  destruct (required_missing args) eqn:Hm.
  - rewrite (main_missing _ _ Hm). unfold usage. walk_naming.
  - destruct (unreadable args) eqn:Hu.
    + rewrite (main_unreadable _ _ Hu). exact I.
    + destruct (readable _ Hm Hu) as (w & h & cid & id & Hw & Hh & Hc & Hi).
      rewrite (main_parsed argv0 args w h cid id Hm Hw Hh Hc Hi).
      destruct (negb (size (at_key args "rec") =? 0)) eqn:Hr.
      * cbn [bind].
        replace (at_key args "rec" +:+ at_key args "recsuffix") with (rec_file args None)
          by (unfold rec_file; rewrite Hr; reflexivity).
        apply record_naming. rewrite Hr. discriminate.
      * unfold getYYYYMMDD_HHMMSS. cbn [follows bind call naming_allowed naming_next].
        split; [exact I|]. intros t0. split; [split; reflexivity|]. intros t.
        match goal with
        | |- context [record _ _ _ _ _ _ ?F _] =>
            replace F with (rec_file args (Some t))
              by (unfold rec_file; rewrite Hr; reflexivity)
        end.
        cbn [seen created attached area bytes said].
        apply record_naming. discriminate.
Qed.

Lemma naming_rel_view areas tz args q s s' ds :
  naming_view s' = naming_view s ->
  naming_rel areas tz args q s ds -> naming_rel areas tz args q s' ds.
Proof.
  unfold naming_view, naming_rel. intros Hv. inversion Hv as [[H1 H2 H3 H4 H5 H6]].
  rewrite H1, H2, H3, H4, H5, H6. tauto.
Qed.

Lemma naming_rel_detach areas tz args q s ds :
  naming_rel areas tz args q s ds -> naming_rel areas tz args q (set_sm_valid false s) ds.
Proof.
  unfold naming_rel. cbn. intros (H1 & H2 & H3 & H4 & H5 & H6 & H7).
  repeat (split; [assumption || (intros; reflexivity) || (intros; discriminate)|]).
  tauto.
Qed.

Section Naming.

Variable proto_encode : ImageReading.t -> list byte.
Variable serialize : Envelope.t -> list byte.

(** A step of a delegate invocation changes nothing the names depend
    on. *)
Lemma delegate_keeps_names ds i p p' s s' :
  shapes ds -> ds !! i = Some p ->
  step_prog proto_encode serialize true (T_od4 i) p s = Some (p', s') ->
  naming_view s' = naming_view s /\ rec_good s' = rec_good s.
Proof.
  intros (sts & ->) Hi Hs.
  apply lookup_delegate in Hi. destruct Hi as (st & Hi & ->).
  destruct st as [e|e|rem| | |]; cbn in Hs.
  - destruct (rec_mutex s); [discriminate|]. inversion Hs; subst. split; reflexivity.
  - inversion Hs; subst. split; reflexivity.
  - destruct rem as [|b rem]; cbn in Hs; inversion Hs; subst; [split; reflexivity|].
    unfold put_byte. destruct (rec_good s) eqn:E; cbn; rewrite ?E; split; reflexivity.
  - inversion Hs; subst. destruct (rec_good s) eqn:E; cbn; rewrite ?E; split; reflexivity.
  - inversion Hs; subst. split; reflexivity.
  - discriminate.
Qed.

Lemma naming_reachable areas paths tz t0 d0 ts0 argv0 args ls w :
  exec proto_encode serialize ls (boot (power_on areas paths tz t0 d0 ts0) argv0 args) = Some w ->
  holds Naming (naming_allowed args) naming_next (fun _ => True) (fun _ _ => True)
    (naming_rel areas tz args) w.
Proof.
  apply (holds_exec proto_encode serialize (naming_allowed args) naming_next (fun _ => True)
           (fun _ _ => True) (naming_rel areas tz args)).
  - intros q s ds X e x s' HR Ha _ Hr.
    destruct e; cbn in Ha, Hr;
      try (answer Hr; eapply naming_rel_view; [|exact HR]; reflexivity).
    + answer Hr. destruct Ha as (Hs & Hsn & a & n & Ea & En & ->).
      destruct HR as (R1 & R2 & R3 & R4 & R5 & R6 & R7 & R8 & R9 & R10 & R11).
      rewrite Hs in R11.
      unfold naming_rel. cbn.
      repeat (split; [assumption|]).
      exists n. rewrite (R8 _ Ea), R11. split; [apply R9, En|]. split; [reflexivity|].
      unfold names, rec_file in *. destruct (negb (size (at_key args "rec") =? 0)); [reflexivity|].
      destruct (seen q) as [t|] eqn:Et; [|exfalso; apply Hsn; reflexivity].
      destruct (R10 t eq_refl) as (secs & ->). eauto.
    + answer Hr. destruct Ha as (Hsn & Hs).
      destruct HR as (R1 & R2 & R3 & R4 & R5 & R6 & R7 & R8 & R9 & R10 & R11).
      unfold naming_rel. cbn. rewrite Hs in *.
      repeat (split; [assumption|]).
      split; [intros t [= <-]; rewrite <- R3; eauto|exact R11].
    + destruct Ha as (-> & Hcr).
      destruct HR as (R1 & R2 & R3 & R4 & R5 & R6 & R7 & R8 & R9 & R10 & R11).
      assert (Hna : attached q = false)
        by (destruct (attached q); [destruct R7; congruence|reflexivity]).
      destruct (attachable s (at_key args "name")) as [n|] eqn:Hn; answer Hr;
        unfold naming_rel; cbn; rewrite Hna;
        repeat (split; [assumption || reflexivity || discriminate || congruence|]);
        exact R11.
    + answer Hr.
      destruct HR as (R1 & R2 & R3 & R4 & R5 & R6 & R7 & R8 & R9 & R10 & R11).
      unfold naming_rel. cbn.
      repeat (split; [assumption|]).
      split; [|auto].
      intros Hx. apply orb_true_iff in Hx. destruct Hx as [Hx|Hx]; [auto|].
      split; [|auto]. destruct (created q); [reflexivity|]. rewrite R5 in Hx; congruence.
    + answer Hr.
      destruct HR as (R1 & R2 & R3 & R4 & R5 & R6 & R7 & R8 & R9 & R10 & R11).
      unfold naming_rel. cbn.
      repeat (split; [assumption|]).
      split; [intros a [= <-]; auto|auto].
    + answer Hr.
      destruct HR as (R1 & R2 & R3 & R4 & R5 & R6 & R7 & R8 & R9 & R10 & R11).
      destruct (said q) eqn:Es; unfold naming_rel; cbn; rewrite ?Es;
        repeat (split; [assumption|]).
      * auto.
      * split; [intros n [= <-]; apply R7, Ha|auto].
    + answer Hr. apply naming_rel_detach, HR.
    + destruct (writable s path); injection Hr as _ <-;
        (eapply naming_rel_view; [|exact HR]); reflexivity.
    + injection Hr as _ <-. eapply naming_rel_view; [|exact HR].
      destruct (rec_good s); reflexivity.
  - intros q s ds X e e' b HR Ha Hp.
    destruct e; try discriminate. destruct d as [|b' d]; [discriminate|].
    cbn in Hp. inversion Hp; subst. split; [|auto].
    eapply naming_rel_view; [|exact HR]. unfold put_byte. destruct (rec_good s); reflexivity.
  - intros q s ds i p p' s' HR Hi Hs.
    pose proof HR as (R1 & _).
    destruct (delegate_step proto_encode serialize _ _ _ _ _ _ R1 Hi Hs) as (Hsh' & _).
    destruct (delegate_keeps_names _ _ _ _ _ _ R1 Hi Hs) as (Hv & _).
    apply (naming_rel_view _ _ _ _ _ _ _ Hv) in HR.
    destruct HR as (_ & HR). split; [exact Hsh'|exact HR].
  - intros q s ds e (R1 & HR) _. split; [apply shapes_snoc, R1|exact HR].
  - intros q s ds HR. eapply naming_rel_view; [|exact HR]; reflexivity.
  - intros q s ds t HR. eapply naming_rel_view; [|exact HR]; reflexivity.
  - intros q s ds d ts HR _ _. eapply naming_rel_view; [|exact HR]; reflexivity.
  - intros q s ds HR _. exact HR.
  - intros q s ds HR. apply naming_rel_detach, HR.
  - exists (mkNaming None false false None None false). split; [apply main_naming|].
    unfold naming_rel. cbn.
    repeat (split; [reflexivity || discriminate || apply shapes_nil|]). reflexivity.
Qed.

(** X4.  At every state the recorder can reach, [clog] is empty or holds
    the one line of line 86, which gives the name of the area asked for,
    the size of that area, and the name of the recording file: [--rec]
    followed by [--recsuffix], or, without [--rec], a time stamp followed
    by [--recsuffix] and [.rec].  The stream is opened after the line
    was logged, on the name the line gives. *)
Theorem recording_file_is_the_one_announced areas paths tz t0 d0 ts0 argv0 args ls w :
  exec proto_encode serialize ls (boot (power_on areas paths tz t0 d0 ts0) argv0 args) = Some w ->
  (clog_out (shared w) = []
   \/ exists n file,
        areas (at_key args "name") = Some n
        /\ clog_out (shared w) = [attached_line (at_key args "name") n file]
        /\ names args tz file)
  /\ forall path k,
       main_thread w = Vis (fstream_open path) k ->
       names args tz path
       /\ exists n, clog_out (shared w) = [attached_line (at_key args "name") n path].
Proof.
  intros He. apply naming_reachable in He.
  destruct He as (q & Hp & R1 & R2 & R3 & R4 & R5 & R6 & R7 & R8 & R9 & R10 & R11).
  split.
  - destruct (said q); [|left; exact R11]. right.
    destruct R11 as (n & Hn & Hc & Hnm). eauto.
  - intros path k Hm. rewrite Hm in Hp. destruct Hp as ((Hs & ->) & _).
    rewrite Hs in R11. destruct R11 as (n & Hn & Hc & Hnm). eauto.
Qed.

End Naming.

(** ** The envelopes of the session *)

Lemma tracks_carries_on ser i e st st' :
  carries_on st st' -> tracks ser i e st -> tracks ser i e st'.
Proof. destruct st, st'; cbn; intros H; try contradiction; subst; auto. Qed.

Section Session.

Variable proto_encode : ImageReading.t -> list byte.
Variable serialize : Envelope.t -> list byte.

(** A [write] of [d] by invocation [i] alone. *)
Lemma delegate_write_run (d : list byte) : forall (k : unit -> Prog unit) (p : Prog Z) s ds i,
  rec_good s = true -> (i < length ds)%nat ->
  exec proto_encode serialize (repeat (L_od4 i) (S (length d)))
    (mkWorld s p (<[i := Vis (fstream_write d) k]> ds))
  = Some (mkWorld (set_rec true (rec_disk s) (rec_buf s ++ d) s) p (<[i := k tt]> ds)).
Proof.
  induction d as [|b d IH]; intros k p s ds i Hg Hi.
  - cbn. rewrite list_lookup_insert_eq by exact Hi. cbn.
    rewrite list_insert_insert_eq, app_nil_r. destruct s; cbn in *. subst. reflexivity.
  - change (repeat (L_od4 i) (S (length (b :: d))))
      with (L_od4 i :: repeat (L_od4 i) (S (length d))).
    cbn [exec step shared main_thread delegates].
    rewrite list_lookup_insert_eq by exact Hi.
    cbn [step_prog pending_write]. rewrite list_insert_insert_eq.
    unfold put_byte. rewrite Hg.
    rewrite IH by (cbn; auto). cbn. rewrite <- app_assoc. reflexivity.
Qed.

(** X9.  An invocation of the delegate that runs alone, the file mutex
    free and the stream good, takes the mutex, serializes its envelope,
    appends the bytes to the file, all of them and nothing else, flushes
    and releases the mutex. *)
Theorem delegate_appends_its_envelope (p : Prog Z) s ds i e :
  ds !! i = Some (od4_delegate e) -> rec_mutex s = None -> rec_good s = true ->
  exists s',
    exec proto_encode serialize (delegate_schedule i (length (serialize e))) (mkWorld s p ds)
    = Some (mkWorld s' p (<[i := Ret tt]> ds))
    /\ rec_disk s' = rec_disk s ++ rec_buf s ++ serialize e
    /\ rec_buf s' = []
    /\ rec_mutex s' = None
    /\ acquired s' = acquired s ++ [T_od4 i]
    /\ serialized s' = serialized s ++ [(T_od4 i, e)].
Proof.
  intros Hi Hm Hg.
  assert (Hlt : (i < length ds)%nat) by (eapply lookup_lt_Some; eauto).
  unfold delegate_schedule.
  cbn [app exec step shared main_thread delegates]. rewrite Hi.
  cbn [od4_delegate step_prog bind call pending_write respond]. rewrite Hm.
  cbn [shared main_thread delegates]. rewrite list_lookup_insert_eq by exact Hlt.
  cbn [step_prog bind call pending_write respond]. rewrite list_insert_insert_eq.
  rewrite exec_app, delegate_write_run by (cbn; auto).
  cbn [exec step shared main_thread delegates].
  rewrite list_lookup_insert_eq by exact Hlt.
  cbn [step_prog bind call pending_write respond]. rewrite list_insert_insert_eq.
  cbn [rec_good set_rec].
  cbn [shared main_thread delegates].
  rewrite list_lookup_insert_eq by exact Hlt.
  cbn [step_prog bind call pending_write respond]. rewrite list_insert_insert_eq.
  eexists. split; [reflexivity|]. cbn. auto 10.
Qed.

(** X10.  No delegate invocation outlives the stream and the mutex it
    refers to: while an invocation has not returned, the session exists,
    the stream is open and good, [main] has not returned, and its next
    call is not the [close] of the stream. *)
Theorem no_delegate_outlives_the_file areas paths tz t0 d0 ts0 argv0 args ls w i p :
  exec proto_encode serialize ls (boot (power_on areas paths tz t0 d0 ts0) argv0 args) = Some w ->
  delegates w !! i = Some p -> finished p = false ->
  od4_running (shared w) = true /\ rec_good (shared w) = true
  /\ head is_close (main_thread w) = false
  /\ forall c, main_thread w <> Ret c.
Proof.
  intros He Hi Hf.
  pose proof (writer_reachable proto_encode serialize _ _ _ _ _ _ _ _ _ _ He)
    as (ph & Hp & sts & Hds & _ & Hph).
  rewrite Hds in Hi. apply lookup_delegate in Hi. destruct Hi as (st & Hi & ->).
  assert (Hst : st <> D_done) by (intros ->; discriminate Hf).
  destruct (phase_rel_busy _ _ _ _ _ Hph Hi Hst) as (-> & Ho & Hg).
  split; [exact Ho|]. split; [exact Hg|]. split.
  - destruct (main_thread w) as [a| |X e k|c b k]; try reflexivity.
    destruct Hp as (Ha & _). destruct e; try reflexivity. destruct Ha.
  - intros c Hc. rewrite Hc in Hp. cbn in Hp. unfold phase_post in Hp. congruence.
Qed.

Lemma ledger_step rcv l w w' :
  writer_inv serialize w ->
  ledger rcv w ->
  step proto_encode serialize l w = Some w' ->
  ledger (rcv ++ received [l]) w'.
Proof.
  intros (ph & Hf & HR) (sts & Hds & Hlen & Htr & Hser & Hnd) Hs.
  destruct w as [s p ds]. cbn [shared main_thread delegates] in *.
  destruct l; cbn in Hs; cbn [received flat_map]; rewrite ?app_nil_r.
  - destruct (step_prog _ _ _ T_main p s) as [[p' s']|] eqn:Hsp; [|discriminate].
    inversion Hs; subst w'; clear Hs.
    destruct (main_step_file proto_encode serialize _ _ _ _ _ _ _ Hf HR Hsp)
      as (_ & _ & Hse & _).
    exists sts. cbn. rewrite Hse. auto.
  - destruct (ds !! i) as [pi|] eqn:Hi; [|discriminate].
    destruct (step_prog _ _ true (T_od4 i) pi s) as [[p' s']|] eqn:Hsp; [|discriminate].
    inversion Hs; subst w'; clear Hs. cbn.
    rewrite Hds in Hi. apply lookup_delegate in Hi. destruct Hi as (st & Hi & ->).
    assert (Hlt : (i < length sts)%nat) by (eapply lookup_lt_Some; eauto).
    destruct (lookup_lt_is_Some_2 rcv i ltac:(lia)) as (ei & Hei).
    pose proof (Htr _ _ _ Hei Hi) as Hti.
    assert (Hkeep : forall st', serialized s' = serialized s -> carries_on st st' ->
              p' = delegate_at st' ->
              exists sts',
                <[i := p']> ds = List.map delegate_at sts' /\ length sts' = length rcv /\
                (forall j e st0, rcv !! j = Some e -> sts' !! j = Some st0 ->
                   tracks (serialized s') j e st0) /\
                (forall t e, (t, e) ∈ serialized s' ->
                   exists j, t = T_od4 j /\ rcv !! j = Some e) /\
                NoDup (List.map fst (serialized s'))).
    { intros st' Hse Hm ->. exists (<[i := st']> sts).
      rewrite Hds, Hse. split; [apply insert_delegate|].
      split; [rewrite length_insert; exact Hlen|].
      split; [|auto].
      intros j e st0 Hj Hst0. destruct (decide (j = i)) as [->|Hne].
      - rewrite list_lookup_insert_eq in Hst0 by exact Hlt. inversion Hst0; subst.
        rewrite Hei in Hj. inversion Hj; subst. eapply tracks_carries_on; eauto.
      - rewrite list_lookup_insert_ne in Hst0 by congruence. eauto. }
    destruct st as [e|e|rem| | |]; cbn in Hsp.
    + destruct (rec_mutex s); [discriminate|]. inversion Hsp; subst.
      apply (Hkeep (D_locked e)); reflexivity.
    + inversion Hsp; subst; clear Hsp Hkeep. destruct Hti as (-> & Hfresh).
      exists (<[i := D_writing (serialize ei)]> sts).
      split; [apply (insert_delegate sts i (D_writing (serialize ei)))|].
      split; [rewrite length_insert; exact Hlen|]. cbn.
      split; [|split].
      * intros j e st0 Hj Hst0. destruct (decide (j = i)) as [->|Hne].
        -- rewrite list_lookup_insert_eq in Hst0 by exact Hlt. inversion Hst0; subst.
           rewrite Hei in Hj. inversion Hj; subst. cbn.
           apply elem_of_app. right. apply list_elem_of_singleton. reflexivity.
        -- rewrite list_lookup_insert_ne in Hst0 by congruence.
           pose proof (Htr _ _ _ Hj Hst0) as Ht.
           destruct st0; cbn in Ht |- *;
             try (destruct Ht as (-> & Hn); split; [reflexivity|];
                  rewrite List.map_app; cbn; apply not_elem_of_app; split; [exact Hn|];
                  intros Hx; apply list_elem_of_singleton in Hx; congruence);
             apply elem_of_app; left; exact Ht.
      * intros t e He. apply elem_of_app in He. destruct He as [He|He]; [eauto|].
        apply list_elem_of_singleton in He. inversion He; subst. eauto.
      * rewrite List.map_app. cbn. apply NoDup_app. split; [exact Hnd|].
        split; [|apply NoDup_singleton].
        intros t Ht Ht'. apply list_elem_of_singleton in Ht'. subst. contradiction.
    + destruct rem as [|b rem]; cbn in Hsp; inversion Hsp; subst.
      * apply (Hkeep D_flush); reflexivity.
      * apply (Hkeep (D_writing rem)); [|exact I|reflexivity].
        unfold put_byte. destruct (rec_good s); reflexivity.
    + inversion Hsp; subst. apply (Hkeep D_release); [|exact I|reflexivity].
      destruct (rec_good s); reflexivity.
    + inversion Hsp; subst. apply (Hkeep D_done); reflexivity.
    + discriminate.
  - destruct (od4_running s); [|discriminate]. inversion Hs; subst w'; clear Hs. cbn.
    exists (sts ++ [D_start e]). rewrite Hds, List.map_app. split; [reflexivity|].
    split; [rewrite !length_app; cbn; lia|].
    split; [|split; [|exact Hnd]].
    + intros j e' st0 Hj Hst0.
      apply lookup_app_Some in Hst0. destruct Hst0 as [Hst0|(Hge & Hst0)].
      * assert ((j < length rcv)%nat) by (rewrite <- Hlen; eapply lookup_lt_Some; eauto).
        rewrite lookup_app_l in Hj by lia. eauto.
      * apply list_lookup_singleton_Some in Hst0. destruct Hst0 as (Hj0 & <-).
        assert (j = length rcv) by lia. subst j.
        rewrite lookup_app_r in Hj by lia. rewrite Nat.sub_diag in Hj. inversion Hj; subst.
        cbn. split; [reflexivity|]. intros Hin.
        apply list_elem_of_fmap in Hin. destruct Hin as ([t e0] & Ht & Hin). cbn in Ht. subst t.
        destruct (Hser _ _ Hin) as (k & Hk & Hrk). inversion Hk; subst k.
        apply lookup_lt_Some in Hrk. lia.
    + intros t e0 Hin. destruct (Hser _ _ Hin) as (k & -> & Hrk).
      exists k. split; [reflexivity|]. apply lookup_app_l_Some, Hrk.
  - inversion Hs; subst w'. exists sts. auto.
  - inversion Hs; subst w'. exists sts. auto.
  - destruct (_ && _); [|discriminate]. inversion Hs; subst w'. exists sts. auto.
  - inversion Hs; subst w'. exists sts. auto.
Qed.

Lemma ledger_reachable areas paths tz t0 d0 ts0 argv0 args ls : forall w,
  exec proto_encode serialize ls (boot (power_on areas paths tz t0 d0 ts0) argv0 args) = Some w ->
  ledger (received ls) w.
Proof.
  induction ls as [|l ls IH] using rev_ind; intros w He.
  - inversion He; subst. exists []. cbn. repeat split; try constructor.
    + intros i e st Hi. discriminate.
    + intros t e Hin. inversion Hin.
  - rewrite exec_app in He.
    destruct (exec proto_encode serialize ls _) as [w1|] eqn:H1; [|discriminate].
    cbn in He. destruct (step proto_encode serialize l w1) as [w2|] eqn:H2; [|discriminate].
    inversion He; subst w2; clear He.
    unfold received. rewrite flat_map_app. fold (received ls). fold (received [l]).
    eapply ledger_step; [|apply IH; reflexivity|exact H2].
    eapply writer_reachable; eauto.
Qed.

(** X11.  When [main] returns, the recording file holds the envelopes
    the session received, each of them once and whole, and nothing else:
    the file is the concatenation of their serializations, in the order
    in which they were serialized, which is a permutation of the order
    in which they were received; the stream buffer is empty. *)
Theorem every_received_envelope_is_recorded areas paths tz t0 d0 ts0 argv0 args ls w c :
  exec proto_encode serialize ls (boot (power_on areas paths tz t0 d0 ts0) argv0 args) = Some w ->
  main_thread w = Ret c ->
  exists es,
    es ≡ₚ received ls
    /\ es = List.map snd (serialized (shared w))
    /\ rec_disk (shared w) = concat (List.map serialize es)
    /\ rec_buf (shared w) = [].
Proof.
  intros He Hc.
  destruct (flushed_at_return proto_encode serialize _ _ _ _ _ _ _ _ _ _ He) as (_ & Hf).
  destruct (Hf c Hc) as (_ & Hb & Hd).
  pose proof (writer_reachable proto_encode serialize _ _ _ _ _ _ _ _ _ _ He)
    as (ph & Hp & stsw & Hdw & _ & Hph).
  destruct (ledger_reachable _ _ _ _ _ _ _ _ _ _ He) as (sts & Hds & Hlen & Htr & Hser & Hnd).
  rewrite Hc in Hp. cbn in Hp. unfold phase_post in Hp.
  assert (Hdone : forall i st, sts !! i = Some st -> st = D_done).
  { intros i st Hi. apply finished_delegate_at.
    assert (Hi' : delegates w !! i = Some (delegate_at st))
      by (rewrite Hds, list_lookup_fmap, Hi; reflexivity).
    rewrite Hdw, list_lookup_fmap in Hi'.
    destruct (stsw !! i) as [stw|] eqn:Hw; [|discriminate]. cbn in Hi'.
    inversion Hi' as [Hi'']. clear Hi' Hi''.
    destruct ph as [g| |]; [|congruence|].
    - destruct Hph as (_ & -> & _). discriminate.
    - destruct Hph as (_ & Hall). rewrite Forall_forall in Hall.
      rewrite (Hall stw); [reflexivity|]. eapply list_elem_of_lookup_2; eauto. }
  exists (List.map snd (serialized (shared w))).
  split; [|split; [reflexivity|split; [|exact Hb]]].
  - assert (Hperm : serialized (shared w) ≡ₚ imap (fun i e => (T_od4 i, e)) (received ls)).
    { apply NoDup_Permutation.
      - eapply NoDup_fmap_1. exact Hnd.
      - apply NoDup_alt. intros i j x Hi Hj.
        rewrite list_lookup_imap in Hi, Hj.
        destruct (received ls !! i) eqn:E1; [|discriminate].
        destruct (received ls !! j) eqn:E2; [|discriminate].
        cbn in Hi, Hj. congruence.
      - intros [t e]. split.
        + intros Hin. destruct (Hser _ _ Hin) as (i & -> & Hi).
          apply list_elem_of_lookup. exists i. rewrite list_lookup_imap, Hi. reflexivity.
        + intros Hin. apply list_elem_of_lookup in Hin. destruct Hin as (i & Hi).
          rewrite list_lookup_imap in Hi.
          destruct (received ls !! i) as [e'|] eqn:E; [|discriminate].
          cbn in Hi. inversion Hi; subst.
          destruct (lookup_lt_is_Some_2 sts i) as (st & Hst).
          { rewrite Hlen. eapply lookup_lt_Some; eauto. }
          pose proof (Htr _ _ _ E Hst) as Ht. rewrite (Hdone _ _ Hst) in Ht. exact Ht. }
    rewrite Hperm. clear.
    assert (Hg : forall (l : list Envelope.t) k,
              List.map snd (imap (fun i e => (T_od4 (k + i), e)) l) = l).
    { induction l as [|e l IH]; intros k; [reflexivity|]. cbn. f_equal.
      rewrite <- (IH (S k)) at 2. f_equal. apply imap_ext. intros i x _. cbn.
      f_equal. f_equal. lia. }
    rewrite <- (Hg (received ls) 0%nat) at 2. reflexivity.
  - rewrite Hd. unfold appended. rewrite List.map_map. reflexivity.
Qed.

End Session.

(** ** What is open at the return *)

(** Walks through a program against the protocol of what is open. *)
Ltac walk_open :=
  repeat first
    [ progress cbn [follows bind call open_next fst snd]
    | match goal with
      | |- context [0 <? 0] => change (0 <? 0) with false
      | |- _ /\ _ => split
      | |- forall _, _ => intro
      | |- True => exact I
      | |- context [match ?b with true => _ | false => _ end] => destruct b
      | |- context [match stoi ?s with _ => _ end] => destruct (stoi s)
      end
    | reflexivity | discriminate | congruence ].

Lemma record_open c NAME W H CID ID F V :
  follows (bool * bool) (fun _ _ _ => True) open_next (fun _ => True) (false, false)
    (record c NAME W H CID ID F V) open_post.
Proof. unfold record, loop_condition, loop_body, snapshot, open_post. walk_open. Qed.

Lemma main_open argv0 args :
  follows (bool * bool) (fun _ _ _ => True) open_next (fun _ => True) (false, false)
    (main argv0 args) open_post.
Proof.
  unfold main.
  destruct (_ || _).
  - unfold usage, open_post. walk_open.
  - unfold std_stoi.
    do 5 (eapply follows_bind with (mid := fun _ q => q = (false, false));
          [ unfold getYYYYMMDD_HHMMSS; walk_open | intros ? ? -> ]).
    apply record_open.
Qed.

Section Released.

Variable proto_encode : ImageReading.t -> list byte.
Variable serialize : Envelope.t -> list byte.

Lemma open_reachable areas paths tz t0 d0 ts0 argv0 args ls w :
  exec proto_encode serialize ls (boot (power_on areas paths tz t0 d0 ts0) argv0 args) = Some w ->
  holds (bool * bool) (fun _ _ _ => True) open_next (fun _ => True) open_post open_rel w.
Proof.
  apply (holds_exec proto_encode serialize (fun _ _ _ => True) open_next (fun _ => True)
           open_post open_rel).
  - intros [a f] s ds X e x s' (Hsh & Hv & Hg) _ _ Hr. split; [exact Hsh|].
    destruct e; cbn in Hr; answer Hr; cbn in *; split; auto; try discriminate;
      try (destruct (rec_good s) eqn:E; cbn; intros; try discriminate; auto; fail).
  - intros q s ds X e e' b (Hsh & Hv & Hg) _ Hp.
    destruct e; try discriminate. destruct d as [|b' d]; [discriminate|].
    cbn in Hp. inversion Hp; subst. split; [|auto].
    split; [exact Hsh|].
    unfold put_byte. destruct (rec_good s) eqn:E; [|rewrite E; auto].
    split; [exact Hv|]. intros Hq. specialize (Hg Hq). congruence.
  - intros q s ds i p p' s' (Hsh & Hv & Hg) Hi Hs.
    destruct (delegate_step proto_encode serialize _ _ _ _ _ _ Hsh Hi Hs) as (Hsh' & Hev).
    destruct (delegate_keeps_names proto_encode serialize _ _ _ _ _ _ Hsh Hi Hs)
      as (_ & Hgood).
    unfold env_view in Hev. inversion Hev.
    split; [exact Hsh'|]. split; intros Hq; [rewrite <- (Hv Hq)|rewrite <- (Hg Hq)]; congruence.
  - intros q s ds e (Hsh & H) _. split; [apply shapes_snoc, Hsh|exact H].
  - intros q s ds H. exact H.
  - intros q s ds t H. exact H.
  - intros q s ds d ts H _ _. exact H.
  - intros q s ds H _. exact H.
  - intros q s ds (Hsh & Hv & Hg). split; [exact Hsh|]. split; [reflexivity|exact Hg].
  - exists (false, false). split; [apply main_open|].
    split; [apply shapes_nil|]. split; reflexivity.
Qed.

(** X12.  When [main] returns, everything is released: every delegate
    invocation has returned, the session is gone, the file mutex is
    free, the stream is closed, the [SharedMemory] object is destroyed,
    and the area is not locked. *)
Theorem everything_is_released_at_return areas paths tz t0 d0 ts0 argv0 args ls w c :
  exec proto_encode serialize ls (boot (power_on areas paths tz t0 d0 ts0) argv0 args) = Some w ->
  main_thread w = Ret c ->
  forallb finished (delegates w) = true
  /\ od4_running (shared w) = false
  /\ rec_mutex (shared w) = None
  /\ rec_good (shared w) = false
  /\ sm_valid (shared w) = false
  /\ sm_locked (shared w) = false.
Proof.
  intros He Hc.
  pose proof (writer_reachable proto_encode serialize _ _ _ _ _ _ _ _ _ _ He)
    as (ph & Hp & sts & Hds & Hm & Hph).
  pose proof (open_reachable _ _ _ _ _ _ _ _ _ _ He) as (q & Hq & _ & Hv & Hg).
  pose proof (lock_reachable proto_encode serialize _ _ _ _ _ _ _ _ _ _ He)
    as (l & Hl & Hlk & _).
  rewrite Hc in Hp, Hq, Hl. cbn in Hp, Hq, Hl.
  unfold phase_post in Hp. unfold open_post in Hq. unfold lock_post in Hl. subst q l.
  assert (Hdone : Forall (fun st => st = D_done) sts /\ od4_running (shared w) = false).
  { destruct ph as [g| |]; [|congruence|].
    - destruct Hph as (Ho & -> & _). split; [constructor|exact Ho].
    - destruct Hph as (Ho & Hall). split; [exact Hall|exact Ho]. }
  destruct Hdone as (Hall & Ho).
  split; [|split; [exact Ho|split; [|split; [auto|split; [auto|exact Hlk]]]]].
  - rewrite Hds. apply forallb_forall. intros p Hin. apply in_map_iff in Hin.
    destruct Hin as (st & <- & Hin). rewrite Forall_forall in Hall.
    rewrite (Hall st); [reflexivity|]. apply list_elem_of_In, Hin.
  - eapply mutex_rel_done in Hm; [|exact Hall]. tauto.
Qed.

End Released.

(** ** Rounds of the loop *)

Section Loop.

Variable proto_encode : ImageReading.t -> list byte.
Variable serialize : Envelope.t -> list byte.

Lemma after_frames_keeps fs : forall s,
  sm_valid (after_frames fs s) = sm_valid s
  /\ terminated (after_frames fs s) = terminated s
  /\ (sm_locked s = false -> sm_locked (after_frames fs s) = false)
  /\ file_view (after_frames fs s) = file_view s
  /\ cerr_out (after_frames fs s) = cerr_out s
  /\ clog_out (after_frames fs s) = clog_out s.
Proof.
  induction fs as [|f fs IH]; intros s; [cbn; auto 10|].
  change (after_frames (f :: fs) s) with (after_frames fs (take_frame f s)).
  destruct (IH (take_frame f s)) as (H1 & H2 & H3 & H4 & H5 & H6).
  rewrite H1, H2, H4, H5, H6. cbn. auto 10.
Qed.

(** One round for each frame, back at the loop test. *)
Lemma rounds_run W H ID V (k : Prog Z) ds fs : forall s,
  sm_valid s = true -> sm_locked s = false -> terminated s = false ->
  exec proto_encode serialize (rounds fs)
    (mkWorld s (While loop_condition (loop_body W H ID V) k) ds)
  = Some (mkWorld (after_frames fs s) (While loop_condition (loop_body W H ID V) k) ds).
Proof.
  induction fs as [|f fs IH]; intros s Hv Hl Ht; [reflexivity|].
  unfold rounds. cbn [flat_map]. fold (rounds fs). rewrite !exec_app.
  repeat (progress (cbn [exec step step_prog main_thread shared delegates loop_condition
                         bind call pending_write respond negb app];
                    rewrite ?Hv, ?Ht)).
  match goal with
  | |- context [exec _ _ (snapshot_schedule _ _ _) ?w0] =>
      change w0 with (mkWorld s (bind snapshot
                                   (fun _ : TimeStamp * list byte =>
                                      While loop_condition (loop_body W H ID V) k)) ds)
  end.
  rewrite snapshot_run by assumption.
  apply (IH (take_frame f s)); reflexivity || assumption.
Qed.

(** X13.  The main thread keeps up with the producer.  Started at the
    loop test with the area valid and the flag unset, and given any
    number of frames, each while it waits, it reads every one and is
    back at the loop test; the recording file, the mutex and the log are
    then as they were, and the area and the clock are those of the last
    frame.  From there the loop is left in three steps once the flag is
    set, and in two once the area is invalid. *)
Theorem loop_keeps_up W H ID V (k : Prog Z) s ds fs :
  sm_valid s = true -> sm_locked s = false -> terminated s = false ->
  exec proto_encode serialize (rounds fs)
    (mkWorld s (While loop_condition (loop_body W H ID V) k) ds)
  = Some (mkWorld (after_frames fs s) (While loop_condition (loop_body W H ID V) k) ds)
  /\ file_view (after_frames fs s) = file_view s
  /\ clog_out (after_frames fs s) = clog_out s
  /\ exec proto_encode serialize (rounds fs ++ [L_signal; L_main; L_main; L_main])
       (mkWorld s (While loop_condition (loop_body W H ID V) k) ds)
     = Some (mkWorld (set_terminated true (after_frames fs s)) k ds)
  /\ exec proto_encode serialize (rounds fs ++ [L_detach; L_main; L_main])
       (mkWorld s (While loop_condition (loop_body W H ID V) k) ds)
     = Some (mkWorld (set_sm_valid false (after_frames fs s)) k ds).
Proof.
  intros Hv Hl Ht.
  destruct (after_frames_keeps fs s) as (K1 & K2 & K3 & K4 & K5 & K6).
  split; [apply rounds_run; assumption|]. split; [exact K4|]. split; [exact K6|].
  split.
  - rewrite exec_app, rounds_run by assumption.
    cbn [exec step step_prog main_thread shared delegates loop_condition bind call
         pending_write respond].
    cbn. rewrite K1, Hv. reflexivity.
  - rewrite exec_app, rounds_run by assumption.
    cbn [exec step step_prog main_thread shared delegates loop_condition bind call
         pending_write respond].
    cbn. reflexivity.
Qed.

(** X16.  [main] runs to completion.  With a command line that can be
    read, the area in place and the file writable, [main] left alone
    with the producer attaches, logs its line and opens the file, goes
    once round the loop for each frame, however many there are, leaves
    the loop at the termination signal and returns 0; the recording file
    is then empty, whatever the frames were, and nothing is on [cerr]. *)
Theorem main_runs_to_completion areas paths tz t0 d0 ts0 argv0 args cid fs :
  required_missing args = false -> unreadable args = false ->
  configured_cid args = Some cid ->
  areas (at_key args "name") <> None -> (forall p, paths p = true) ->
  exists w,
    exec proto_encode serialize (whole_run args (0 <? cid) fs)
      (boot (power_on areas paths tz t0 d0 ts0) argv0 args) = Some w
    /\ main_thread w = Ret 0
    /\ rec_disk (shared w) = [] /\ rec_buf (shared w) = []
    /\ length (clog_out (shared w)) = 1%nat /\ cerr_out (shared w) = [].
Proof.
  intros Hm Hu Hc Ha Hp.
  destruct (readable _ Hm Hu) as (w & h & cid' & id & Hw & Hh & Hc' & Hi).
  assert (cid' = cid) by congruence. subst cid'.
  unfold boot, whole_run, startup.
  rewrite (main_parsed argv0 args w h cid id Hm Hw Hh Hc Hi). unfold record.
  destruct (areas (at_key args "name")) as [n|] eqn:Hn; [|congruence].
  destruct (negb (size (at_key args "rec") =? 0)); destruct (0 <? cid).
  all: cbn [repeat app exec step step_prog main_thread shared delegates bind call
            pending_write respond getYYYYMMDD_HHMMSS power_on attachable].
  all: rewrite ?Hn.
  all: cbn [repeat app exec step step_prog main_thread shared delegates bind call
            pending_write respond set_sm sm_valid sm_name sm_size writable set_out].
  all: rewrite ?Hp.
  all: cbn [repeat app exec step step_prog main_thread shared delegates bind call
            pending_write respond set_rec rec_good].
  all: rewrite exec_app, rounds_run by reflexivity.
  all: match goal with
       | |- context [after_frames ?f ?s1] =>
           pose proof (after_frames_keeps f s1) as (K1 & _ & _ & K4 & K5 & K6);
           set (A := after_frames f s1) in *
       end.
  all: unfold file_view in K4; injection K4 as _ G2 G3 _ _ _ _.
  all: cbn [sm_valid rec_disk rec_buf cerr_out clog_out set_sm set_rec set_out
            set_od4_running power_on] in K1, G2, G3, K5, K6.
  all: cbn [repeat app exec step step_prog main_thread shared delegates bind call
            pending_write respond loop_condition set_terminated sm_valid terminated negb
            forallb finished set_od4_running].
  all: rewrite K1.
  all: cbn [repeat app exec step step_prog main_thread shared delegates bind call
            pending_write respond loop_condition set_terminated sm_valid terminated negb
            forallb finished set_od4_running].
  all: eexists; (split; [reflexivity|]).
  all: cbn [shared main_thread rec_disk rec_buf clog_out cerr_out set_sm_valid set_sm
            set_rec set_od4_running set_terminated].
  all: rewrite G2, G3, K5, K6.
  all: repeat split.
Qed.

End Loop.

(** ** The further properties on the example runs *)

Lemma stamp_reads_YYYY_MM_DD_HHMMSS_witness :
  calendar (zone (demo_shared (fun _ => true))
              (seconds (clock (demo_shared (fun _ => true))))) = true
  /\ stamp_of (demo_zone 1546300800) = "2019-01-01_000000"
  /\ mask (stamp_of (demo_zone 1546300800)) = "dddd-dd-dd_dddddd".
Proof.
  split; [reflexivity|]. split; [vm_compute; reflexivity|].
  apply (stamp_reads_YYYY_MM_DD_HHMMSS demo_encode demo_serialize (fun _ => Ret 0)
           (demo_shared (fun _ => true)) []).
  reflexivity.
Defined.

Lemma stamp_fields_read_back_witness :
  calendar (demo_zone 0) = true
  /\ stoi (substring 0 4 (stamp_of (demo_zone 0))) = Some 2019
  /\ stoi (substring 5 2 (stamp_of (demo_zone 0))) = Some 1.
Proof.
  split; [reflexivity|].
  destruct (stamp_fields_read_back (demo_zone 0) eq_refl) as (Hy & Hm & _).
  split; [exact Hy|exact Hm].
Defined.

Lemma stamps_sort_as_the_times_do_witness :
  calendar (demo_zone 0) = true /\ calendar (mk_tm 119 0 1 0 0 1) = true
  /\ String.compare (stamp_of (demo_zone 0)) (stamp_of (mk_tm 119 0 1 0 0 1)) = Lt.
Proof.
  split; [reflexivity|]. split; [reflexivity|].
  exact (stamps_sort_as_the_times_do (demo_zone 0) (mk_tm 119 0 1 0 0 1) eq_refl eq_refl).
Defined.

Lemma recording_file_is_the_one_announced_witness :
  exec demo_encode demo_serialize three_frames demo_world = Some demo_after_frames
  /\ (clog_out (shared demo_after_frames) = []
      \/ exists n file,
           demo_areas (at_key demo_args "name") = Some n
           /\ clog_out (shared demo_after_frames)
              = [attached_line (at_key demo_args "name") n file]
           /\ names demo_args demo_zone file).
Proof.
  assert (H : exec demo_encode demo_serialize three_frames demo_world = Some demo_after_frames)
    by (vm_compute; reflexivity).
  split; [exact H|].
  apply (recording_file_is_the_one_announced demo_encode demo_serialize demo_areas
           (fun _ => true) demo_zone (mkTimeStamp 1546300800 0) (fun _ => x00)
           (false, mkTimeStamp 0 0) "recorder" demo_args three_frames demo_after_frames H).
Defined.

Lemma usage_is_all_that_is_printed_witness :
  required_missing ∅ = true
  /\ exec demo_encode demo_serialize (repeat L_main 11)
       (boot (demo_shared (fun _ => true)) "recorder" ∅) = Some demo_usage
  /\ main_thread demo_usage = Ret 1
  /\ cerr_out (shared demo_usage) = usage_text "recorder".
Proof.
  assert (H : exec demo_encode demo_serialize (repeat L_main 11)
                (boot (demo_shared (fun _ => true)) "recorder" ∅) = Some demo_usage)
    by (vm_compute; reflexivity).
  assert (Hm : required_missing ∅ = true) by (vm_compute; reflexivity).
  split; [exact Hm|]. split; [exact H|]. split; [reflexivity|].
  destruct (usage_is_all_that_is_printed demo_encode demo_serialize demo_areas (fun _ => true)
              demo_zone (mkTimeStamp 1546300800 0) (fun _ => x00) (false, mkTimeStamp 0 0)
              "recorder" ∅ (repeat L_main 11) demo_usage Hm H) as (_ & _ & Hr & _).
  exact (proj2 (Hr 1 eq_refl)).
Defined.

Lemma unreadable_number_throws_at_once_witness :
  unreadable demo_args_wide = true
  /\ exec demo_encode demo_serialize [L_signal]
       (boot (demo_shared (fun _ => true)) "recorder" demo_args_wide) = Some demo_thrown
  /\ main_thread demo_thrown = Throw /\ delegates demo_thrown = [].
Proof.
  assert (Hu : unreadable demo_args_wide = true) by (vm_compute; reflexivity).
  assert (H : exec demo_encode demo_serialize [L_signal]
                (boot (demo_shared (fun _ => true)) "recorder" demo_args_wide)
              = Some demo_thrown)
    by (vm_compute; reflexivity).
  split; [exact Hu|]. split; [exact H|].
  destruct (unreadable_number_throws_at_once demo_encode demo_serialize demo_areas
              (fun _ => true) demo_zone (mkTimeStamp 1546300800 0) (fun _ => x00)
              (false, mkTimeStamp 0 0) "recorder" demo_args_wide [L_signal] demo_thrown Hu H)
    as (Ht & Hd & _).
  split; [exact Ht|exact Hd].
Defined.

Lemma nothing_is_opened_before_the_area_is_attached_witness :
  demo_areas (at_key demo_args_nowhere "name") = None
  /\ exec demo_encode demo_serialize (repeat L_main 6)
       (boot (demo_shared (fun _ => true)) "recorder" demo_args_nowhere) = Some demo_failed
  /\ main_thread demo_failed = Ret 1
  /\ rec_good (shared demo_failed) = false /\ clog_out (shared demo_failed) = [].
Proof.
  assert (Ha : demo_areas (at_key demo_args_nowhere "name") = None)
    by (vm_compute; reflexivity).
  assert (H : exec demo_encode demo_serialize (repeat L_main 6)
                (boot (demo_shared (fun _ => true)) "recorder" demo_args_nowhere)
              = Some demo_failed)
    by (vm_compute; reflexivity).
  split; [exact Ha|]. split; [exact H|]. split; [reflexivity|].
  destruct (nothing_is_opened_before_the_area_is_attached demo_encode demo_serialize
              demo_areas (fun _ => true) demo_zone (mkTimeStamp 1546300800 0) (fun _ => x00)
              (false, mkTimeStamp 0 0) "recorder" demo_args_nowhere (repeat L_main 6)
              demo_failed (or_intror (or_intror Ha)) H)
    as (Hg & _ & _ & Hc & _).
  split; [exact Hg|exact Hc].
Defined.

Lemma session_iff_cid_is_not_zero_witness :
  exec demo_encode demo_serialize busy demo_world_cid = Some demo_busy
  /\ od4_running (shared demo_busy) = true
  /\ exists v, at_key demo_args_cid "cid" <> ""
               /\ stoi (at_key demo_args_cid "cid") = Some v /\ v <> 0.
Proof.
  assert (H : exec demo_encode demo_serialize busy demo_world_cid = Some demo_busy)
    by (vm_compute; reflexivity).
  split; [exact H|]. split; [reflexivity|].
  apply (proj1 (session_iff_cid_is_not_zero demo_encode demo_serialize demo_areas
                  (fun _ => true) demo_zone (mkTimeStamp 1546300800 0) (fun _ => x00)
                  (false, mkTimeStamp 0 0) "recorder" demo_args_cid) busy demo_busy H).
  left. reflexivity.
Defined.

Lemma delegate_appends_its_envelope_witness :
  delegates demo_invoked !! 0%nat = Some (od4_delegate (demo_envelope [x0a; x0b]))
  /\ rec_mutex (shared demo_invoked) = None /\ rec_good (shared demo_invoked) = true
  /\ exists s',
       exec demo_encode demo_serialize
         (delegate_schedule 0 (length (demo_serialize (demo_envelope [x0a; x0b]))))
         demo_invoked
       = Some (mkWorld s' (main_thread demo_invoked) [Ret tt])
       /\ rec_disk s' = demo_serialize (demo_envelope [x0a; x0b]).
Proof.
  split; [reflexivity|]. split; [reflexivity|]. split; [reflexivity|].
  destruct (delegate_appends_its_envelope demo_encode demo_serialize
              (main_thread demo_invoked) (shared demo_invoked) (delegates demo_invoked) 0%nat
              (demo_envelope [x0a; x0b]) eq_refl eq_refl eq_refl)
    as (s' & Hrun & Hd & _).
  exists s'. split; [exact Hrun|exact Hd].
Defined.

Lemma no_delegate_outlives_the_file_witness :
  exec demo_encode demo_serialize busy demo_world_cid = Some demo_busy
  /\ (exists p, delegates demo_busy !! 0%nat = Some p /\ finished p = false)
  /\ od4_running (shared demo_busy) = true /\ rec_good (shared demo_busy) = true.
Proof.
  assert (H : exec demo_encode demo_serialize busy demo_world_cid = Some demo_busy)
    by (vm_compute; reflexivity).
  assert (Hl : delegates demo_busy !! 0%nat
               = Some (default (Ret tt) (delegates demo_busy !! 0%nat)))
    by (vm_compute; reflexivity).
  assert (Hf : finished (default (Ret tt) (delegates demo_busy !! 0%nat)) = false)
    by (vm_compute; reflexivity).
  split; [exact H|].
  split; [exists (default (Ret tt) (delegates demo_busy !! 0%nat)); split; assumption|].
  destruct (no_delegate_outlives_the_file demo_encode demo_serialize demo_areas
              (fun _ => true) demo_zone (mkTimeStamp 1546300800 0) (fun _ => x00)
              (false, mkTimeStamp 0 0) "recorder" demo_args_cid busy demo_busy 0%nat
              (default (Ret tt) (delegates demo_busy !! 0%nat)) H Hl Hf)
    as (Ho & Hg & _).
  split; [exact Ho|exact Hg].
Defined.

Lemma every_received_envelope_is_recorded_witness :
  exec demo_encode demo_serialize to_the_end demo_world_cid = Some demo_done
  /\ main_thread demo_done = Ret 0
  /\ received to_the_end = [demo_envelope [x0a; x0b]; demo_envelope [x0c]]
  /\ exists es,
       es ≡ₚ received to_the_end
       /\ es = List.map snd (serialized (shared demo_done))
       /\ rec_disk (shared demo_done) = concat (List.map demo_serialize es)
       /\ rec_buf (shared demo_done) = [].
Proof.
  assert (H : exec demo_encode demo_serialize to_the_end demo_world_cid = Some demo_done)
    by (vm_compute; reflexivity).
  split; [exact H|]. split; [reflexivity|]. split; [reflexivity|].
  apply (every_received_envelope_is_recorded demo_encode demo_serialize demo_areas
           (fun _ => true) demo_zone (mkTimeStamp 1546300800 0) (fun _ => x00)
           (false, mkTimeStamp 0 0) "recorder" demo_args_cid to_the_end demo_done 0 H).
  reflexivity.
Defined.

Lemma everything_is_released_at_return_witness :
  exec demo_encode demo_serialize to_the_end demo_world_cid = Some demo_done
  /\ main_thread demo_done = Ret 0
  /\ forallb finished (delegates demo_done) = true
  /\ od4_running (shared demo_done) = false
  /\ rec_mutex (shared demo_done) = None
  /\ rec_good (shared demo_done) = false
  /\ sm_valid (shared demo_done) = false
  /\ sm_locked (shared demo_done) = false.
Proof.
  assert (H : exec demo_encode demo_serialize to_the_end demo_world_cid = Some demo_done)
    by (vm_compute; reflexivity).
  split; [exact H|]. split; [reflexivity|].
  apply (everything_is_released_at_return demo_encode demo_serialize demo_areas
           (fun _ => true) demo_zone (mkTimeStamp 1546300800 0) (fun _ => x00)
           (false, mkTimeStamp 0 0) "recorder" demo_args_cid to_the_end demo_done 0 H).
  reflexivity.
Defined.

Lemma loop_keeps_up_witness :
  sm_valid (shared demo_waiting) = true /\ sm_locked (shared demo_waiting) = false
  /\ terminated (shared demo_waiting) = false
  /\ exec demo_encode demo_serialize (rounds demo_frames)
       (mkWorld (shared demo_waiting) (While loop_condition (loop_body 640 480 7 false) (Ret 0))
          [])
     = Some (mkWorld (after_frames demo_frames (shared demo_waiting))
               (While loop_condition (loop_body 640 480 7 false) (Ret 0)) [])
  /\ file_view (after_frames demo_frames (shared demo_waiting))
     = file_view (shared demo_waiting).
Proof.
  split; [reflexivity|]. split; [reflexivity|]. split; [reflexivity|].
  destruct (loop_keeps_up demo_encode demo_serialize 640 480 7 false (Ret 0)
              (shared demo_waiting) [] demo_frames eq_refl eq_refl eq_refl)
    as (Hrun & Hf & _).
  split; [exact Hrun|exact Hf].
Defined.

Lemma width_height_and_id_are_not_used_witness :
  required_missing demo_args = false /\ required_missing demo_args_other = false
  /\ unreadable demo_args = false /\ unreadable demo_args_other = false
  /\ at_key demo_args "width" <> at_key demo_args_other "width"
  /\ exec demo_encode demo_serialize three_frames
       (boot (demo_shared (fun _ => true)) "recorder" demo_args)
     = exec demo_encode demo_serialize three_frames
         (boot (demo_shared (fun _ => true)) "recorder" demo_args_other).
Proof.
  assert (H1 : required_missing demo_args = false) by (vm_compute; reflexivity).
  assert (H2 : required_missing demo_args_other = false) by (vm_compute; reflexivity).
  assert (H3 : unreadable demo_args = false) by (vm_compute; reflexivity).
  assert (H4 : unreadable demo_args_other = false) by (vm_compute; reflexivity).
  split; [exact H1|]. split; [exact H2|]. split; [exact H3|]. split; [exact H4|].
  split; [vm_compute; discriminate|].
  apply (width_height_and_id_are_not_used demo_encode demo_serialize
           (demo_shared (fun _ => true)) "recorder" demo_args demo_args_other three_frames
           H1 H2 H3 H4);
    vm_compute; reflexivity.
Defined.

Lemma unwritable_file_skips_the_loop_witness :
  (forall p : string, (fun _ : string => false) p = false)
  /\ exec demo_encode demo_serialize (repeat L_main 11)
       (boot (demo_shared (fun _ => false)) "recorder" demo_args) = Some demo_unwritable
  /\ main_thread demo_unwritable = Ret 0
  /\ rec_good (shared demo_unwritable) = false
  /\ od4_running (shared demo_unwritable) = false.
Proof.
  assert (Hno : forall p : string, (fun _ : string => false) p = false) by reflexivity.
  assert (H : exec demo_encode demo_serialize (repeat L_main 11)
                (boot (demo_shared (fun _ => false)) "recorder" demo_args)
              = Some demo_unwritable)
    by (vm_compute; reflexivity).
  split; [exact Hno|]. split; [exact H|]. split; [reflexivity|].
  destruct (proj1 (unwritable_file_skips_the_loop demo_encode demo_serialize demo_areas
                     (fun _ => false) demo_zone (mkTimeStamp 1546300800 0) (fun _ => x00)
                     (false, mkTimeStamp 0 0) "recorder" demo_args Hno)
              (repeat L_main 11) demo_unwritable H)
    as (Hg & _ & _ & Ho & _).
  split; [exact Hg|exact Ho].
Defined.

Lemma main_runs_to_completion_witness :
  required_missing demo_args = false /\ unreadable demo_args = false
  /\ configured_cid demo_args = Some 0
  /\ exists w,
       exec demo_encode demo_serialize (whole_run demo_args false demo_frames) demo_world
       = Some w
       /\ main_thread w = Ret 0 /\ rec_disk (shared w) = [].
Proof.
  assert (H1 : required_missing demo_args = false) by (vm_compute; reflexivity).
  assert (H2 : unreadable demo_args = false) by (vm_compute; reflexivity).
  assert (H3 : configured_cid demo_args = Some 0) by (vm_compute; reflexivity).
  assert (H4 : demo_areas (at_key demo_args "name") <> None) by (vm_compute; discriminate).
  split; [exact H1|]. split; [exact H2|]. split; [exact H3|].
  destruct (main_runs_to_completion demo_encode demo_serialize demo_areas (fun _ => true)
              demo_zone (mkTimeStamp 1546300800 0) (fun _ => x00) (false, mkTimeStamp 0 0)
              "recorder" demo_args 0 demo_frames H1 H2 H3 H4 (fun _ => eq_refl))
    as (w & Hrun & Hret & Hd & _).
  exists w. split; [exact Hrun|]. split; [exact Hret|exact Hd].
Defined.
